(** * Genetic algorithm for biscuit placement: a shallow embedding

    The notebook [genetic_algorithm.ipynb] places biscuits of several sizes
    on a roll with positional defects.  This file embeds its algorithmic
    cells: [respect_defects], the two fitness methods [fitness_1] and
    [fitness_2] (with [get_slice_score]), the generation step [evolve_pop]
    and the driver [genetic_algorithm].

    Conventions of the embedding.
    - A Python [dict] is a [gmap]; a failed lookup raises [KeyError].
    - Python exceptions are the [Err] branch of [result].
    - Python integers are [Z]; run lengths and biscuit sizes, which the
      catalogue keeps positive, are [nat].
    - A Python float is the rational [Qc] that it stands for.  The product
      [-len(population) * elite_ratio], whose whole part fixes the number of
      elites, is rounded to the nearest binary64 number as the machine does
      ([round_float]); the scores of [fitness_2] are kept exact.
    - [np.argsort] is any function that returns the indices in ascending
      order of their values ([Argsort], [ArgsortSorts]): numpy's default
      sort is not stable, so the theorems hold for every such function;
      the examples are run with an insertion sort.
    - The pseudo-random generator is an explicit oracle: every draw the code
      makes is an argument of the function that makes it. *)

From Stdlib Require Import QArith Qcanon Qround.
From stdpp Require Import base numbers list list_numbers sorting strings gmap fin_maps.

Local Open Scope Z_scope.

(** ** Exceptions *)

(** The Python exceptions that the embedded code can raise.  [OutOfFuel] is
    not one of them: it marks a loop of the model that was cut short, which
    does not happen ([get_slice_score_fuel_enough]). *)
Inductive error : Type :=
  | KeyError
  | IndexError
  | ValueError
  | OutOfFuel.

Inductive result (A : Type) : Type :=
  | Ok (a : A)
  | Err (e : error).
Arguments Ok {A} a.
Arguments Err {A} e.

#[global] Instance error_eq_dec : EqDecision error.
Proof. solve_decision. Defined.

#[global] Instance result_ret : MRet result := λ A a, Ok a.
#[global] Instance result_bind : MBind result := λ A B f m,
  match m with
  | Ok a => f a
  | Err e => Err e
  end.

Definition is_Ok {A} (r : result A) : Prop := ∃ a, r = Ok a.

(** [d[k]] on a dictionary. *)
Definition getitem `{Countable K} {V} (d : gmap K V) (k : K) : result V :=
  match d !! k with
  | Some v => Ok v
  | None => Err KeyError
  end.

(** [l[i]] on a list, for an index that is not negative. *)
Definition index {A} (l : list A) (i : nat) : result A :=
  match l !! i with
  | Some x => Ok x
  | None => Err IndexError
  end.

(** ** Data model *)

(** One entry of [biscuits_list]:
    [{"value": v, "size": s, "threshold": {"a": _, "b": _, "c": _}}]. *)
Record biscuit : Type := Biscuit {
  value : Z;
  size : nat;
  threshold : gmap string Z;
}.

(** [range(start, end)]. *)
Definition range (start end_ : Z) : list Z := seqZ start (end_ - start).

(** ** [respect_defects] *)

Definition pos_defects0 : gmap string Z :=
  <["a" := 0]> (<["b" := 0]> (<["c" := 0]> ∅)).

(** [pos_defects[key] += n]; the read of [pos_defects[key]] raises when the
    class is not one of the three initial ones. *)
Definition add_defect (key : string) (n : Z)
    (acc : result (gmap string Z)) : result (gmap string Z) :=
  pd ← acc;
  v ← getitem pd key;
  Ok (<[key := v + n]> pd).

(** [for key in roll_defects[pos]: pos_defects[key] += roll_defects[pos][key]].
    The additions touch distinct keys and every failure is a [KeyError], so
    the order in which the keys are visited does not show in the result. *)
Definition add_pos_defects (here : gmap string Z)
    (pd : gmap string Z) : result (gmap string Z) :=
  map_fold add_defect (Ok pd) here.

(** [for pos in range(start, end): ...] *)
Fixpoint sum_defects (positions : list Z) (roll_defects : gmap Z (gmap string Z))
    (pd : gmap string Z) : result (gmap string Z) :=
  match positions with
  | [] => Ok pd
  | pos :: rest =>
      here ← getitem roll_defects pos;
      pd' ← add_pos_defects here pd;
      sum_defects rest roll_defects pd'
  end.

(** [all(threshold[key] >= pos_defects[key] for key in pos_defects.keys())]:
    the generator is consumed left to right and [all] stops at the first
    [False]. *)
Fixpoint all_within (threshold pd : gmap string Z) (keys : list string)
    : result bool :=
  match keys with
  | [] => Ok true
  | key :: rest =>
      t ← getitem threshold key;
      d ← getitem pd key;
      if bool_decide (d ≤ t) then all_within threshold pd rest else Ok false
  end.

Definition respect_defects (threshold : gmap string Z) (start end_ : Z)
    (roll_defects : gmap Z (gmap string Z)) : result bool :=
  pd ← sum_defects (range start end_) roll_defects pos_defects0;
  all_within threshold pd ["a"; "b"; "c"]%string.

(** ** [fitness_1] *)

(** The loop variables [score], [size] and [last_elem]. *)
Record scan1 : Type := Scan1 {
  score1 : Z;
  size1 : nat;
  last_elem1 : Z;
}.

(** One turn of [for i, elem in enumerate(ind)]. *)
Definition fitness_1_step (biscuits_list : gmap Z biscuit)
    (roll_defects : gmap Z (gmap string Z))
    (i : Z) (elem : Z) (st : scan1) : result scan1 :=
  if bool_decide (elem = -1) then
    Ok (Scan1 (score1 st - (1 + Z.of_nat (size1 st))) 0 elem)
  else
    let score :=
      if bool_decide (elem ≠ last_elem1 st)
      then score1 st - Z.of_nat (size1 st) else score1 st in
    let sz :=
      if bool_decide (elem ≠ last_elem1 st) then 1%nat else S (size1 st) in
    b ← getitem biscuits_list elem;
    if bool_decide (sz = size b) then
      ok ← respect_defects (threshold b) (i - Z.of_nat sz + 1) (i + 1) roll_defects;
      if (ok : bool) then Ok (Scan1 (score + value b) 0 elem)
      else Ok (Scan1 (score - 1) (pred sz) elem)
    else Ok (Scan1 score sz elem).

Fixpoint fitness_1_loop (biscuits_list : gmap Z biscuit)
    (roll_defects : gmap Z (gmap string Z))
    (i : Z) (ind : list Z) (st : scan1) : result scan1 :=
  match ind with
  | [] => Ok st
  | elem :: rest =>
      st' ← fitness_1_step biscuits_list roll_defects i elem st;
      fitness_1_loop biscuits_list roll_defects (i + 1) rest st'
  end.

Definition fitness_1 (ind : list Z) (biscuits_list : gmap Z biscuit)
    (roll_defects : gmap Z (gmap string Z)) : result Z :=
  st ← fitness_1_loop biscuits_list roll_defects 0 ind (Scan1 0 0 (-2));
  Ok (score1 st - Z.of_nat (size1 st)).

(** The catalogue of the notebook. *)
Definition thr (a b c : Z) : gmap string Z :=
  <["a" := a]> (<["b" := b]> (<["c" := c]> ∅)).

Definition notebook_biscuits : gmap Z biscuit :=
  <[-1 := Biscuit (-1) 1 (thr 9 9 9)]> (
  <[0 := Biscuit 3 4 (thr 4 2 3)]> (
  <[1 := Biscuit 12 8 (thr 5 4 4)]> (
  <[2 := Biscuit 1 2 (thr 1 2 1)]> (
  <[3 := Biscuit 8 5 (thr 4 2 3)]> ∅)))).

(** [{i: {"a": 0, "b": 0, "c": 0} for i in range(roll_size)}] *)
Definition no_defects (roll_size : Z) : gmap Z (gmap string Z) :=
  list_to_map ((λ i, (i, thr 0 0 0)) <$> range 0 roll_size).

(** ** [get_slice_score] *)

(** [l.remove(x)]: drops the first occurrence, [ValueError] when there is
    none. *)
Fixpoint list_remove (x : Z) (l : list Z) : result (list Z) :=
  match l with
  | [] => Err ValueError
  | y :: l' =>
      if bool_decide (x = y) then Ok l'
      else l'' ← list_remove x l'; Ok (y :: l'')
  end.

(** [for assi in assigned: unassigned.remove(assi)] *)
Fixpoint remove_assigned (assigned unassigned : list Z) : result (list Z) :=
  match assigned with
  | [] => Ok unassigned
  | assi :: rest =>
      unassigned' ← list_remove assi unassigned;
      remove_assigned rest unassigned'
  end.

(** [(last_size/lb_size)**2 * lb_value] *)
Definition slice_value (last_size lb_size : nat) (lb_value : Z) : Qc :=
  ((Qc_of_Z (Z.of_nat last_size) / Qc_of_Z (Z.of_nat lb_size)) ^ 2
   * Qc_of_Z lb_value)%Qc.

(** The inner loop [while j <= len(unassigned) - last_size], from the values
    of [j], [score] and [assigned] at its head.  [j] grows at every turn, so
    [length unassigned] turns of fuel are enough (see
    [slice_pass_fuel_enough]). *)
Fixpoint slice_pass (fuel : nat) (unassigned : list Z) (last_size lb_size : nat)
    (lb_value : Z) (lb_threshold : gmap string Z)
    (roll_defects : gmap Z (gmap string Z))
    (j : nat) (score : Qc) (assigned : list Z) : result (Qc * list Z) :=
  if bool_decide (j + last_size ≤ length unassigned)%nat then
    match fuel with
    | O => Err OutOfFuel
    | S fuel' =>
        pos ← index unassigned j;
        let start := pos in
        let end_ := pos + Z.of_nat last_size in
        if forallb (λ elem, bool_decide (elem ∈ unassigned)) (range start end_)
        then
          ok ← respect_defects lb_threshold start end_ roll_defects;
          if (ok : bool) then
            slice_pass fuel' unassigned last_size lb_size lb_value lb_threshold
              roll_defects (j + (last_size - 1) + 1)%nat
              (score + slice_value last_size lb_size lb_value)%Qc
              (assigned ++ range start end_)
          else
            slice_pass fuel' unassigned last_size lb_size lb_value lb_threshold
              roll_defects (j + 1)%nat score assigned
        else
          slice_pass fuel' unassigned last_size lb_size lb_value lb_threshold
            roll_defects (j + 1)%nat score assigned
    end
  else Ok (score, assigned).

(** The outer loop [while unassigned and last_size != 0]; [last_size] goes
    down by one at every turn. *)
Fixpoint slice_loop (last_size lb_size : nat) (lb_value : Z)
    (lb_threshold : gmap string Z) (roll_defects : gmap Z (gmap string Z))
    (unassigned : list Z) (score : Qc) : result (Qc * list Z) :=
  match last_size, unassigned with
  | O, _ | _, [] => Ok (score, unassigned)
  | S last_size', _ :: _ =>
      sa ← slice_pass (length unassigned) unassigned last_size lb_size lb_value
             lb_threshold roll_defects 0 score [];
      unassigned' ← remove_assigned sa.2 unassigned;
      slice_loop last_size' lb_size lb_value lb_threshold roll_defects
        unassigned' sa.1
  end.

Definition get_slice_score (position : Z) (size lb_size : nat) (lb_value : Z)
    (lb_threshold : gmap string Z) (roll_defects : gmap Z (gmap string Z))
    : result Qc :=
  su ← slice_loop (Nat.min lb_size size) lb_size lb_value lb_threshold
         roll_defects (range (position - Z.of_nat size) position) 0%Qc;
  Ok (su.1 - Qc_of_Z (Z.of_nat (length su.2)))%Qc.

(** ** [fitness_2] *)

Record scan2 : Type := Scan2 {
  score2 : Qc;
  size2 : nat;
  last_elem2 : Z;
}.

(** [get_slice_score(position, size, biscuits_list[last_elem]["size"],
    biscuits_list[last_elem]["value"], biscuits_list[last_elem]["threshold"],
    roll_defects)] *)
Definition run_score (biscuits_list : gmap Z biscuit)
    (roll_defects : gmap Z (gmap string Z))
    (position : Z) (sz : nat) (last_elem : Z) : result Qc :=
  b ← getitem biscuits_list last_elem;
  get_slice_score position sz (size b) (value b) (threshold b) roll_defects.

Definition fitness_2_step (biscuits_list : gmap Z biscuit)
    (roll_defects : gmap Z (gmap string Z))
    (i : Z) (elem : Z) (st : scan2) : result scan2 :=
  if bool_decide (elem = last_elem2 st) then
    Ok (Scan2 (score2 st) (S (size2 st)) elem)
  else if bool_decide (last_elem2 st = -1) then
    Ok (Scan2 (score2 st - Qc_of_Z (Z.of_nat (size2 st)))%Qc 1 elem)
  else
    slice_score ← run_score biscuits_list roll_defects i (size2 st) (last_elem2 st);
    Ok (Scan2 (score2 st + slice_score)%Qc 1 elem).

Fixpoint fitness_2_loop (biscuits_list : gmap Z biscuit)
    (roll_defects : gmap Z (gmap string Z))
    (i : Z) (ind : list Z) (st : scan2) : result scan2 :=
  match ind with
  | [] => Ok st
  | elem :: rest =>
      st' ← fitness_2_step biscuits_list roll_defects i elem st;
      fitness_2_loop biscuits_list roll_defects (i + 1) rest st'
  end.

Definition fitness_2 (ind : list Z) (biscuits_list : gmap Z biscuit)
    (roll_defects : gmap Z (gmap string Z)) : result Qc :=
  first ← index ind 0;
  st ← fitness_2_loop biscuits_list roll_defects 0 ind (Scan2 0%Qc 0 first);
  last_score ← run_score biscuits_list roll_defects (Z.of_nat (length ind))
                  (size2 st) (last_elem2 st);
  Ok (score2 st + last_score)%Qc.

(** [fitness_1] seen as a score of the same kind as [fitness_2]'s, for the
    [fitness] argument of [evolve_pop]. *)
Definition fitness_1_score (ind : list Z) (biscuits_list : gmap Z biscuit)
    (roll_defects : gmap Z (gmap string Z)) : result Qc :=
  s ← fitness_1 ind biscuits_list roll_defects; Ok (Qc_of_Z s).

(** ** [evolve_pop] *)

(** The type of the [fitness] argument. *)
Definition fitness_fn : Type :=
  list Z → gmap Z biscuit → gmap Z (gmap string Z) → result Qc.

(** [[fitness(ind, biscuits_list, roll_defects) for ind in population]] *)
Fixpoint fitness_list (fitness : fitness_fn) (population : list (list Z))
    (biscuits_list : gmap Z biscuit) (roll_defects : gmap Z (gmap string Z))
    : result (list Qc) :=
  match population with
  | [] => Ok []
  | ind :: rest =>
      f ← fitness ind biscuits_list roll_defects;
      fs ← fitness_list fitness rest biscuits_list roll_defects;
      Ok (f :: fs)
  end.

(** [fitness_values[i]] for an index of [fitness_values]. *)
Definition key (fitness_values : list Qc) (i : nat) : Qc :=
  default 0%Qc (fitness_values !! i).

(** The order that [argsort] puts on indices. *)
Definition key_le (fitness_values : list Qc) (i j : nat) : Prop :=
  (key fitness_values i ≤ key fitness_values j)%Qc.

(** [np.argsort]: the indices of [fitness_values] in ascending order of
    their values.  numpy's default sort is not stable, so the order of the
    indices of equal values is numpy's choice.  The code is modelled over
    every function that meets numpy's contract ([ArgsortSorts]): the result
    is a permutation of the indices, in ascending order of their values. *)
Class Argsort := argsort : list Qc → list nat.

Class ArgsortSorts (np : Argsort) : Prop := {
  argsort_Permutation fitness_values :
    argsort fitness_values ≡ₚ seq 0 (length fitness_values);
  argsort_sorted fitness_values :
    StronglySorted (key_le fitness_values) (argsort fitness_values);
}.

(** One such function, used to run the examples: the insertion sort, which
    keeps the indices of equal values in their order. *)
Fixpoint insert_by (fitness_values : list Qc) (i : nat) (l : list nat)
    : list nat :=
  match l with
  | [] => [i]
  | j :: l' =>
      if bool_decide (key fitness_values i ≤ key fitness_values j)%Qc
      then i :: j :: l'
      else j :: insert_by fitness_values i l'
  end.

#[global] Instance insertion_argsort : Argsort := λ fitness_values,
  foldr (insert_by fitness_values) [] (seq 0 (length fitness_values)).

(** ** Floats *)

(** The nearest integer to [n / d], ties to the even one, for [0 ≤ n] and
    [0 < d]. *)
Definition round_half_even (n d : Z) : Z :=
  let q := n / d in
  let r2 := 2 * (n `mod` d) in
  if bool_decide (r2 < d) then q
  else if bool_decide (d < r2) then q + 1
  else if Z.even q then q else q + 1.

(** The exponent [e] of the last place of the binary64 numbers around
    [n / d], for [0 < n] and [0 < d]: [2^52 ≤ (n / d) / 2^e < 2^53], and
    [e = -1074] below the normal range. *)
Definition float_exponent (n d : Z) : Z :=
  let k := Z.log2 n - Z.log2 d in
  let lg := if bool_decide (d * 2 ^ Z.max 0 k ≤ n * 2 ^ Z.max 0 (- k))
            then k else k - 1 in
  Z.max (lg - 52) (-1074).

Definition round_pos (n d : Z) : Qc :=
  let e := float_exponent n d in
  let m := round_half_even (n * 2 ^ Z.max 0 (- e)) (d * 2 ^ Z.max 0 e) in
  Q2Qc (Qmake (m * 2 ^ Z.max 0 e) (Z.to_pos (2 ^ Z.max 0 (- e)))).

(** The binary64 number nearest to [x], ties to the even significand: what
    a float operation returns for the exact result [x], with gradual
    underflow.  Overflow is left out: a result of [2^1024] or more is not
    modelled. *)
Definition round_float (x : Qc) : Qc :=
  if bool_decide (0 < Qnum x) then round_pos (Qnum x) (Zpos (Qden x))
  else if bool_decide (Qnum x < 0)
       then (- round_pos (- Qnum x) (Zpos (Qden x)))%Qc
       else 0%Qc.

(** [int(x)] on a float: truncation towards zero. *)
Definition int (x : Qc) : Z := Z.quot (Qnum x) (Zpos (Qden x)).

(** [l[k:]] for an integer [k] of either sign. *)
Definition slice_from {A} (k : Z) (l : list A) : list A :=
  if bool_decide (0 ≤ k) then drop (Z.to_nat k) l
  else drop (length l - Z.to_nat (- k)) l.

(** [int(-len(population) * elite_ratio)]: [elite_ratio] is a float, so the
    product is the float nearest to the exact one. *)
Definition elite_start (population : list (list Z)) (elite_ratio : Qc) : Z :=
  int (round_float (Qc_of_Z (- Z.of_nat (length population)) * elite_ratio)%Qc).

(** [np.argsort(fitness_values)[int(-len(population) * elite_ratio):]] *)
Definition elite_idx `{Argsort} (population : list (list Z)) (elite_ratio : Qc)
    (fitness_values : list Qc) : list nat :=
  slice_from (elite_start population elite_ratio) (argsort fitness_values).

(** [[population[i] for i in elite_idx]] *)
Fixpoint pick (population : list (list Z)) (idx : list nat)
    : result (list (list Z)) :=
  match idx with
  | [] => Ok []
  | i :: rest =>
      ind ← index population i;
      inds ← pick population rest;
      Ok (ind :: inds)
  end.

(** [min(fitness_values)] *)
Definition Qc_min (x y : Qc) : Qc := if bool_decide (y < x)%Qc then y else x.

Definition py_min (l : list Qc) : result Qc :=
  match l with
  | [] => Err ValueError
  | x :: l' => Ok (foldl Qc_min x l')
  end.

Definition shifted_fitness (fitness_values : list Qc) (min_fitness : Qc)
    : list Qc :=
  (λ f, f - min_fitness + 1)%Qc <$> fitness_values.

Definition probabilities (shifted : list Qc) : list Qc :=
  let fitness_sum := foldr Qcplus 0%Qc shifted in
  (λ f, f / fitness_sum)%Qc <$> shifted.

(** The random draws behind one child. *)
Record child_draws : Type := ChildDraws {
  (** [np.random.choice(len(population), size=2, replace=False, p=probabilities)] *)
  parents_indices : nat * nat;
  (** [np.random.choice(len(parent1), size=3, replace=False)] *)
  break_points : nat * nat * nat;
  (** [random.random()] of the [i]-th segment *)
  segment_draw : nat → Qc;
  (** [random.random()] of the [g]-th gene *)
  mutation_draw : nat → Qc;
  (** [random.randint(-1, 3)] of the [g]-th gene *)
  random_gene : nat → Z;
}.

(** [np.random.choice(a, size=size, replace=False)] refuses to draw more
    values than there are; otherwise it returns the oracle's draw. *)
Definition np_random_choice {A} (a size : nat) (drawn : A) : result A :=
  if bool_decide (a < size)%nat then Err ValueError else Ok drawn.

(** [break_points.sort()] *)
Fixpoint insert_sorted (x : nat) (l : list nat) : list nat :=
  match l with
  | [] => [x]
  | y :: l' => if bool_decide (x ≤ y)%nat then x :: y :: l' else y :: insert_sorted x l'
  end.

Definition sort (l : list nat) : list nat := foldr insert_sorted [] l.

(** [a[start:end]] for indices that are not negative. *)
Definition slice {A} (l : list A) (start end_ : nat) : list A :=
  take (end_ - start) (drop start l).

(** [child[start:end] = src] on numpy arrays: [src] must have the length of
    the slice it replaces, or length one (it is then repeated). *)
Definition set_slice (child : list Z) (start end_ : nat) (src : list Z)
    : result (list Z) :=
  let n := length (slice child start end_) in
  if bool_decide (length src = n) then
    Ok (take start child ++ src ++ drop (start + n) child)
  else
    match src with
    | [x] => Ok (take start child ++ replicate n x ++ drop (start + n) child)
    | _ => Err ValueError
    end.

(** [for i in range(len(break_points)-1)], from its [i]-th turn on;
    [bps] is [break_points[i:]]. *)
Fixpoint crossover_loop (parent1 parent2 : list Z) (coin : nat → Qc)
    (i : nat) (bps : list nat) (child : list Z) : result (list Z) :=
  match bps with
  | start :: ((end_ :: _) as rest) =>
      let chosen_p := if bool_decide (coin i < 1 / 2)%Qc then parent1 else parent2 in
      child' ← set_slice child start end_ (slice chosen_p start end_);
      crossover_loop parent1 parent2 coin (S i) rest child'
  | _ => Ok child
  end.

(** The cross over of [evolve_pop], once the break points are drawn. *)
Definition crossover (parent1 parent2 : list Z) (bp : nat * nat * nat)
    (coin : nat → Qc) : result (list Z) :=
  let child := replicate (length parent1) 0 in
  let break_points := sort [0%nat; length parent1; bp.1.1; bp.1.2; bp.2] in
  crossover_loop parent1 parent2 coin 0 break_points child.

(** [[gene if random.random() > mutation_rate else random.randint(-1, 3)
     for gene in child]] *)
Definition mutation (mutation_rate : Qc) (draw : nat → Qc) (new_gene : nat → Z)
    (child : list Z) : list Z :=
  imap (λ g gene, if bool_decide (mutation_rate < draw g)%Qc then gene
                  else new_gene g) child.

(** The body of the [while] loop: one new individual. *)
Definition make_child (population : list (list Z)) (probs : list Qc)
    (mutation_rate : Qc) (d : child_draws) : result (list Z) :=
  parents ← np_random_choice (length population) 2 (parents_indices d);
  parent1 ← index population parents.1;
  parent2 ← index population parents.2;
  bp ← np_random_choice (length parent1) 3 (break_points d);
  child ← crossover parent1 parent2 bp (segment_draw d);
  Ok (mutation mutation_rate (mutation_draw d) (random_gene d) child).

(** [while len(new_population) < len(population) - len(elites)]: every turn
    appends one child, so the loop runs [need] more times when [need]
    children are still missing.  [c] counts the children made so far. *)
Fixpoint breed (need : nat) (c : nat) (population : list (list Z))
    (probs : list Qc) (mutation_rate : Qc) (rnd : nat → child_draws)
    (new_population : list (list Z)) : result (list (list Z)) :=
  match need with
  | O => Ok new_population
  | S need' =>
      muted_child ← make_child population probs mutation_rate (rnd c);
      breed need' (S c) population probs mutation_rate rnd
        (new_population ++ [muted_child])
  end.

Definition evolve_pop `{Argsort} (population : list (list Z)) (mutation_rate elite_ratio : Qc)
    (biscuits_list : gmap Z biscuit) (roll_defects : gmap Z (gmap string Z))
    (fitness : fitness_fn) (rnd : nat → child_draws)
    : result (list (list Z)) :=
  fitness_values ← fitness_list fitness population biscuits_list roll_defects;
  elites ← pick population (elite_idx population elite_ratio fitness_values);
  min_fitness ← py_min fitness_values;
  let probs := probabilities (shifted_fitness fitness_values min_fitness) in
  new_population ← breed (length population - length elites) 0 population
                      probs mutation_rate rnd [];
  Ok (new_population ++ elites).

(** ** [genetic_algorithm] *)

(** [np.random.randint(-1, 4, size=(roll_size,))]: numpy refuses a negative
    dimension. *)
Definition random_individual (roll_size : Z) (gene : nat → Z)
    : result (list Z) :=
  if bool_decide (roll_size < 0) then Err ValueError
  else Ok (gene <$> seq 0 (Z.to_nat roll_size)).

(** [init_population]: [gene i g] is the draw for gene [g] of individual
    [i]. *)
Fixpoint init_individuals (idx : list nat) (roll_size : Z)
    (gene : nat → nat → Z) : result (list (list Z)) :=
  match idx with
  | [] => Ok []
  | i :: rest =>
      ind ← random_individual roll_size (gene i);
      inds ← init_individuals rest roll_size gene;
      Ok (ind :: inds)
  end.

Definition init_population (pop_size roll_size : Z) (gene : nat → nat → Z)
    : result (list (list Z)) :=
  init_individuals (seq 0 (Z.to_nat pop_size)) roll_size gene.

(** [np.argsort(fitness_values)[-1]] *)
Definition best_index `{Argsort} (fitness_values : list Qc) : result nat :=
  match last (argsort fitness_values) with
  | Some i => Ok i
  | None => Err IndexError
  end.

(** The randomness of a whole run. *)
Record run_draws : Type := RunDraws {
  init_gene : nat → nat → Z;
  generation_draws : nat → nat → child_draws;
}.

(** What the run prints: generation number and best fitness. *)
Definition report : Type := (Z * Qc)%type.

(** The body of [if display and (i+1) % display == 0]. *)
Definition display_generation `{Argsort} (display : option Z) (i : Z)
    (population : list (list Z)) (biscuits_list : gmap Z biscuit)
    (roll_defects : gmap Z (gmap string Z)) (fitness : fitness_fn)
    : result (list report) :=
  match display with
  | Some d =>
      if bool_decide (d ≠ 0 ∧ (i + 1) `mod` d = 0) then
        fitness_values ← fitness_list fitness population biscuits_list roll_defects;
        elite_idx ← best_index fitness_values;
        Ok [(i + 1, key fitness_values elite_idx)]
      else Ok []
  | None => Ok []
  end.

(** [for i in range(max_iter)], with [gens] turns left, the next one being
    turn [i]. *)
Fixpoint generations `{Argsort} (gens : nat) (i : nat) (population : list (list Z))
    (mutation_rate elite_ratio : Qc) (biscuits_list : gmap Z biscuit)
    (roll_defects : gmap Z (gmap string Z)) (display : option Z)
    (fitness : fitness_fn) (rnd : nat → nat → child_draws)
    (printed : list report) : result (list (list Z) * list report) :=
  match gens with
  | O => Ok (population, printed)
  | S gens' =>
      population' ← evolve_pop population mutation_rate elite_ratio
                      biscuits_list roll_defects fitness (rnd i);
      line ← display_generation display (Z.of_nat i) population' biscuits_list
               roll_defects fitness;
      generations gens' (S i) population' mutation_rate elite_ratio
        biscuits_list roll_defects display fitness rnd (printed ++ line)
  end.

(** The run: the returned population and what was printed on the way. *)
Definition genetic_algorithm_run `{Argsort} (pop_size : Z) (mutation_rate elite_ratio : Qc)
    (biscuits_list : gmap Z biscuit) (roll_defects : gmap Z (gmap string Z))
    (roll_size max_iter : Z) (display : option Z) (fitness : fitness_fn)
    (population : option (list (list Z))) (rtype : string) (rnd : run_draws)
    : result (list (list Z) * list report) :=
  population0 ←
    match population with
    | None => init_population pop_size roll_size (init_gene rnd)
    | Some p => Ok p
    end;
  pl ← generations (Z.to_nat max_iter) 0 population0 mutation_rate elite_ratio
         biscuits_list roll_defects display fitness (generation_draws rnd) [];
  if bool_decide (rtype ≠ "population"%string) then
    fitness_values ← fitness_list fitness pl.1 biscuits_list roll_defects;
    elite_idx ← best_index fitness_values;
    best ← index pl.1 elite_idx;
    Ok ([best], pl.2)
  else Ok pl.

Definition genetic_algorithm `{Argsort} (pop_size : Z) (mutation_rate elite_ratio : Qc)
    (biscuits_list : gmap Z biscuit) (roll_defects : gmap Z (gmap string Z))
    (roll_size max_iter : Z) (display : option Z) (fitness : fitness_fn)
    (population : option (list (list Z))) (rtype : string) (rnd : run_draws)
    : result (list (list Z)) :=
  pl ← genetic_algorithm_run pop_size mutation_rate elite_ratio biscuits_list
         roll_defects roll_size max_iter display fitness population rtype rnd;
  Ok pl.1.

(** ** The scenario of the specification *)

(** The catalogue [{-1: (1, -1, {}), 0: (4, 3, th)}], for a threshold
    mapping [th] of type 0. *)
Definition scenario_biscuits (th : gmap string Z) : gmap Z biscuit :=
  <[-1 := Biscuit (-1) 1 ∅]> (<[0 := Biscuit 3 4 th]> ∅).

Definition scenario_ind : list Z := [0; 0; 0; 0; -1; -1; -1; -1; -1; -1].

(** A defect table that lists every position with no class at all. *)
Definition bare_defects (roll_size : Z) : gmap Z (gmap string Z) :=
  list_to_map ((λ i, (i, ∅)) <$> range 0 roll_size).

(** A biscuit of one position that tolerates no defect of class a and says
    nothing of the classes b and c, on a position with one defect of class
    a. *)
Definition tight_biscuits : gmap Z biscuit :=
  <[0 := Biscuit 3 1 {["a"%string := 0]}]> ∅.

Definition one_a_defect : gmap Z (gmap string Z) := <[0 := thr 1 0 0]> ∅.

(** A table with a class d at position 0, which holds no biscuit. *)
Definition unit_biscuits : gmap Z biscuit :=
  <[-1 := Biscuit (-1) 1 (thr 9 9 9)]> (<[0 := Biscuit 3 1 (thr 0 0 0)]> ∅).

Definition stray_defects : gmap Z (gmap string Z) :=
  <[0 := {["d"%string := 1]}]> (<[1 := thr 0 0 0]> ∅).

(** ** A small population *)

(** Four individuals on a roll of four positions; with the catalogue of the
    notebook and no defect their strict scores are -1, 3, -4 and 2. *)
Definition example_population : list (list Z) :=
  [[2; 2; -1; -1]; [0; 0; 0; 0]; [-1; -1; -1; -1]; [2; 2; 2; 2]].

(** Draws that mate individuals 0 and 2, cut at 1, 2 and 3, take the
    segments from the two parents in turn and never replace a gene when the
    rate is below one half. *)
Definition example_draws (c : nat) : child_draws :=
  {| parents_indices := (0, 2)%nat;
     break_points := (1, 2, 3)%nat;
     segment_draw := λ i, if Nat.even i then 0%Qc
                          else (Qc_of_Z 3 / Qc_of_Z 4)%Qc;
     mutation_draw := λ _, (1 / Qc_of_Z 2)%Qc;
     random_gene := λ _, 3 |}.

Definition example_run_draws : run_draws :=
  {| init_gene := λ _ _, -1; generation_draws := λ _, example_draws |}.

(** ** Notions used in the statements *)

(** [child[start:end] = q[start:end]] for arrays of one length. *)
Definition splice (child q : list Z) (start end_ : nat) : list Z :=
  take start child ++ slice q start end_
  ++ drop (start + length (slice q start end_)) child.

(** [population[i]], or the empty chromosome when there is no such
    individual. *)
Definition individual (population : list (list Z)) (i : nat) : list Z :=
  default [] (population !! i).

(** The oracle draws parents among the individuals. *)
Definition valid_parents (population : list (list Z)) (rnd : nat → child_draws)
    : Prop :=
  ∀ c, ((parents_indices (rnd c)).1 < length population)%nat
       ∧ ((parents_indices (rnd c)).2 < length population)%nat.

(** ** What [respect_defects] computes *)

(** The count of class [k] at position [pos]: [roll_defects[pos][k]], and 0
    when the position lists no such class. *)
Definition class_count (roll_defects : gmap Z (gmap string Z)) (k : string)
    (pos : Z) : Z :=
  default 0 (roll_defects !! pos ≫= (.!! k)).

(** The defects of class [k] on the positions [start], ..., [end_ - 1]. *)
Definition class_total (roll_defects : gmap Z (gmap string Z)) (k : string)
    (start end_ : Z) : Z :=
  foldr (λ pos acc, class_count roll_defects k pos + acc) 0 (range start end_).

(** Every position from [start] to [end_ - 1] is in the table, with no class
    other than a, b and c. *)
Definition covered (roll_defects : gmap Z (gmap string Z)) (start end_ : Z)
    : Prop :=
  ∀ pos, start ≤ pos < end_ →
    ∃ here, roll_defects !! pos = Some here ∧ dom here ⊆ dom pos_defects0.

(** No count of the table is negative. *)
Definition counts_nonneg (roll_defects : gmap Z (gmap string Z)) : Prop :=
  ∀ pos here k n, roll_defects !! pos = Some here → here !! k = Some n → 0 ≤ n.

(** A roll of six positions with five defects of class a at position 0 and
    none elsewhere. *)
Definition sample_defects : gmap Z (gmap string Z) :=
  <[0 := thr 5 0 0]> (no_defects 6).

(** No biscuit of the catalogue costs more than one point per position
    that it takes. *)
Definition values_bounded (biscuits_list : gmap Z biscuit) : Prop :=
  ∀ e b, biscuits_list !! e = Some b → - Z.of_nat (size b) ≤ value b.

(** ** Chromosomes as runs *)

(** The chromosome made of the runs [(e, n)], [n] positions of type [e],
    one after the other. *)
Fixpoint expand (runs : list (Z * nat)) : list Z :=
  match runs with
  | [] => []
  | r :: rest => replicate r.2 r.1 ++ expand rest
  end.

(** The runs are maximal: none is empty and none has the type of the run
    before it ([prev] is the type before the first run, if any). *)
Fixpoint maximal (prev : option Z) (runs : list (Z * nat)) : Prop :=
  match runs with
  | [] => True
  | r :: rest => (1 ≤ r.2)%nat ∧ prev ≠ Some r.1 ∧ maximal (Some r.1) rest
  end.

(** The score of the runs that start at [start], run by run: a run of the
    empty type that is not the last one costs its length, every other run
    has the score of [get_slice_score]. *)
Fixpoint runs_score (biscuits_list : gmap Z biscuit)
    (roll_defects : gmap Z (gmap string Z)) (start : Z)
    (runs : list (Z * nat)) : result Qc :=
  match runs with
  | [] => Ok 0%Qc
  | r :: rest =>
      let end_ := start + Z.of_nat r.2 in
      match rest with
      | [] => run_score biscuits_list roll_defects end_ r.2 r.1
      | _ :: _ =>
          s ← (if bool_decide (r.1 = -1) then Ok (- Qc_of_Z (Z.of_nat r.2))%Qc
               else run_score biscuits_list roll_defects end_ r.2 r.1);
          t ← runs_score biscuits_list roll_defects end_ rest;
          Ok (s + t)%Qc
      end
  end.

(** [fitness_2] from the head of its loop at position [pos], with [l] still
    to read. *)
Definition fitness_2_from (biscuits_list : gmap Z biscuit)
    (roll_defects : gmap Z (gmap string Z)) (pos : Z) (l : list Z)
    (st : scan2) : result Qc :=
  st' ← fitness_2_loop biscuits_list roll_defects pos l st;
  last_score ← run_score biscuits_list roll_defects
                  (pos + Z.of_nat (length l)) (size2 st') (last_elem2 st');
  Ok (score2 st' + last_score)%Qc.

(** A failure [e] of the slice scorer on [u] comes from the defect test of a
    piece [s], ..., [t - 1] that lies in [u]. *)
Definition piece_failure (th : gmap string Z) (rd : gmap Z (gmap string Z))
    (u : list Z) (e : error) : Prop :=
  ∃ s t, s < t ∧ (∀ x, s ≤ x < t → x ∈ u) ∧ respect_defects th s t rd = Err e.

(** Every threshold mapping of the catalogue has the classes a, b and c. *)
Definition catalogue_complete (biscuits_list : gmap Z biscuit) : Prop :=
  ∀ e b k, biscuits_list !! e = Some b → k ∈ ["a"; "b"; "c"]%string →
           is_Some (threshold b !! k).

(** ** Shapes of chromosomes and of draws *)

(** The genes that [np.random.randint(-1, 4)] and [random.randint(-1, 3)]
    produce. *)
Definition gene_in_range (g : Z) : Prop := -1 ≤ g ≤ 3.

(** A chromosome of [L] genes in range. *)
Definition well_shaped (L : nat) (ind : list Z) : Prop :=
  length ind = L ∧ Forall gene_in_range ind.

(** The oracle of a generation draws its parents among [N] individuals and
    its genes in range. *)
Definition fair_draws (N : nat) (rnd : nat → child_draws) : Prop :=
  ∀ c, ((parents_indices (rnd c)).1 < N)%nat
       ∧ ((parents_indices (rnd c)).2 < N)%nat
       ∧ ∀ g, gene_in_range (random_gene (rnd c) g).

(** Gene [g] of [child] is gene [g] of one of the parents. *)
Definition from_parents (parent1 parent2 child : list Z) (g : nat) : Prop :=
  child !! g = parent1 !! g ∨ child !! g = parent2 !! g.

(** A table with one defect of class a at each of the positions 0 and 1. *)
Definition two_a_defects : gmap Z (gmap string Z) :=
  <[0 := thr 1 0 0]> (<[1 := thr 1 0 0]> ∅).

(** Five chromosomes of six positions with five different strict scores. *)
Definition five_population : list (list Z) :=
  [[0; 0; 0; 0; 2; 2]; [2; 2; 2; 2; 2; 2]; [0; 0; 0; 0; -1; -1];
   [2; 2; 2; 2; -1; -1]; [-1; -1; -1; -1; -1; -1]].

(** Three chromosomes of four positions with three different strict
    scores. *)
Definition three_population : list (list Z) :=
  [[2; 2; -1; -1]; [0; 0; 0; 0]; [-1; -1; -1; -1]].

(** The float that Python reads in the literal [0.6], and the float that
    [1 / 3] evaluates to. *)
Definition float_0_6 : Qc := round_float (Qc_of_Z 6 / Qc_of_Z 10).
Definition float_1_3 : Qc := round_float (Qc_of_Z 1 / Qc_of_Z 3).

(** A roll of 6 positions with five defects of class a at position 2. *)
Definition defects_at_2 : gmap Z (gmap string Z) :=
  <[2 := thr 5 0 0]> (no_defects 6).

(** ** Which key lookups fail *)

(** [all(threshold[key] >= pos_defects[key] for key in pos_defects.keys())]
    reaches a class that the threshold mapping has not: every class before
    it, in the order a, b, c, is in the mapping and within its threshold on
    the positions [start], ..., [end_ - 1]. *)
Definition missing_class_reached (threshold : gmap string Z)
    (roll_defects : gmap Z (gmap string Z)) (start end_ : Z) : Prop :=
  threshold !! "a"%string = None
  ∨ (∃ ta, threshold !! "a"%string = Some ta
           ∧ class_total roll_defects "a" start end_ ≤ ta
           ∧ threshold !! "b"%string = None)
  ∨ (∃ ta tb, threshold !! "a"%string = Some ta
              ∧ class_total roll_defects "a" start end_ ≤ ta
              ∧ threshold !! "b"%string = Some tb
              ∧ class_total roll_defects "b" start end_ ≤ tb
              ∧ threshold !! "c"%string = None).

(** A position of the range is not in the table or carries a class other
    than a, b, c, or a class that the threshold mapping has not is
    reached. *)
Definition lookup_fails (threshold : gmap string Z)
    (roll_defects : gmap Z (gmap string Z)) (start end_ : Z) : Prop :=
  ¬ covered roll_defects start end_
  ∨ missing_class_reached threshold roll_defects start end_.

(** Position [j] of the chromosome holds a non-empty type. *)
Definition holds_biscuit (ind : list Z) (j : nat) : Prop :=
  ∃ x, ind !! j = Some x ∧ x ≠ -1.

(** Position [j] is in the last run of the chromosome: every position from
    [j] on holds what [j] holds. *)
Definition in_last_run (ind : list Z) (j : nat) : Prop :=
  ∃ x, ind !! j = Some x
       ∧ ∀ j', (j ≤ j' < length ind)%nat → ind !! j' = Some x.

(** Two defect tables hold the same at the positions that satisfy [P]. *)
Definition same_on (P : nat → Prop) (rd rd' : gmap Z (gmap string Z)) : Prop :=
  ∀ j, P j → rd !! Z.of_nat j = rd' !! Z.of_nat j.

(** The [size] positions before position [k] all hold [x]. *)
Definition trailing_run (ind : list Z) (k size : nat) (x : Z) : Prop :=
  (size ≤ k)%nat ∧ ∀ j, (k - size ≤ j < k)%nat → ind !! j = Some x.

(** * Properties *)

(** Closed equations are settled by evaluation; two rationals are equal when
    their fractions are. *)
Ltac by_computation :=
  vm_compute;
  first [ reflexivity
        | f_equal; apply Qc_is_canon; reflexivity ].
(** ** The error monad *)

Lemma bind_Ok {A B} (f : A → result B) (a : A) : (Ok a ≫= f) = f a.
Proof. reflexivity. Qed.

Lemma bind_Err {A B} (f : A → result B) (e : error) : (Err e ≫= f) = Err e.
Proof. reflexivity. Qed.

Lemma bind_Ok_inv {A B} (f : A → result B) (m : result A) (b : B) :
  (m ≫= f) = Ok b → ∃ a, m = Ok a ∧ f a = Ok b.
Proof. destruct m as [a|e]; [eauto | discriminate]. Qed.

Lemma getitem_Some `{Countable K} {V} (d : gmap K V) k v :
  d !! k = Some v → getitem d k = Ok v.
Proof. unfold getitem. by intros ->. Qed.

Lemma getitem_None `{Countable K} {V} (d : gmap K V) k :
  d !! k = None → getitem d k = Err KeyError.
Proof. unfold getitem. by intros ->. Qed.

(** ** The strict evaluator on empty positions *)

Lemma fitness_1_step_empty bl rd i st :
  fitness_1_step bl rd i (-1) st
  = Ok (Scan1 (score1 st - (1 + Z.of_nat (size1 st))) 0 (-1)).
Proof. reflexivity. Qed.

Lemma fitness_1_loop_empty bl rd (n : nat) : ∀ i st,
  ∃ st', fitness_1_loop bl rd i (replicate n (-1)) st = Ok st'
         ∧ score1 st' - Z.of_nat (size1 st')
           = score1 st - Z.of_nat (size1 st) - Z.of_nat n.
Proof.
  induction n as [|n IH]; intros i st.
  - exists st. split; [reflexivity | simpl; lia].
  - cbn [replicate fitness_1_loop]. rewrite fitness_1_step_empty, bind_Ok.
    destruct (IH (i + 1) (Scan1 (score1 st - (1 + Z.of_nat (size1 st))) 0 (-1)))
      as (st' & -> & Hst').
    exists st'. split; [reflexivity|]. cbn [score1 size1] in Hst'. lia.
Qed.

(** C5: whatever the catalogue and the defect table, a chromosome of [n]
    positions that all hold the empty type [-1] gets the strict score [-n]. *)
Theorem fitness_1_all_empty (n : nat) (biscuits_list : gmap Z biscuit)
    (roll_defects : gmap Z (gmap string Z)) :
  fitness_1 (replicate n (-1)) biscuits_list roll_defects = Ok (- Z.of_nat n).
Proof.
  unfold fitness_1.
  destruct (fitness_1_loop_empty biscuits_list roll_defects n 0 (Scan1 0 0 (-2)))
    as (st' & -> & Hst').
  rewrite bind_Ok. f_equal. cbn [score1 size1] in Hst'. lia.
Qed.

(** ** Worked examples *)

Example fitness_1_ex :
  fitness_1 [0;0;0;0;-1;2;2;3] notebook_biscuits (no_defects 8) = Ok 2.
Proof. vm_compute. reflexivity. Qed.

Example fitness_2_ex :
  fitness_2 [0;0;0;-1;2;2;3] notebook_biscuits (no_defects 8)
  = Ok (Qc_of_Z 3 * (Qc_of_Z 3 / Qc_of_Z 4) ^ 2 - 1 + 1 + Qc_of_Z 8 * (1 / Qc_of_Z 5) ^ 2)%Qc.
Proof. vm_compute. reflexivity. Qed.

(** ** The scenario of the specification, strict evaluator *)

Lemma all_within_abc th ta tb tc :
  th !! "a"%string = Some ta → th !! "b"%string = Some tb →
  th !! "c"%string = Some tc → 0 ≤ ta → 0 ≤ tb → 0 ≤ tc →
  all_within th pos_defects0 ["a"; "b"; "c"]%string = Ok true.
Proof.
  intros Ha Hb Hc ???. cbn [all_within].
  rewrite (getitem_Some _ _ _ Ha), (getitem_Some _ _ _ Hb), (getitem_Some _ _ _ Hc).
  rewrite !bind_Ok.
  replace (getitem pos_defects0 "a"%string) with (Ok (A:=Z) 0) by reflexivity.
  replace (getitem pos_defects0 "b"%string) with (Ok (A:=Z) 0) by reflexivity.
  replace (getitem pos_defects0 "c"%string) with (Ok (A:=Z) 0) by reflexivity.
  rewrite !bind_Ok, !bool_decide_true by done. reflexivity.
Qed.

Lemma sum_defects_scenario :
  sum_defects (range 0 4) (no_defects 10) pos_defects0 = Ok pos_defects0.
Proof. vm_compute. reflexivity. Qed.

Lemma fitness_1_loop_app bl rd l1 : ∀ l2 i st,
  fitness_1_loop bl rd i (l1 ++ l2) st
  = (st' ← fitness_1_loop bl rd i l1 st;
     fitness_1_loop bl rd (i + Z.of_nat (length l1)) l2 st').
Proof.
  induction l1 as [|e l1 IH]; intros l2 i st.
  - cbn. by rewrite Z.add_0_r.
  - cbn [app fitness_1_loop length].
    destruct (fitness_1_step bl rd i e st) as [st1|err]; [|reflexivity].
    rewrite !bind_Ok, IH. do 2 f_equal. lia.
Qed.

(** The four positions of type 0: three turns that only lengthen the run,
    then the turn that tests the defects. *)
Lemma fitness_1_scenario_head th :
  fitness_1_loop (scenario_biscuits th) (no_defects 10) 0 [0; 0; 0; 0]
    (Scan1 0 0 (-2))
  = (ok ← respect_defects th 0 4 (no_defects 10);
     if (ok : bool) then Ok (Scan1 3 0 0) else Ok (Scan1 (-1) 3 0)).
Proof.
  cbn [fitness_1_loop].
  change (fitness_1_step (scenario_biscuits th) (no_defects 10) 0 0 (Scan1 0 0 (-2)))
    with (Ok (Scan1 0 1 0)).
  rewrite bind_Ok.
  change (fitness_1_step (scenario_biscuits th) (no_defects 10) (0 + 1) 0 (Scan1 0 1 0))
    with (Ok (Scan1 0 2 0)).
  rewrite bind_Ok.
  change (fitness_1_step (scenario_biscuits th) (no_defects 10) (0 + 1 + 1) 0 (Scan1 0 2 0))
    with (Ok (Scan1 0 3 0)).
  rewrite bind_Ok.
  change (fitness_1_step (scenario_biscuits th) (no_defects 10) (0 + 1 + 1 + 1) 0 (Scan1 0 3 0))
    with (ok ← respect_defects th 0 4 (no_defects 10);
          if (ok : bool) then Ok (Scan1 3 0 0) else Ok (Scan1 (-1) 3 0)).
  destruct (respect_defects th 0 4 (no_defects 10)) as [[]|]; reflexivity.
Qed.

Lemma fitness_1_scenario_split th :
  fitness_1 scenario_ind (scenario_biscuits th) (no_defects 10)
  = (st ← fitness_1_loop (scenario_biscuits th) (no_defects 10) 0 [0; 0; 0; 0]
            (Scan1 0 0 (-2));
     st' ← fitness_1_loop (scenario_biscuits th) (no_defects 10) 4
             (replicate 6 (-1)) st;
     Ok (score1 st' - Z.of_nat (size1 st'))).
Proof.
  unfold fitness_1.
  change scenario_ind with ([0; 0; 0; 0] ++ replicate 6 (-1)).
  rewrite fitness_1_loop_app.
  by destruct (fitness_1_loop _ _ 0 [0; 0; 0; 0] _).
Qed.

(** C4, as amended: with strip length 10, the catalogue
    [{-1: (1, -1, {}), 0: (4, 3, th)}] where the threshold mapping [th] of
    type 0 has an entry that is not negative for each of the classes a, b
    and c, and the all-zero defect table, the strict score of
    [[0,0,0,0,-1,-1,-1,-1,-1,-1]] is exactly -3. *)
Theorem fitness_1_scenario (th : gmap string Z) (ta tb tc : Z) :
  th !! "a"%string = Some ta → th !! "b"%string = Some tb →
  th !! "c"%string = Some tc → 0 ≤ ta → 0 ≤ tb → 0 ≤ tc →
  fitness_1 scenario_ind (scenario_biscuits th) (no_defects 10) = Ok (-3).
Proof.
  intros Ha Hb Hc Hta Htb Htc.
  rewrite fitness_1_scenario_split, fitness_1_scenario_head.
  unfold respect_defects. rewrite sum_defects_scenario, bind_Ok.
  rewrite (all_within_abc th ta tb tc) by done. rewrite !bind_Ok.
  destruct (fitness_1_loop_empty (scenario_biscuits th) (no_defects 10) 6 4
              (Scan1 3 0 0)) as (st' & -> & Hst').
  rewrite bind_Ok. f_equal. cbn [score1 size1] in Hst'. lia.
Qed.

Lemma fitness_1_scenario_witness :
  fitness_1 scenario_ind (scenario_biscuits (thr 9 9 9)) (no_defects 10) = Ok (-3).
Proof.
  apply (fitness_1_scenario (thr 9 9 9) 9 9 9); first [reflexivity | lia].
Defined.

(** C4, as written: the threshold mapping [{a: 9}] of type 0 has no entry
    for the classes b and c, and the completed run of type 0 makes
    [respect_defects] look them up; this holds for the table that maps every
    position to zero counts and for the one that lists no class at all. *)
Lemma fitness_1_scenario_as_written :
  fitness_1 scenario_ind (scenario_biscuits {["a"%string := 9]}) (no_defects 10)
    = Err KeyError
  ∧ fitness_1 scenario_ind (scenario_biscuits {["a"%string := 9]}) (bare_defects 10)
    = Err KeyError
  ∧ fitness_1 scenario_ind (scenario_biscuits {["a"%string := 9]}) (no_defects 10)
    ≠ Ok (-3).
Proof.
  assert (H1 : fitness_1 scenario_ind (scenario_biscuits {["a"%string := 9]})
                 (no_defects 10) = Err KeyError) by (vm_compute; reflexivity).
  split; [exact H1|]. split; [vm_compute; reflexivity|].
  rewrite H1. discriminate.
Qed.

(** ** The slice scorer on a run shorter than its biscuit *)

Lemma remove_assigned_self (l : list Z) : remove_assigned l l = Ok [].
Proof.
  induction l as [|x l IH]; [reflexivity|].
  cbn [remove_assigned list_remove]. by rewrite bool_decide_true, bind_Ok.
Qed.

Lemma forallb_elem_of_self (l : list Z) :
  forallb (λ elem, bool_decide (elem ∈ l)) l = true.
Proof.
  apply forallb_forall. intros x Hx.
  apply bool_decide_eq_true, list_elem_of_In, Hx.
Qed.

Lemma slice_loop_nil last_size lb_size lb_value th rd score :
  slice_loop last_size lb_size lb_value th rd [] score = Ok (score, []).
Proof. by destruct last_size. Qed.

Lemma range_length start end_ : length (range start end_) = Z.to_nat (end_ - start).
Proof. apply length_seqZ. Qed.

Lemma range_cons start end_ :
  start < end_ → range start end_ = start :: range (start + 1) end_.
Proof.
  intros. unfold range. rewrite seqZ_cons by lia. do 2 f_equal; lia.
Qed.

Lemma Qc_of_Z_pos (n : Z) : 0 < n → (0 < Qc_of_Z n)%Qc.
Proof. intros Hn. rewrite <- Z2Qc_inj_0. apply (proj1 (Z2Qc_inj_lt 0 n) Hn). Qed.

Lemma slice_value_pos (last_size lb_size : nat) (lb_value : Z) :
  (0 < last_size)%nat → (0 < lb_size)%nat → 0 < lb_value →
  (0 < slice_value last_size lb_size lb_value)%Qc.
Proof.
  intros Hl Hs Hv. unfold slice_value.
  assert (Hq : (0 < Qc_of_Z (Z.of_nat last_size) / Qc_of_Z (Z.of_nat lb_size))%Qc).
  { apply Qcmult_pos_pos; [|apply Qcinv_pos]; apply Qc_of_Z_pos; lia. }
  apply Qcmult_pos_pos.
  - cbn [Qcpower]. rewrite Qcmult_1_r. by apply Qcmult_pos_pos.
  - by apply Qc_of_Z_pos.
Qed.

(** A whole run that passes the defect test is taken in one piece by the
    first pass. *)
Lemma slice_pass_whole (u : list Z) (start : Z) (n lb_size : nat) lb_value th rd :
  u = range start (start + Z.of_nat (S n)) →
  respect_defects th start (start + Z.of_nat (S n)) rd = Ok true →
  slice_pass (length u) u (S n) lb_size lb_value th rd 0 0%Qc []
  = Ok (slice_value (S n) lb_size lb_value, u).
Proof.
  intros Hu Hok.
  assert (Hlen : length u = S n).
  { rewrite Hu, range_length. lia. }
  assert (Hhd : index u 0 = Ok start).
  { rewrite Hu, range_cons by lia. reflexivity. }
  rewrite Hlen. cbn [slice_pass].
  rewrite bool_decide_true by lia.
  rewrite Hhd, bind_Ok. rewrite <- Hu, forallb_elem_of_self, Hok, bind_Ok.
  destruct n as [|n]; cbn [slice_pass].
  - rewrite bool_decide_false by lia. f_equal. f_equal. apply Qcplus_0_l.
  - rewrite bool_decide_false by lia. f_equal. f_equal. apply Qcplus_0_l.
Qed.

(** C6: for a run of [L] positions of one non-empty type whose biscuit needs
    [R > L] positions, when the whole run passes the defect test,
    [get_slice_score] returns exactly [value * (L/R)^2]; and this
    contribution is strictly positive when the value is. *)
Theorem get_slice_score_short_run (position : Z) (L R : nat) (lb_value : Z)
    (lb_threshold : gmap string Z) (roll_defects : gmap Z (gmap string Z)) :
  (1 ≤ L)%nat → (L < R)%nat →
  respect_defects lb_threshold (position - Z.of_nat L) position roll_defects
    = Ok true →
  get_slice_score position L R lb_value lb_threshold roll_defects
    = Ok (Qc_of_Z lb_value
          * (Qc_of_Z (Z.of_nat L) / Qc_of_Z (Z.of_nat R)) ^ 2)%Qc
  ∧ (0 < lb_value →
     ∃ s, get_slice_score position L R lb_value lb_threshold roll_defects = Ok s
          ∧ (0 < s)%Qc).
Proof.
  intros HL HLR Hok.
  assert (Hget : get_slice_score position L R lb_value lb_threshold roll_defects
                 = Ok (slice_value L R lb_value)).
  { unfold get_slice_score. rewrite Nat.min_r by lia.
    destruct L as [|n]; [lia|].
    set (start := position - Z.of_nat (S n)) in *.
    replace position with (start + Z.of_nat (S n)) in * by (unfold start; lia).
    remember (range start (start + Z.of_nat (S n))) as u eqn:Hu.
    assert (Hne : u ≠ []).
    { rewrite Hu, range_cons by lia. discriminate. }
    destruct u as [|x u']; [done|]. cbn [slice_loop].
    rewrite (slice_pass_whole (x :: u') start n R lb_value lb_threshold
               roll_defects Hu Hok).
    rewrite bind_Ok. cbn [fst snd].
    rewrite remove_assigned_self, bind_Ok, slice_loop_nil, bind_Ok.
    cbn [fst snd length Z.of_nat]. f_equal. change (Z.of_nat 0) with 0. rewrite Z2Qc_inj_0. ring. }
  split.
  - rewrite Hget. f_equal. unfold slice_value. ring.
  - intros Hv. exists (slice_value L R lb_value). split; [done|].
    apply slice_value_pos; [lia..|done].
Qed.

Lemma get_slice_score_short_run_witness :
  get_slice_score 3 3 4 3 (thr 4 2 3) (no_defects 10)
    = Ok (Qc_of_Z 3 * (Qc_of_Z (Z.of_nat 3) / Qc_of_Z (Z.of_nat 4)) ^ 2)%Qc
  ∧ (0 < 3 →
     ∃ s, get_slice_score 3 3 4 3 (thr 4 2 3) (no_defects 10) = Ok s
          ∧ (0 < s)%Qc).
Proof.
  apply (get_slice_score_short_run 3 3 4 3 (thr 4 2 3) (no_defects 10)).
  - lia.
  - lia.
  - vm_compute. reflexivity.
Defined.

(** ** Key lookups of [respect_defects] *)

Lemma add_defect_foldr (l : list (string * Z)) (pd : gmap string Z) :
  match foldr (uncurry add_defect) (Ok pd) l with
  | Ok pd' => dom pd' = dom pd ∧ ∀ k n, (k, n) ∈ l → k ∈ dom pd
  | Err e => e = KeyError
  end.
Proof.
  induction l as [|[k n] l IH]; cbn [foldr uncurry].
  - split; [done|]. intros k n Hk. by apply elem_of_nil in Hk.
  - destruct (foldr (uncurry add_defect) (Ok pd) l) as [pd1|e]; [|done].
    destruct IH as [Hdom Hl]. unfold add_defect. rewrite bind_Ok.
    unfold getitem. destruct (pd1 !! k) as [v|] eqn:Hk; [|done].
    rewrite bind_Ok.
    assert (Hin : k ∈ dom pd) by (rewrite <- Hdom; apply elem_of_dom; eauto).
    split.
    + rewrite dom_insert_L, Hdom.
      by apply subseteq_union_1_L, singleton_subseteq_l.
    + intros k' n' [[= -> ->]|Hk']%elem_of_cons; eauto.
Qed.

Lemma add_pos_defects_spec (here pd : gmap string Z) :
  match add_pos_defects here pd with
  | Ok pd' => dom pd' = dom pd ∧ dom here ⊆ dom pd
  | Err e => e = KeyError
  end.
Proof.
  unfold add_pos_defects. rewrite map_fold_foldr.
  pose proof (add_defect_foldr (map_to_list here) pd) as H.
  destruct (foldr (uncurry add_defect) (Ok pd) (map_to_list here)) as [pd'|e];
    [|done].
  destruct H as [Hdom Hl]. split; [done|].
  intros k [n Hk]%elem_of_dom. apply (Hl k n), elem_of_map_to_list, Hk.
Qed.

Lemma sum_defects_spec (rd : gmap Z (gmap string Z)) (l : list Z) : ∀ pd,
  match sum_defects l rd pd with
  | Ok pd' => dom pd' = dom pd
              ∧ ∀ pos, pos ∈ l → ∃ here, rd !! pos = Some here ∧ dom here ⊆ dom pd
  | Err e => e = KeyError
  end.
Proof.
  induction l as [|pos l IH]; intros pd; cbn [sum_defects].
  - split; [done|]. intros pos Hpos. by apply elem_of_nil in Hpos.
  - unfold getitem. destruct (rd !! pos) as [here|] eqn:Hpos; [|done].
    rewrite bind_Ok. pose proof (add_pos_defects_spec here pd) as Hadd.
    destruct (add_pos_defects here pd) as [pd1|e]; [|done].
    destruct Hadd as [Hdom1 Hsub]. rewrite bind_Ok.
    specialize (IH pd1). destruct (sum_defects l rd pd1) as [pd'|e]; [|done].
    destruct IH as [Hdom' Hl]. split; [congruence|].
    intros pos' [->|Hin]%elem_of_cons; [eauto|].
    destruct (Hl pos' Hin) as (here' & ? & ?). exists here'.
    split; [done|]. by rewrite <- Hdom1.
Qed.

Lemma all_within_error th pd keys e : all_within th pd keys = Err e → e = KeyError.
Proof.
  induction keys as [|k keys IH]; cbn [all_within]; [done|].
  unfold getitem. destruct (th !! k); [|by intros [= <-]].
  destruct (pd !! k); [|by intros [= <-]].
  rewrite !bind_Ok. by case_bool_decide.
Qed.

(** Every failure of [respect_defects] is a key lookup. *)
Lemma respect_defects_error th start end_ rd e :
  respect_defects th start end_ rd = Err e → e = KeyError.
Proof.
  unfold respect_defects.
  pose proof (sum_defects_spec rd (range start end_) pos_defects0) as H.
  destruct (sum_defects _ rd pos_defects0) as [pd|e']; [|by intros [= <-]].
  rewrite bind_Ok. apply all_within_error.
Qed.

Lemma dom_pos_defects0 (k : string) :
  k ∈ dom pos_defects0 → k ∈ ["a"; "b"; "c"]%string.
Proof.
  unfold pos_defects0. rewrite !dom_insert_L, dom_empty_L. set_solver.
Qed.

(** A class other than a, b, c at a scanned position. *)
Lemma respect_defects_bad_class th start end_ rd pos here k :
  start ≤ pos < end_ → rd !! pos = Some here → is_Some (here !! k) →
  k ∉ ["a"; "b"; "c"]%string →
  respect_defects th start end_ rd = Err KeyError.
Proof.
  intros Hpos Hhere Hk Hbad. unfold respect_defects.
  pose proof (sum_defects_spec rd (range start end_) pos_defects0) as H.
  destruct (sum_defects _ rd pos_defects0) as [pd|e]; [|by subst].
  destruct H as [_ Hl]. destruct (Hl pos) as (here' & Hhere' & Hsub).
  { apply elem_of_seqZ. lia. }
  assert (here' = here) as -> by congruence.
  destruct Hbad. apply dom_pos_defects0, Hsub, elem_of_dom, Hk.
Qed.

(** A threshold mapping without the class a. *)
Lemma respect_defects_missing_a th start end_ rd :
  th !! "a"%string = None → respect_defects th start end_ rd = Err KeyError.
Proof.
  intros Ha. unfold respect_defects.
  pose proof (sum_defects_spec rd (range start end_) pos_defects0) as H.
  destruct (sum_defects _ rd pos_defects0) as [pd|e]; [|by subst].
  rewrite bind_Ok. cbn [all_within]. by rewrite (getitem_None _ _ Ha).
Qed.

(** A threshold mapping without one of the classes is never respected:
    the lookup fails, unless an earlier class already exceeds its threshold
    and [all] stops there. *)
Lemma respect_defects_missing th start end_ rd k :
  k ∈ ["a"; "b"; "c"]%string → th !! k = None →
  respect_defects th start end_ rd = Err KeyError
  ∨ respect_defects th start end_ rd = Ok false.
Proof.
  intros Hk Hth. unfold respect_defects.
  pose proof (sum_defects_spec rd (range start end_) pos_defects0) as H.
  destruct (sum_defects _ rd pos_defects0) as [pd|e]; [|left; by subst].
  rewrite bind_Ok. cbn [all_within]. unfold getitem.
  destruct (th !! "a"%string) as [ta|] eqn:Ha; [|by left].
  destruct (pd !! "a"%string); [|by left]. rewrite !bind_Ok.
  case_bool_decide; [|by right].
  destruct (th !! "b"%string) as [tb|] eqn:Hb; [|by left].
  destruct (pd !! "b"%string); [|by left]. rewrite !bind_Ok.
  case_bool_decide; [|by right].
  destruct (th !! "c"%string) as [tc|] eqn:Hc; [|by left].
  exfalso.
  repeat (apply elem_of_cons in Hk as [->|Hk]; [congruence|]).
  by apply elem_of_nil in Hk.
Qed.

(** ** The evaluators on a leading run *)

Lemma fitness_2_loop_app bl rd l1 : ∀ l2 i st,
  fitness_2_loop bl rd i (l1 ++ l2) st
  = (st' ← fitness_2_loop bl rd i l1 st;
     fitness_2_loop bl rd (i + Z.of_nat (length l1)) l2 st').
Proof.
  induction l1 as [|e l1 IH]; intros l2 i st.
  - cbn. by rewrite Z.add_0_r.
  - cbn [app fitness_2_loop length].
    destruct (fitness_2_step bl rd i e st) as [st1|err]; [|reflexivity].
    rewrite !bind_Ok, IH. do 2 f_equal. lia.
Qed.

Lemma forallb_range_sub (start : Z) (n : nat) (u : list Z) m :
  u = range start (start + Z.of_nat m) → (n ≤ m)%nat →
  forallb (λ elem, bool_decide (elem ∈ u)) (range start (start + Z.of_nat n))
  = true.
Proof.
  intros -> Hn. apply forallb_forall. intros x Hx%list_elem_of_In.
  apply bool_decide_eq_true. apply elem_of_seqZ in Hx. apply elem_of_seqZ. lia.
Qed.

(** The slice scorer first tests the leftmost piece of the largest size, and
    a failure of that test is its result. *)
Lemma get_slice_score_first_error position (L R : nat) v th rd err :
  (1 ≤ R ≤ L)%nat →
  respect_defects th (position - Z.of_nat L) (position - Z.of_nat L + Z.of_nat R) rd
    = Err err →
  get_slice_score position L R v th rd = Err err.
Proof.
  intros [HR HL] Herr. unfold get_slice_score. rewrite Nat.min_l by lia.
  set (start := position - Z.of_nat L) in *.
  replace position with (start + Z.of_nat L) by (unfold start; lia).
  remember (range start (start + Z.of_nat L)) as u eqn:Hu.
  assert (Hlen : length u = L) by (rewrite Hu, range_length; lia).
  assert (Hhd : index u 0 = Ok start).
  { rewrite Hu, range_cons by lia. reflexivity. }
  destruct R as [|r]; [lia|]. destruct u as [|x u']; [cbn in Hlen; lia|].
  cbn [slice_loop]. rewrite Hlen. destruct L as [|l]; [lia|].
  cbn [slice_pass]. rewrite bool_decide_true by lia.
  rewrite Hhd, bind_Ok.
  rewrite (forallb_range_sub start (S r) (x :: u') (S l) Hu) by lia.
  by rewrite Herr.
Qed.

Section leading_run.
(** A chromosome that starts with [L] positions of the non-empty type [e],
    whose biscuit is [b]. *)
Context (bl : gmap Z biscuit) (rd : gmap Z (gmap string Z)).
Context (e : Z) (b : biscuit).
Hypothesis He : e ≠ -1.
Hypothesis Hb : bl !! e = Some b.

Lemma fitness_1_step_run i st :
  last_elem1 st = e ∨ size1 st = 0%nat →
  fitness_1_step bl rd i e st
  = if bool_decide (S (size1 st) = size b) then
      ok ← respect_defects (threshold b) (i - Z.of_nat (S (size1 st)) + 1)
             (i + 1) rd;
      if (ok : bool) then Ok (Scan1 (score1 st + value b) 0 e)
      else Ok (Scan1 (score1 st - 1) (size1 st) e)
    else Ok (Scan1 (score1 st) (S (size1 st)) e).
Proof.
  intros Hst. unfold fitness_1_step.
  rewrite (bool_decide_false (e = -1)) by done.
  rewrite (getitem_Some _ _ _ Hb), bind_Ok.
  destruct (decide (e ≠ last_elem1 st)) as [Hlast|Hlast].
  - rewrite !(bool_decide_true (e ≠ last_elem1 st)) by done.
    destruct Hst as [Hst|Hst]; [congruence|]. rewrite Hst.
    rewrite Z.sub_0_r. reflexivity.
  - rewrite !(bool_decide_false (e ≠ last_elem1 st)) by done. reflexivity.
Qed.

(** Below the size of the biscuit the run only grows. *)
Lemma fitness_1_loop_run (n : nat) : ∀ i st,
  last_elem1 st = e ∨ size1 st = 0%nat →
  (size1 st + n < size b)%nat →
  ∃ st', fitness_1_loop bl rd i (replicate n e) st = Ok st'
         ∧ score1 st' = score1 st ∧ size1 st' = (size1 st + n)%nat
         ∧ (last_elem1 st' = e ∨ size1 st' = 0%nat).
Proof.
  induction n as [|n IH]; intros i st Hst Hn.
  - exists st. repeat split; [lia|done].
  - cbn [replicate fitness_1_loop].
    rewrite (fitness_1_step_run i st Hst).
    rewrite bool_decide_false by lia. rewrite bind_Ok.
    destruct (IH (i + 1) (Scan1 (score1 st) (S (size1 st)) e))
      as (st' & Hloop & Hscore & Hsize & Hlast); cbn [size1 last_elem1];
      [by left|lia|].
    exists st'. repeat split; [done|done|cbn [size1] in Hsize; lia|done].
Qed.

(** The strict evaluator tests a leading run as soon as it reaches the size
    of its biscuit, and a failure of that test is its result. *)
Lemma fitness_1_leading_run_error (L : nat) rest err :
  (1 ≤ size b ≤ L)%nat →
  respect_defects (threshold b) 0 (Z.of_nat (size b)) rd = Err err →
  fitness_1 (replicate L e ++ rest) bl rd = Err err.
Proof.
  intros [HR HL] Herr. unfold fitness_1.
  replace L with ((size b - 1) + S (L - size b))%nat by lia.
  rewrite replicate_add, <- app_assoc, fitness_1_loop_app.
  destruct (fitness_1_loop_run (size b - 1) 0 (Scan1 0 0 (-2)))
    as (st' & -> & Hscore & Hsize & Hlast); cbn [size1]; [by right|lia|].
  rewrite bind_Ok. cbn [replicate app fitness_1_loop].
  rewrite (fitness_1_step_run _ st' Hlast).
  rewrite bool_decide_true by (cbn [size1] in Hsize; lia).
  rewrite length_replicate.
  replace (0 + Z.of_nat (size b - 1) - Z.of_nat (S (size1 st')) + 1) with 0
    by (cbn [size1] in Hsize; lia).
  replace (0 + Z.of_nat (size b - 1) + 1) with (Z.of_nat (size b)) by lia.
  by rewrite Herr.
Qed.

Lemma fitness_2_loop_run (n : nat) : ∀ i score sz,
  fitness_2_loop bl rd i (replicate n e) (Scan2 score sz e)
  = Ok (Scan2 score (sz + n) e).
Proof.
  induction n as [|n IH]; intros i score sz.
  - cbn. by rewrite Nat.add_0_r.
  - cbn [replicate fitness_2_loop]. unfold fitness_2_step at 1.
    cbn [last_elem2 score2 size2]. rewrite bool_decide_true by done.
    rewrite bind_Ok, IH. do 2 f_equal. lia.
Qed.

(** The partial-credit evaluator scores the leading run when it ends, and
    starts with the same test. *)
Lemma fitness_2_leading_run_error (L : nat) rest err :
  (1 ≤ size b ≤ L)%nat → head rest ≠ Some e →
  respect_defects (threshold b) 0 (Z.of_nat (size b)) rd = Err err →
  fitness_2 (replicate L e ++ rest) bl rd = Err err.
Proof.
  intros [HR HL] Hrest Herr. unfold fitness_2.
  assert (Hrun : run_score bl rd (Z.of_nat L) L e = Err err).
  { unfold run_score. rewrite (getitem_Some _ _ _ Hb), bind_Ok.
    apply get_slice_score_first_error; [lia|].
    by replace (Z.of_nat L - Z.of_nat L) with 0 by lia. }
  assert (Hfirst : index (replicate L e ++ rest) 0 = Ok e).
  { destruct L as [|l]; [lia|]. reflexivity. }
  rewrite Hfirst, bind_Ok, fitness_2_loop_app, fitness_2_loop_run, bind_Ok.
  rewrite length_replicate, !Z.add_0_l, Nat.add_0_l.
  destruct rest as [|x rest]; cbn [fitness_2_loop].
  - rewrite bind_Ok. cbn [length last_elem2 size2 app].
    rewrite app_nil_r, length_replicate. by rewrite Hrun.
  - unfold fitness_2_step at 1. cbn [last_elem2 size2 score2].
    rewrite bool_decide_false by (intros ->; by apply Hrest).
    rewrite bool_decide_false by done. by rewrite Hrun.
Qed.

End leading_run.

(** ** Which key lookups fail *)


(** ** Cross over *)

Lemma slice_length {A} (l : list A) start end_ :
  length (slice l start end_) = Nat.min (end_ - start) (length l - start).
Proof. unfold slice. by rewrite length_take, length_drop. Qed.


Lemma set_slice_splice (child q : list Z) (start end_ : nat) :
  length child = length q →
  set_slice child start end_ (slice q start end_) = Ok (splice child q start end_).
Proof.
  intros Hlen. unfold set_slice, splice.
  rewrite bool_decide_true by (rewrite !slice_length; lia).
  by rewrite !slice_length, Hlen.
Qed.

Lemma splice_length (child q : list Z) (start end_ : nat) :
  length child = length q → length (splice child q start end_) = length child.
Proof.
  intros Hlen. unfold splice.
  rewrite !length_app, length_take, length_drop, slice_length. lia.
Qed.

(** A child that agrees with [p] before [start] agrees with it before
    [end_] once the slice is written. *)
Lemma splice_prefix (child p : list Z) (start end_ : nat) :
  length child = length p → take start child = take start p →
  take end_ (splice child p start end_) = take end_ p.
Proof.
  intros Hlen Hpre. unfold splice. rewrite slice_length, Hpre. unfold slice.
  destruct (decide (end_ ≤ start)%nat) as [Hle|Hlt].
  - replace (end_ - start)%nat with 0%nat by lia.
    rewrite take_0, Nat.min_0_l, Nat.add_0_r, app_nil_l, <- Hpre, take_drop.
    assert (Hmin : end_ = Nat.min end_ start) by lia.
    rewrite Hmin, <- !take_take. by rewrite Hpre.
  - rewrite app_assoc, take_take_drop.
    replace (start + (end_ - start))%nat with end_ by lia.
    destruct (decide (end_ ≤ length p)%nat) as [Hin|Hout].
    + apply take_app_length'. rewrite length_take. lia.
    + rewrite (take_ge p end_) by lia.
      rewrite (drop_ge child) by lia. rewrite app_nil_r. apply take_ge. lia.
Qed.

Lemma splice_fixed (p : list Z) (start end_ : nat) : splice p p start end_ = p.
Proof.
  unfold splice. rewrite slice_length. unfold slice.
  rewrite <- drop_drop.
  assert (Hdrop : drop (Nat.min (end_ - start) (length p - start)) (drop start p)
                  = drop (end_ - start) (drop start p)).
  { destruct (decide (end_ - start ≤ length p - start)%nat).
    - by rewrite Nat.min_l by lia.
    - rewrite Nat.min_r by lia.
      rewrite !(drop_ge (drop start p)) by (rewrite length_drop; lia). done. }
  by rewrite Hdrop, take_drop, take_drop.
Qed.

Lemma crossover_loop_cons p1 p2 coin i start end_ rest child :
  crossover_loop p1 p2 coin i (start :: end_ :: rest) child
  = (child' ← set_slice child start end_
                (slice (if bool_decide (coin i < 1 / 2)%Qc then p1 else p2)
                   start end_);
     crossover_loop p1 p2 coin (S i) (end_ :: rest) child').
Proof. reflexivity. Qed.

(** With one parent on both sides, the loop only ever copies [p] over a
    child that agrees with [p] up to the current break point; the break
    point [length p] makes the child [p], and it stays [p]. *)
Lemma crossover_loop_fixed (p : list Z) (coin : nat → Qc) (bps : list nat) :
  ∀ i, crossover_loop p p coin i bps p = Ok p.
Proof.
  induction bps as [|start bps IH]; intros i; [done|].
  destruct bps as [|end_ rest]; [done|]. rewrite crossover_loop_cons.
  replace (if bool_decide (coin i < 1 / 2)%Qc then p else p) with p
    by (by destruct (bool_decide _)).
  rewrite set_slice_splice, bind_Ok, splice_fixed by done. apply IH.
Qed.

Lemma crossover_loop_same (p : list Z) (coin : nat → Qc) (bps : list nat) :
  ∀ i child start,
    head bps = Some start → length p ∈ bps →
    length child = length p → take start child = take start p →
    crossover_loop p p coin i bps child = Ok p.
Proof.
  induction bps as [|b bps IH]; intros i child start Hhd Hin Hlen Hpre;
    [done|].
  injection Hhd as ->.
  assert (Hfull : start = length p → child = p).
  { intros ->. by rewrite <- (take_ge child (length p)), Hpre, take_ge by lia. }
  destruct bps as [|end_ rest].
  - apply list_elem_of_singleton in Hin. cbn. f_equal. by apply Hfull.
  - rewrite crossover_loop_cons.
    replace (if bool_decide (coin i < 1 / 2)%Qc then p else p) with p
      by (by destruct (bool_decide _)).
    rewrite set_slice_splice, bind_Ok by done.
    apply elem_of_cons in Hin as [Heq|Hin].
    + rewrite (Hfull (eq_sym Heq)), splice_fixed. apply crossover_loop_fixed.
    + apply (IH _ _ end_); [done|done|by rewrite splice_length|].
      by apply splice_prefix.
Qed.

Lemma elem_of_insert_sorted (x y : nat) (l : list nat) :
  x ∈ insert_sorted y l ↔ x = y ∨ x ∈ l.
Proof.
  induction l as [|z l IH]; cbn [insert_sorted].
  - rewrite list_elem_of_singleton, elem_of_nil. tauto.
  - case_bool_decide; rewrite !elem_of_cons; [tauto|]. rewrite IH. tauto.
Qed.

Lemma elem_of_sort (x : nat) (l : list nat) : x ∈ sort l ↔ x ∈ l.
Proof.
  induction l as [|y l IH]; [done|].
  cbn [sort foldr]. fold (sort l).
  by rewrite elem_of_insert_sorted, elem_of_cons, IH.
Qed.

Lemma head_insert_sorted_0 (x : nat) (l : list nat) :
  head l = Some 0%nat → head (insert_sorted x l) = Some 0%nat.
Proof.
  destruct l as [|y l]; [done|]. intros [= ->]. cbn [insert_sorted].
  case_bool_decide; [|done]. cbn. f_equal. lia.
Qed.

Lemma head_sort_0 (l : list nat) : 0%nat ∈ l → head (sort l) = Some 0%nat.
Proof.
  induction l as [|y l IH]; [by intros ?%elem_of_nil|].
  cbn [sort foldr]. fold (sort l). intros [<-|Hin]%elem_of_cons.
  - destruct (sort l); cbn [insert_sorted]; [done|].
    by rewrite bool_decide_true by lia.
  - by apply head_insert_sorted_0, IH.
Qed.

(** C7: when both parents are the same chromosome, the child of the cross
    over is that chromosome, whatever the three break points and whatever
    the draws that choose a parent for each segment. *)
Theorem crossover_identical_parents (parent : list Z) (bp : nat * nat * nat)
    (coin : nat → Qc) :
  crossover parent parent bp coin = Ok parent.
Proof.
  unfold crossover.
  apply (crossover_loop_same parent coin _ 0%nat _ 0%nat).
  - apply head_sort_0. apply elem_of_cons. by left.
  - apply elem_of_sort. apply elem_of_cons. right. apply elem_of_cons. by left.
  - apply length_replicate.
  - by rewrite !take_0.
Qed.

(** ** Mutation *)

Lemma mutation_length rate draw new_gene child :
  length (mutation rate draw new_gene child) = length child.
Proof. apply length_imap. Qed.

(** A gene survives exactly when its draw is above the rate. *)
Lemma mutation_lookup rate draw new_gene child g gene :
  child !! g = Some gene →
  mutation rate draw new_gene child !! g
  = Some (if bool_decide (rate < draw g)%Qc then gene else new_gene g).
Proof. intros Hg. unfold mutation. by rewrite list_lookup_imap, Hg. Qed.

(** With rate 0 the genes whose draws are positive are kept. *)
Lemma mutation_rate_0_positive_draws draw new_gene child :
  (∀ g, (0 < draw g)%Qc) → mutation 0%Qc draw new_gene child = child.
Proof.
  intros Hdraw. apply list_eq. intros g. unfold mutation.
  rewrite list_lookup_imap. destruct (child !! g) as [gene|]; [|done].
  cbn. by rewrite bool_decide_true.
Qed.

(** C8: [random.random()] ranges over [0.0, 1.0), and the draw [0.0] is not
    above the rate 0: the gene is replaced by the outcome of
    [random.randint(-1, 3)]. *)
Theorem mutation_rate_0_changes_gene :
  mutation 0%Qc (λ _, 0%Qc) (λ _, 3) [0] = [3]
  ∧ mutation 0%Qc (λ _, 0%Qc) (λ _, 3) [0] ≠ [0].
Proof. split; [reflexivity|discriminate]. Qed.

(** ** [argsort] *)


Lemma key_le_trans fv i j k : key_le fv i j → key_le fv j k → key_le fv i k.
Proof. unfold key_le. apply Qcle_trans. Qed.

Lemma key_le_total fv i j : key_le fv i j ∨ key_le fv j i.
Proof. unfold key_le. apply (total Qcle). Qed.

Lemma insert_by_Permutation fv i l : insert_by fv i l ≡ₚ i :: l.
Proof.
  induction l as [|j l IH]; cbn [insert_by]; [done|].
  case_bool_decide; [done|]. by rewrite IH, Permutation_swap.
Qed.

Lemma insertion_argsort_Permutation fv :
  insertion_argsort fv ≡ₚ seq 0 (length fv).
Proof.
  unfold insertion_argsort. induction (seq 0 (length fv)) as [|i l IH]; [done|].
  cbn [foldr]. by rewrite insert_by_Permutation, IH.
Qed.

Lemma insert_by_sorted fv i l :
  StronglySorted (key_le fv) l → StronglySorted (key_le fv) (insert_by fv i l).
Proof.
  induction 1 as [|j l Hl IH Hj]; cbn [insert_by].
  - repeat constructor.
  - case_bool_decide as Hij.
    + constructor; [by constructor|]. constructor; [done|].
      eapply Forall_impl; [exact Hj|]. intros k Hk.
      by apply (key_le_trans fv i j k).
    + constructor; [done|]. rewrite insert_by_Permutation.
      constructor; [|done]. by destruct (key_le_total fv i j).
Qed.

Lemma insertion_argsort_sorted fv :
  StronglySorted (key_le fv) (insertion_argsort fv).
Proof.
  unfold insertion_argsort.
  induction (seq 0 (length fv)) as [|i l IH]; cbn [foldr].
  - constructor.
  - by apply insert_by_sorted.
Qed.

(** The insertion sort meets the contract of [np.argsort]. *)
#[global] Instance insertion_argsort_sorts : ArgsortSorts insertion_argsort.
Proof.
  split; [apply insertion_argsort_Permutation|apply insertion_argsort_sorted].
Qed.

Lemma argsort_length `{Hnp : !ArgsortSorts np}
    fv : length (argsort fv) = length fv.
Proof. by rewrite argsort_Permutation, length_seq. Qed.

Lemma elem_of_argsort `{Hnp : !ArgsortSorts np}
    fv i : i ∈ argsort fv ↔ (i < length fv)%nat.
Proof. rewrite argsort_Permutation, elem_of_seq. lia. Qed.

(** ** Slices of the sorted indices *)

Lemma slice_from_drop {A} (k : Z) (l : list A) :
  ∃ n, slice_from k l = drop n l
       ∧ n = if bool_decide (0 ≤ k) then Z.to_nat k
             else (length l - Z.to_nat (- k))%nat.
Proof. unfold slice_from. case_bool_decide; eauto. Qed.

Lemma slice_from_length_le {A} (k : Z) (l : list A) :
  (length (slice_from k l) ≤ length l)%nat.
Proof.
  destruct (slice_from_drop k l) as (n & -> & _). rewrite length_drop. lia.
Qed.

Lemma elem_of_slice_from {A} (k : Z) (l : list A) x :
  x ∈ slice_from k l → x ∈ l.
Proof.
  destruct (slice_from_drop k l) as (n & -> & _).
  rewrite <- (take_drop n l) at 2. rewrite elem_of_app. auto.
Qed.

Lemma slice_from_nonpos_length {A} (k : Z) (l : list A) :
  k ≤ 0 → l ≠ [] → (1 ≤ length (slice_from k l))%nat.
Proof.
  intros Hk Hl. assert (1 ≤ length l)%nat by (destruct l; [done|cbn; lia]).
  unfold slice_from. case_bool_decide; rewrite length_drop; lia.
Qed.

(** ** Picking individuals and scoring them *)


Lemma pick_Ok population idx :
  Forall (λ i, i < length population)%nat idx →
  pick population idx = Ok (individual population <$> idx).
Proof.
  induction 1 as [|i idx Hi _ IH]; [done|].
  destruct (lookup_lt_is_Some_2 population i Hi) as [ind Hind].
  cbn [pick fmap list_fmap]. unfold index, individual at 1.
  by rewrite Hind, bind_Ok, IH, bind_Ok.
Qed.

Lemma individual_seq population :
  individual population <$> seq 0 (length population) = population.
Proof.
  apply list_eq. intros i. rewrite list_lookup_fmap.
  destruct (decide (i < length population)%nat) as [Hi|Hi].
  - rewrite lookup_seq_lt by done. cbn. unfold individual.
    by destruct (lookup_lt_is_Some_2 population i Hi) as [ind ->].
  - rewrite lookup_seq_ge by lia. by rewrite lookup_ge_None_2 by lia.
Qed.

Lemma fitness_list_Ok fitness population bl rd :
  Forall (λ ind, is_Ok (fitness ind bl rd)) population →
  is_Ok (fitness_list fitness population bl rd).
Proof.
  induction 1 as [|ind population [f Hf] _ [fs IH]]; [by exists []|].
  exists (f :: fs). cbn [fitness_list]. by rewrite Hf, bind_Ok, IH, bind_Ok.
Qed.

Lemma fitness_list_Forall2 fitness population bl rd fv :
  fitness_list fitness population bl rd = Ok fv ↔
  Forall2 (λ ind f, fitness ind bl rd = Ok f) population fv.
Proof.
  revert fv. induction population as [|ind population IH]; intros fv.
  - cbn. split; [intros [= <-]; constructor|by inv 1].
  - cbn [fitness_list]. split.
    + intros (f & Hf & (fs & Hfs & [= <-])%bind_Ok_inv)%bind_Ok_inv.
      constructor; [done|]. by apply IH.
    + inv 1 as [|???? Hf Hfs]. apply IH in Hfs.
      by rewrite Hf, bind_Ok, Hfs, bind_Ok.
Qed.

Lemma fitness_list_length fitness population bl rd fv :
  fitness_list fitness population bl rd = Ok fv → length fv = length population.
Proof.
  intros H%fitness_list_Forall2. symmetry. by eapply Forall2_length.
Qed.

(** Scoring picked individuals reads their scores off [fitness_values]. *)
Lemma fitness_list_individuals fitness population bl rd fv idx :
  fitness_list fitness population bl rd = Ok fv →
  Forall (λ i, i < length population)%nat idx →
  fitness_list fitness (individual population <$> idx) bl rd
  = Ok (key fv <$> idx).
Proof.
  intros Hfv%fitness_list_Forall2 Hidx. apply fitness_list_Forall2.
  induction Hidx as [|i idx Hi _ IH]; [constructor|].
  cbn [fmap list_fmap]. constructor; [|done].
  destruct (lookup_lt_is_Some_2 population i Hi) as [ind Hind].
  destruct (Forall2_lookup_l _ _ _ _ _ Hfv Hind) as (f & Hf & Hscore).
  unfold individual, key. by rewrite Hind, Hf.
Qed.

(** ** [int] and the start of the elite slice *)

Lemma Qcle_0_num (q : Qc) : (0 ≤ q)%Qc ↔ 0 ≤ Qnum q.
Proof. unfold Qcle, Qle. change (this 0%Qc) with (0 # 1)%Q. cbn. lia. Qed.

Lemma Qcle_num_0 (q : Qc) : (q ≤ 0)%Qc ↔ Qnum q ≤ 0.
Proof. unfold Qcle, Qle. change (this 0%Qc) with (0 # 1)%Q. cbn. lia. Qed.

Lemma int_nonpos (q : Qc) : (q ≤ 0)%Qc → int q ≤ 0.
Proof.
  intros Hq%Qcle_num_0. unfold int.
  change 0 with (0 ÷ Z.pos (Qden q)) at 1. apply Z.quot_le_mono; lia.
Qed.

Lemma this_opp (q : Qc) : this (- q)%Qc = (- this q)%Q.
Proof. cbn. rewrite Qred_opp. f_equal. apply canon. Qed.

Lemma int_opp (q : Qc) : (0 ≤ q)%Qc → int (- q)%Qc = - Qfloor q.
Proof.
  intros Hq%Qcle_0_num. unfold int. rewrite this_opp.
  destruct q as [[n d] Hc]. cbn in *.
  rewrite Z.quot_opp_l by lia. f_equal. apply Z.quot_div_nonneg; lia.
Qed.

Lemma int_nonneg (q : Qc) : (0 ≤ q)%Qc → int q = Qfloor q.
Proof.
  intros Hq%Qcle_0_num. unfold int. destruct q as [[n d] Hc]. cbn in *.
  apply Z.quot_div_nonneg; lia.
Qed.

(** ** The float product *)

Lemma Q2Qc_nonneg (n : Z) (d : positive) : 0 ≤ n → (0 ≤ Q2Qc (n # d))%Qc.
Proof.
  intros Hn. unfold Qcle. change (this 0%Qc) with (0 # 1)%Q.
  cbn [this Q2Qc]. rewrite Qred_correct. unfold Qle. cbn. lia.
Qed.

Lemma round_half_even_nonneg (n d : Z) :
  0 ≤ n → 0 < d → 0 ≤ round_half_even n d.
Proof.
  intros Hn Hd. unfold round_half_even.
  pose proof (Z.div_pos n d Hn Hd).
  repeat case_bool_decide; [lia..|]. destruct (Z.even _); lia.
Qed.

Lemma round_pos_nonneg (n d : Z) : 0 < n → 0 < d → (0 ≤ round_pos n d)%Qc.
Proof.
  intros Hn Hd. unfold round_pos. apply Q2Qc_nonneg.
  apply Z.mul_nonneg_nonneg; [|apply Z.pow_nonneg; lia].
  apply round_half_even_nonneg.
  - apply Z.mul_nonneg_nonneg; [lia|apply Z.pow_nonneg; lia].
  - apply Z.mul_pos_pos; [lia|apply Z.pow_pos_nonneg; lia].
Qed.

(** Rounding keeps the sign. *)
Lemma round_float_nonneg (x : Qc) : (0 ≤ x)%Qc → (0 ≤ round_float x)%Qc.
Proof.
  intros Hx%Qcle_0_num. unfold round_float.
  case_bool_decide; [by apply round_pos_nonneg|].
  rewrite bool_decide_false by lia. apply Qcle_refl.
Qed.

Lemma round_float_opp (x : Qc) : round_float (- x) = (- round_float x)%Qc.
Proof.
  unfold round_float. rewrite this_opp. destruct x as [[n d] Hc].
  cbn [this Qopp Qnum Qden].
  destruct (decide (0 < n)); [|destruct (decide (n < 0))].
  - rewrite (bool_decide_false (0 < - n)), (bool_decide_true (- n < 0)),
      (bool_decide_true (0 < n)) by lia.
    by rewrite Z.opp_involutive.
  - rewrite (bool_decide_true (0 < - n)), (bool_decide_false (0 < n)),
      (bool_decide_true (n < 0)) by lia.
    by rewrite Qcopp_involutive.
  - rewrite (bool_decide_false (0 < - n)), (bool_decide_false (- n < 0)),
      (bool_decide_false (0 < n)), (bool_decide_false (n < 0)) by lia.
    ring.
Qed.

Lemma round_float_nonpos (x : Qc) : (x ≤ 0)%Qc → (round_float x ≤ 0)%Qc.
Proof.
  intros Hx. rewrite <- (Qcopp_involutive x), round_float_opp.
  replace 0%Qc with (- 0)%Qc by ring. apply Qcopp_le_compat.
  apply round_float_nonneg. replace 0%Qc with (- 0)%Qc by ring.
  by apply Qcopp_le_compat.
Qed.

(** The slice starts at minus the whole part of the float product
    [len(population) * elite_ratio]. *)
Lemma elite_start_floor (population : list (list Z)) (elite_ratio : Qc) :
  (0 ≤ Qc_of_Z (Z.of_nat (length population)) * elite_ratio)%Qc →
  elite_start population elite_ratio
  = - Qfloor (round_float
                (Qc_of_Z (Z.of_nat (length population)) * elite_ratio)%Qc).
Proof.
  intros H. unfold elite_start.
  rewrite <- int_opp by (by apply round_float_nonneg).
  rewrite <- round_float_opp. do 2 f_equal.
  rewrite Z2Qc_inj_opp. ring.
Qed.

Lemma Qfloor_small (q : Qc) : (0 ≤ q)%Qc → (q < 1)%Qc → Qfloor q = 0.
Proof.
  intros H0%Qcle_0_num H1. unfold Qclt, Qlt in H1.
  change (this 1%Qc) with (1 # 1)%Q in H1.
  destruct q as [[n d] Hc]. cbn in *. apply Z.div_small. lia.
Qed.

Lemma Qfloor_ge_1 (q : Qc) : (1 ≤ q)%Qc → 1 ≤ Qfloor q.
Proof.
  unfold Qcle, Qle. change (this 1%Qc) with (1 # 1)%Q.
  destruct q as [[a d] Hc]. cbn. intros H1.
  apply Z.div_le_lower_bound; lia.
Qed.

(** ** The children of a generation *)

Lemma crossover_loop_total p1 p2 coin bps :
  length p1 = length p2 → ∀ i child,
  length child = length p1 →
  ∃ child', crossover_loop p1 p2 coin i bps child = Ok child'
            ∧ length child' = length p1.
Proof.
  intros Hp. induction bps as [|start bps IH]; intros i child Hlen; [by eauto|].
  destruct bps as [|end_ rest]; [by eauto|]. rewrite crossover_loop_cons.
  set (chosen_p := if bool_decide (coin i < 1 / 2)%Qc then p1 else p2).
  assert (Hchosen : length child = length chosen_p).
  { unfold chosen_p. destruct (bool_decide _); congruence. }
  rewrite set_slice_splice, bind_Ok by done.
  apply IH. by rewrite splice_length.
Qed.

Lemma crossover_total p1 p2 bp coin :
  length p1 = length p2 →
  ∃ child, crossover p1 p2 bp coin = Ok child ∧ length child = length p1.
Proof.
  intros Hp. unfold crossover.
  apply crossover_loop_total; [done|]. apply length_replicate.
Qed.


Lemma make_child_total population probs rate d (L : nat) :
  (2 ≤ length population)%nat → (3 ≤ L)%nat →
  Forall (λ ind, length ind = L) population →
  ((parents_indices d).1 < length population)%nat →
  ((parents_indices d).2 < length population)%nat →
  ∃ child, make_child population probs rate d = Ok child ∧ length child = L.
Proof.
  intros HN HL Hlen H1 H2. unfold make_child, np_random_choice.
  rewrite bool_decide_false, bind_Ok by lia. unfold index.
  destruct (lookup_lt_is_Some_2 population _ H1) as [parent1 Hp1].
  destruct (lookup_lt_is_Some_2 population _ H2) as [parent2 Hp2].
  rewrite Hp1, bind_Ok, Hp2, bind_Ok.
  assert (Hl1 : length parent1 = L).
  { by apply (Forall_lookup_1 _ _ _ _ Hlen Hp1). }
  assert (Hl2 : length parent2 = L).
  { by apply (Forall_lookup_1 _ _ _ _ Hlen Hp2). }
  rewrite bool_decide_false, bind_Ok by lia.
  destruct (crossover_total parent1 parent2 (break_points d) (segment_draw d))
    as (child & -> & Hchild); [congruence|].
  rewrite bind_Ok. eexists. split; [done|].
  rewrite mutation_length. congruence.
Qed.

Lemma breed_total population probs rate rnd (L : nat) (need : nat) :
  (2 ≤ length population)%nat → (3 ≤ L)%nat →
  Forall (λ ind, length ind = L) population → valid_parents population rnd →
  ∀ c new_population,
  ∃ children,
    breed need c population probs rate rnd new_population
      = Ok (new_population ++ children)
    ∧ length children = need.
Proof.
  intros HN HL Hlen Hrnd.
  induction need as [|need IH]; intros c new_population.
  - exists []. by rewrite app_nil_r.
  - cbn [breed]. destruct (Hrnd c) as [H1 H2].
    destruct (make_child_total population probs rate (rnd c) L)
      as (child & -> & _); [done..|].
    rewrite bind_Ok.
    destruct (IH (S c) (new_population ++ [child])) as (children & -> & Hn).
    exists (child :: children). rewrite <- app_assoc. split; [done|].
    cbn. lia.
Qed.

Lemma py_min_Ok (l : list Qc) : l ≠ [] → is_Ok (py_min l).
Proof. destruct l; [done|]. by eexists. Qed.

Lemma elite_idx_valid `{Hnp : !ArgsortSorts np} population elite_ratio fv :
  length fv = length population →
  Forall (λ i, i < length population)%nat (elite_idx population elite_ratio fv).
Proof.
  intros Hlen. apply Forall_forall. intros i Hi%elem_of_slice_from.
  apply elem_of_argsort in Hi. lia.
Qed.

Lemma Qc_of_nat_nonneg (n : nat) : (0 ≤ Qc_of_Z (Z.of_nat n))%Qc.
Proof. rewrite <- Z2Qc_inj_0. apply (proj1 (Z2Qc_inj_le 0 _)). lia. Qed.

Lemma elite_start_nonpos population elite_ratio :
  (0 ≤ elite_ratio)%Qc → elite_start population elite_ratio ≤ 0.
Proof.
  intros Hr. apply int_nonpos, round_float_nonpos.
  replace (Qc_of_Z (- Z.of_nat (length population)) * elite_ratio)%Qc
    with (- (Qc_of_Z (Z.of_nat (length population)) * elite_ratio))%Qc
    by (rewrite Z2Qc_inj_opp; ring).
  replace 0%Qc with (- 0)%Qc by ring. apply Qcopp_le_compat.
  apply Qcmult_nonneg_nonneg; [apply Qc_of_nat_nonneg|done].
Qed.

(** ** The size of the next generation *)

(** C1: for a population of [N >= 1] individuals that the fitness method
    scores, with chromosomes of one length of at least 3 and an oracle that
    draws parents among the individuals, and for every elite ratio that is
    not negative (in particular every ratio in [0, 1]), [evolve_pop] returns
    the children followed by the elites, and the number of elites plus the
    number of children is [N]. *)
Theorem evolve_pop_size `{Hnp : !ArgsortSorts np}
    (population : list (list Z)) (mutation_rate elite_ratio : Qc)
    (biscuits_list : gmap Z biscuit) (roll_defects : gmap Z (gmap string Z))
    (fitness : fitness_fn) (rnd : nat → child_draws) (L : nat) :
  population ≠ [] →
  Forall (λ ind, is_Ok (fitness ind biscuits_list roll_defects)) population →
  (3 ≤ L)%nat → Forall (λ ind, length ind = L) population →
  valid_parents population rnd →
  (0 ≤ elite_ratio)%Qc →
  ∃ fitness_values elites new_population,
    fitness_list fitness population biscuits_list roll_defects = Ok fitness_values
    ∧ pick population (elite_idx population elite_ratio fitness_values) = Ok elites
    ∧ evolve_pop population mutation_rate elite_ratio biscuits_list roll_defects
        fitness rnd = Ok (new_population ++ elites)
    ∧ (length elites + length new_population = length population)%nat
    ∧ length (new_population ++ elites) = length population.
Proof.
  intros Hne Hfit HL Hlen Hrnd Hr. unfold evolve_pop.
  destruct (fitness_list_Ok _ _ _ _ Hfit) as [fv Hfv].
  pose proof (fitness_list_length _ _ _ _ _ Hfv) as Hfvlen.
  rewrite Hfv, bind_Ok.
  pose proof (elite_idx_valid population elite_ratio fv Hfvlen) as Hidx.
  rewrite (pick_Ok _ _ Hidx), bind_Ok.
  set (elites := individual population <$> elite_idx population elite_ratio fv).
  assert (Hfvne : fv ≠ []) by (intros ->; by destruct population).
  destruct (py_min_Ok fv Hfvne) as [min_fitness ->]. rewrite bind_Ok.
  assert (Hel : (1 ≤ length elites ≤ length population)%nat).
  { unfold elites, elite_idx. rewrite length_fmap. split.
    - apply slice_from_nonpos_length; [by apply elite_start_nonpos|].
      intros Hnil. apply (f_equal length) in Hnil.
      rewrite argsort_length in Hnil. by destruct fv.
    - etrans; [apply slice_from_length_le|]. by rewrite argsort_length, Hfvlen. }
  destruct (decide (length population - length elites = 0)%nat) as [H0|Hpos].
  - rewrite H0. cbn [breed]. rewrite bind_Ok.
    exists fv, elites, []. repeat split; [by apply pick_Ok|cbn; lia|cbn; lia].
  - destruct (breed_total population
                (probabilities (shifted_fitness fv min_fitness)) mutation_rate
                rnd L (length population - length elites))
      with (c := 0%nat) (new_population := @nil (list Z))
      as (children & -> & Hn); [lia|done..|].
    rewrite bind_Ok. exists fv, elites, children.
    repeat split; [by apply pick_Ok|lia|rewrite length_app; lia].
Qed.

(** ** Elites *)

Lemma breed_inv population probs rate rnd (need : nat) : ∀ c new_population r,
  breed need c population probs rate rnd new_population = Ok r →
  ∃ children, r = new_population ++ children ∧ length children = need.
Proof.
  induction need as [|need IH]; intros c new_population r; cbn [breed].
  - intros [= <-]. exists []. by rewrite app_nil_r.
  - intros (child & _ & Hr)%bind_Ok_inv.
    destruct (IH _ _ _ Hr) as (children & -> & Hn).
    exists (child :: children). rewrite <- app_assoc. split; [done|]. cbn. lia.
Qed.

Lemma evolve_pop_inv `{Hnp : !ArgsortSorts np}
    population mutation_rate elite_ratio bl rd fitness rnd fv r :
  fitness_list fitness population bl rd = Ok fv →
  evolve_pop population mutation_rate elite_ratio bl rd fitness rnd = Ok r →
  ∃ new_population,
    r = new_population
        ++ (individual population <$> elite_idx population elite_ratio fv)
    ∧ length new_population
      = (length population - length (elite_idx population elite_ratio fv))%nat.
Proof.
  intros Hfv. unfold evolve_pop. rewrite Hfv, bind_Ok.
  rewrite (pick_Ok _ _ (elite_idx_valid _ _ _ (fitness_list_length _ _ _ _ _ Hfv))).
  rewrite bind_Ok.
  intros (min_fitness & _ & (new & Hnew & [= <-])%bind_Ok_inv)%bind_Ok_inv.
  destruct (breed_inv _ _ _ _ _ _ _ _ Hnew) as (children & -> & Hn).
  exists children. split; [done|]. by rewrite Hn, length_fmap.
Qed.

Lemma sorted_keys fv (l : list nat) :
  StronglySorted (key_le fv) l → StronglySorted Qcle (key fv <$> l).
Proof.
  induction 1 as [|i l Hl IH Hi]; cbn; constructor; [done|].
  apply Forall_fmap. exact Hi.
Qed.

(** C9, as amended: for a population that is not empty, when the float
    product [len(population) * elite_ratio] is at least 0 and below 1 (as for
    [elite_ratio = 0]), the slice of the sorted indices starts at 0, so every
    individual is an elite and no child is made: whatever the mutation rate
    and the random draws, [evolve_pop] returns the individuals of the
    population in the ascending order of fitness that [np.argsort] gives. *)
Theorem evolve_pop_all_elites `{Hnp : !ArgsortSorts np}
    (population : list (list Z))
    (mutation_rate elite_ratio : Qc) (biscuits_list : gmap Z biscuit)
    (roll_defects : gmap Z (gmap string Z)) (fitness : fitness_fn)
    (rnd : nat → child_draws) (fitness_values : list Qc) :
  population ≠ [] →
  fitness_list fitness population biscuits_list roll_defects = Ok fitness_values →
  (0 ≤ Qc_of_Z (Z.of_nat (length population)) * elite_ratio)%Qc →
  (round_float (Qc_of_Z (Z.of_nat (length population)) * elite_ratio) < 1)%Qc →
  let result := individual population <$> argsort fitness_values in
  elite_idx population elite_ratio fitness_values = argsort fitness_values
  ∧ pick population (argsort fitness_values) = Ok result
  ∧ (length population - length result = 0)%nat
  ∧ evolve_pop population mutation_rate elite_ratio biscuits_list roll_defects
      fitness rnd = Ok result
  ∧ result ≡ₚ population
  ∧ fitness_list fitness result biscuits_list roll_defects
    = Ok (key fitness_values <$> argsort fitness_values)
  ∧ StronglySorted Qcle (key fitness_values <$> argsort fitness_values).
Proof.
  intros Hne Hfv H0 H1 result.
  pose proof (fitness_list_length _ _ _ _ _ Hfv) as Hlen.
  assert (Hidx : elite_idx population elite_ratio fitness_values
                 = argsort fitness_values).
  { unfold elite_idx. rewrite elite_start_floor, Qfloor_small by (done || by apply round_float_nonneg).
    done. }
  assert (Hvalid : Forall (λ i, i < length population)%nat (argsort fitness_values)).
  { rewrite <- Hidx. by apply elite_idx_valid. }
  assert (Hres : length result = length population).
  { unfold result. by rewrite length_fmap, argsort_length. }
  split; [done|]. split; [by apply pick_Ok|]. split; [lia|]. split.
  - unfold evolve_pop. rewrite Hfv, bind_Ok, Hidx, (pick_Ok _ _ Hvalid), bind_Ok.
    destruct (py_min_Ok fitness_values) as [min_fitness ->].
    { intros ->. by destruct population. }
    rewrite bind_Ok. fold result. rewrite Hres, Nat.sub_diag. done.
  - split; [|split].
    + unfold result. rewrite argsort_Permutation, Hlen.
      by rewrite individual_seq.
    + by apply fitness_list_individuals.
    + apply sorted_keys, argsort_sorted.
Qed.

(** C2, as amended: when the float product [len(population) * elite_ratio]
    is at least 1, the elites are the individuals at the last [m] indices of
    the ascending order of fitness that [np.argsort] gives, where [m] is the
    whole part of that float product (all of them when [m] exceeds the
    number [N] of individuals): there are [min(m, N)] of them, each is an
    individual of the population as it stands, none of the other individuals
    has a higher fitness than an elite, and they end the returned
    population. *)
Theorem elites_are_top_floor `{Hnp : !ArgsortSorts np}
    (population : list (list Z))
    (mutation_rate elite_ratio : Qc) (biscuits_list : gmap Z biscuit)
    (roll_defects : gmap Z (gmap string Z)) (fitness : fitness_fn)
    (rnd : nat → child_draws) (fitness_values : list Qc) :
  fitness_list fitness population biscuits_list roll_defects = Ok fitness_values →
  (1 ≤ round_float (Qc_of_Z (Z.of_nat (length population)) * elite_ratio))%Qc →
  let N := length population in
  let m := Z.to_nat (Qfloor (round_float
                               (Qc_of_Z (Z.of_nat N) * elite_ratio)%Qc)) in
  let idx := elite_idx population elite_ratio fitness_values in
  let elites := individual population <$> idx in
  (1 ≤ m)%nat
  ∧ idx = drop (N - m) (argsort fitness_values)
  ∧ length elites = Nat.min m N
  ∧ Forall2 (λ i ind, population !! i = Some ind) idx elites
  ∧ (∀ i j, i ∈ idx → (j < N)%nat → j ∉ idx →
       (key fitness_values j ≤ key fitness_values i)%Qc)
  ∧ (∀ result,
       evolve_pop population mutation_rate elite_ratio biscuits_list
         roll_defects fitness rnd = Ok result →
       ∃ new_population,
         result = new_population ++ elites
         ∧ length new_population = (N - m)%nat).
Proof.
  intros Hfv H1 N m idx elites. subst N.
  set (N := length population) in *.
  pose proof (fitness_list_length _ _ _ _ _ Hfv) as Hlen.
  assert (H0 : (0 ≤ Qc_of_Z (Z.of_nat N) * elite_ratio)%Qc).
  { destruct (Qclt_le_dec (Qc_of_Z (Z.of_nat N) * elite_ratio) 0)
      as [Hneg|Hpos]; [|done].
    apply Qclt_le_weak, round_float_nonpos in Hneg.
    pose proof (Qcle_trans _ _ _ H1 Hneg) as Habs. by vm_compute in Habs. }
  pose proof (Qfloor_ge_1 _ H1) as Hm.
  assert (Hm1 : (1 ≤ m)%nat) by (unfold m; lia).
  assert (Hidx : idx = drop (N - m) (argsort fitness_values)).
  { unfold idx, elite_idx. rewrite elite_start_floor by done.
    unfold slice_from. fold N. rewrite bool_decide_false by lia.
    rewrite argsort_length, Hlen, Z.opp_involutive. done. }
  assert (Hidxlen : length idx = Nat.min m N).
  { rewrite Hidx, length_drop, argsort_length, Hlen. fold N. lia. }
  split; [done|]. split; [done|]. split; [by unfold elites; rewrite length_fmap|].
  split; [|split].
  - unfold elites. apply Forall2_fmap_r, Forall_Forall2_diag.
    eapply Forall_impl; [apply (elite_idx_valid _ elite_ratio _ Hlen)|].
    intros i Hi. cbn in Hi. unfold individual, compose.
    by destruct (lookup_lt_is_Some_2 population i Hi) as [ind ->].
  - intros i j Hi Hj Hnot.
    pose proof (argsort_sorted fitness_values) as Hsorted.
    rewrite <- (take_drop (N - m) (argsort fitness_values)) in Hsorted.
    apply (StronglySorted_app_1_elem_of _ _ _ j i Hsorted); [|by rewrite <- Hidx].
    assert (Hin : j ∈ argsort fitness_values) by (apply elem_of_argsort; lia).
    rewrite <- (take_drop (N - m) (argsort fitness_values)) in Hin.
    apply elem_of_app in Hin as [Hin|Hin]; [done|]. by rewrite <- Hidx in Hin.
  - intros result Hres.
    destruct (evolve_pop_inv _ _ _ _ _ _ _ _ _ Hfv Hres) as (new & -> & Hnew).
    exists new. split; [done|]. fold idx in Hnew. rewrite Hnew, Hidxlen. lia.
Qed.

(** ** The small population, worked out *)

Lemma example_fitness_values :
  fitness_list fitness_1_score example_population notebook_biscuits (no_defects 4)
  = Ok [Qc_of_Z (-1); Qc_of_Z 3; Qc_of_Z (-4); Qc_of_Z 2].
Proof.
  apply fitness_list_Forall2. repeat constructor; by_computation.
Qed.

Lemma example_population_scored :
  Forall (λ ind, is_Ok (fitness_1_score ind notebook_biscuits (no_defects 4)))
    example_population.
Proof.
  pose proof example_fitness_values as H%fitness_list_Forall2.
  eapply Forall2_Forall_l; [exact H|]. apply Forall_true.
  intros f ind Hf. by exists f.
Qed.

Lemma evolve_pop_size_witness :
  ∃ fitness_values elites new_population,
    fitness_list fitness_1_score example_population notebook_biscuits
      (no_defects 4) = Ok fitness_values
    ∧ pick example_population
        (elite_idx example_population (1 / Qc_of_Z 2)%Qc fitness_values)
      = Ok elites
    ∧ evolve_pop example_population 0%Qc (1 / Qc_of_Z 2)%Qc notebook_biscuits
        (no_defects 4) fitness_1_score example_draws
      = Ok (new_population ++ elites)
    ∧ (length elites + length new_population = length example_population)%nat
    ∧ length (new_population ++ elites) = length example_population.
Proof.
  apply (evolve_pop_size example_population 0%Qc (1 / Qc_of_Z 2)%Qc
           notebook_biscuits (no_defects 4) fitness_1_score example_draws 4).
  - discriminate.
  - exact example_population_scored.
  - lia.
  - repeat constructor.
  - intros c. simpl. lia.
  - by vm_compute.
Defined.

Lemma evolve_pop_all_elites_witness :
  let fv := [Qc_of_Z (-1); Qc_of_Z 3; Qc_of_Z (-4); Qc_of_Z 2] in
  let result := individual example_population <$> argsort fv in
  elite_idx example_population (1 / Qc_of_Z 8)%Qc fv = argsort fv
  ∧ pick example_population (argsort fv) = Ok result
  ∧ (length example_population - length result = 0)%nat
  ∧ evolve_pop example_population (1 / Qc_of_Z 2)%Qc (1 / Qc_of_Z 8)%Qc
      notebook_biscuits (no_defects 4) fitness_1_score example_draws = Ok result
  ∧ result ≡ₚ example_population
  ∧ fitness_list fitness_1_score result notebook_biscuits (no_defects 4)
    = Ok (key fv <$> argsort fv)
  ∧ StronglySorted Qcle (key fv <$> argsort fv).
Proof.
  apply (evolve_pop_all_elites example_population (1 / Qc_of_Z 2)%Qc
           (1 / Qc_of_Z 8)%Qc notebook_biscuits (no_defects 4) fitness_1_score
           example_draws).
  - discriminate.
  - exact example_fitness_values.
  - by vm_compute.
  - by vm_compute.
Defined.

Lemma five_fitness_values :
  fitness_list fitness_1_score five_population notebook_biscuits (no_defects 6)
  = Ok [Qc_of_Z 4; Qc_of_Z 3; Qc_of_Z 1; Qc_of_Z 0; Qc_of_Z (-6)].
Proof.
  apply fitness_list_Forall2. repeat constructor; by_computation.
Qed.

(** With 5 individuals and the ratio [0.6] the float product is [3.0],
    above the exact product of 5 and the float [0.6]: three elites are
    kept. *)
Lemma elites_are_top_floor_witness :
  let fv := [Qc_of_Z 4; Qc_of_Z 3; Qc_of_Z 1; Qc_of_Z 0; Qc_of_Z (-6)] in
  let N := length five_population in
  let m := Z.to_nat (Qfloor (round_float
                               (Qc_of_Z (Z.of_nat N) * float_0_6)%Qc)) in
  let idx := elite_idx five_population float_0_6 fv in
  let elites := individual five_population <$> idx in
  (1 ≤ m)%nat
  ∧ idx = drop (N - m) (argsort fv)
  ∧ length elites = Nat.min m N
  ∧ Forall2 (λ i ind, five_population !! i = Some ind) idx elites
  ∧ (∀ i j, i ∈ idx → (j < N)%nat → j ∉ idx → (key fv j ≤ key fv i)%Qc)
  ∧ (∀ result,
       evolve_pop five_population 0%Qc float_0_6 notebook_biscuits
         (no_defects 6) fitness_1_score example_draws = Ok result →
       ∃ new_population,
         result = new_population ++ elites
         ∧ length new_population = (N - m)%nat).
Proof.
  apply (elites_are_top_floor five_population 0%Qc float_0_6
           notebook_biscuits (no_defects 6) fitness_1_score example_draws).
  - exact five_fitness_values.
  - by vm_compute.
Defined.

(** C9, as written: with 3 individuals and the elite ratio [1 / 3], the
    exact product of 3 and the float [1 / 3] is below 1, but the float
    product is [1.0]: the slice starts at -1, one elite is kept and two
    children are made, one of which is not a chromosome of the population.
    The three scores differ, so the order of [np.argsort] is the only one.
    And the empty population, of size 0, makes [min] fail. *)
Lemma all_elites_not_for_exact_product :
  (0 ≤ Qc_of_Z 3 * float_1_3)%Qc ∧ (Qc_of_Z 3 * float_1_3 < 1)%Qc
  ∧ fitness_list fitness_1_score three_population notebook_biscuits
      (no_defects 4) = Ok [Qc_of_Z (-1); Qc_of_Z 3; Qc_of_Z (-4)]
  ∧ evolve_pop three_population 0%Qc float_1_3 notebook_biscuits
      (no_defects 4) fitness_1_score example_draws
    = Ok [[2; -1; -1; -1]; [2; -1; -1; -1]; [0; 0; 0; 0]]
  ∧ ([2; -1; -1; -1] ∉ three_population)
  ∧ evolve_pop [] 0%Qc 0%Qc notebook_biscuits (no_defects 4) fitness_1_score
      example_draws = Err ValueError.
Proof.
  split; [by vm_compute|]. split; [by vm_compute|]. split.
  { apply fitness_list_Forall2. repeat constructor; by_computation. }
  split; [by vm_compute|]. split; [|by vm_compute].
  intros H. repeat (apply elem_of_cons in H as [H|H]; [discriminate|]).
  by apply elem_of_nil in H.
Qed.

(** The float product and the exact one differ: 5 times the float [0.6]
    is below 3 and its float is [3.0]; 3 times the float [1 / 3] is below 1
    and its float is [1.0]; 50 times the float [0.58] is the float below 29,
    of whole part 28. *)
Lemma float_product_examples :
  Qfloor (Qc_of_Z 5 * float_0_6)%Qc = 2
  ∧ elite_start five_population float_0_6 = -3
  ∧ elite_idx five_population float_0_6
      [Qc_of_Z 4; Qc_of_Z 3; Qc_of_Z 1; Qc_of_Z 0; Qc_of_Z (-6)]
    = [2; 1; 0]%nat
  ∧ (Qc_of_Z 3 * float_1_3 < 1)%Qc
  ∧ elite_start three_population float_1_3 = -1
  ∧ elite_start (replicate 50 []) (round_float (Qc_of_Z 58 / Qc_of_Z 100)) = -28.
Proof. repeat split; by vm_compute. Qed.

(** C2, as written: with 4 individuals and the elite ratio 3/8 the
    specification asks for [ceil(1.5) = 2] elites; [int(-1.5)] is [-1], and the slice
    keeps the best individual only.  The second best, [[2,2,2,2]], is not
    in the next generation.  The product 1.5 is a binary64 number and the
    four scores differ, so neither the rounding nor the order of
    [np.argsort] among equal scores plays a part. *)
Lemma elites_not_ceil :
  Qceiling (Qc_of_Z 4 * (Qc_of_Z 3 / Qc_of_Z 8))%Qc = 2
  ∧ elite_idx example_population (Qc_of_Z 3 / Qc_of_Z 8)%Qc
      [Qc_of_Z (-1); Qc_of_Z 3; Qc_of_Z (-4); Qc_of_Z 2] = [1%nat]
  ∧ evolve_pop example_population 0%Qc (Qc_of_Z 3 / Qc_of_Z 8)%Qc
      notebook_biscuits (no_defects 4) fitness_1_score example_draws
    = Ok [[2; -1; -1; -1]; [2; -1; -1; -1]; [2; -1; -1; -1]; [0; 0; 0; 0]]
  ∧ [2; 2; 2; 2] ∉ [[2; -1; -1; -1]; [2; -1; -1; -1]; [2; -1; -1; -1];
                     [0; 0; 0; 0]].
Proof.
  split; [by vm_compute|]. split; [by vm_compute|]. split; [by vm_compute|].
  intros H. repeat (apply elem_of_cons in H as [H|H]; [discriminate|]).
  by apply elem_of_nil in H.
Qed.

(** ** The driver *)

Lemma generations_none `{np : Argsort}
    population mutation_rate elite_ratio bl rd display
    fitness rnd (max_iter : Z) :
  max_iter ≤ 0 →
  generations (Z.to_nat max_iter) 0 population mutation_rate elite_ratio bl rd
    display fitness rnd [] = Ok (population, []).
Proof. intros H. by replace (Z.to_nat max_iter) with 0%nat by lia. Qed.

Lemma evolve_pop_empty `{Hnp : !ArgsortSorts np}
    mutation_rate elite_ratio bl rd fitness rnd :
  evolve_pop [] mutation_rate elite_ratio bl rd fitness rnd = Err ValueError.
Proof.
  unfold evolve_pop. cbn [fitness_list]. rewrite bind_Ok.
  unfold elite_idx, slice_from.
  assert (Hnil : argsort [] = []).
  { apply Permutation_nil_r. exact (argsort_Permutation []). }
  by rewrite Hnil, !drop_nil, Tauto.if_same.
Qed.

(** The last index of the sorted order has a maximal score. *)
Lemma best_index_max `{Hnp : !ArgsortSorts np} (fv : list Qc) :
  fv ≠ [] →
  ∃ i, best_index fv = Ok i ∧ (i < length fv)%nat
       ∧ ∀ j, (j < length fv)%nat → (key fv j ≤ key fv i)%Qc.
Proof.
  intros Hne. unfold best_index.
  destruct (last (argsort fv)) as [i|] eqn:Hlast.
  - exists i. apply last_Some in Hlast as [l' Hl']. split; [done|].
    assert (Hi : i ∈ argsort fv).
    { rewrite Hl'. apply elem_of_app. right. by apply list_elem_of_singleton. }
    split; [by apply elem_of_argsort|].
    intros j Hj%elem_of_argsort. pose proof (argsort_sorted fv) as Hs.
    rewrite Hl' in Hj, Hs. apply elem_of_app in Hj as [Hj|Hj].
    + apply (StronglySorted_app_1_elem_of _ _ _ j i Hs Hj).
      by apply list_elem_of_singleton.
    + apply list_elem_of_singleton in Hj as ->. apply Qcle_refl.
  - apply last_None in Hlast. apply (f_equal length) in Hlast.
    rewrite argsort_length in Hlast. by destruct fv.
Qed.

(** C3, as amended: the driver looks at none of its settings before it
    starts.  Given a non-empty initial population that the fitness method
    scores and a generation count of zero or less, it evolves no generation
    and returns that population as it is when the whole population is asked
    for, and its best individual otherwise, for every population size,
    mutation rate, elite ratio and roll size.  An error reaches the caller
    only when a step of the run fails: with an empty initial population the
    first generation fails with a [ValueError]. *)
Theorem genetic_algorithm_no_validation `{Hnp : !ArgsortSorts np}
    (pop_size roll_size max_iter : Z)
    (mutation_rate elite_ratio : Qc) (biscuits_list : gmap Z biscuit)
    (roll_defects : gmap Z (gmap string Z)) (display : option Z)
    (fitness : fitness_fn) (population : list (list Z)) (rnd : run_draws)
    (fitness_values : list Qc) :
  max_iter ≤ 0 → population ≠ [] →
  fitness_list fitness population biscuits_list roll_defects = Ok fitness_values →
  genetic_algorithm pop_size mutation_rate elite_ratio biscuits_list
    roll_defects roll_size max_iter display fitness (Some population)
    "population" rnd = Ok population
  ∧ (∃ best i,
       genetic_algorithm pop_size mutation_rate elite_ratio biscuits_list
         roll_defects roll_size max_iter display fitness (Some population)
         "elite" rnd = Ok [best]
       ∧ population !! i = Some best
       ∧ ∀ j, (j < length population)%nat →
              (key fitness_values j ≤ key fitness_values i)%Qc)
  ∧ (∀ (gens : nat) (rtype : string),
       genetic_algorithm pop_size mutation_rate elite_ratio biscuits_list
         roll_defects roll_size (Z.of_nat (S gens)) display fitness (Some [])
         rtype rnd = Err ValueError).
Proof.
  intros Hiter Hne Hfv. unfold genetic_algorithm, genetic_algorithm_run.
  rewrite !bind_Ok. split; [|split].
  - by rewrite generations_none.
  - rewrite generations_none, bind_Ok by done. cbn [fst snd].
    rewrite bool_decide_true by done. rewrite Hfv, bind_Ok.
    pose proof (fitness_list_length _ _ _ _ _ Hfv) as Hlen.
    destruct (best_index_max fitness_values) as (i & -> & Hi & Hmax).
    { intros ->. by destruct population. }
    rewrite bind_Ok. unfold index.
    destruct (lookup_lt_is_Some_2 population i) as [best Hbest]; [lia|].
    rewrite Hbest, !bind_Ok. exists best, i. split; [done|]. split; [done|].
    intros j Hj. apply Hmax. lia.
  - intros gens rtype. rewrite Nat2Z.id, bind_Ok. cbn [generations].
    by rewrite evolve_pop_empty.
Qed.

Lemma genetic_algorithm_no_validation_witness :
  genetic_algorithm (-7) (1 + 1)%Qc 1%Qc notebook_biscuits (no_defects 4) 0 (-1)
    None fitness_1_score (Some example_population) "population"
    example_run_draws = Ok example_population
  ∧ (∃ best i,
       genetic_algorithm (-7) (1 + 1)%Qc 1%Qc notebook_biscuits (no_defects 4)
         0 (-1) None fitness_1_score (Some example_population) "elite"
         example_run_draws = Ok [best]
       ∧ example_population !! i = Some best
       ∧ ∀ j, (j < length example_population)%nat →
              (key [Qc_of_Z (-1); Qc_of_Z 3; Qc_of_Z (-4); Qc_of_Z 2] j
               ≤ key [Qc_of_Z (-1); Qc_of_Z 3; Qc_of_Z (-4); Qc_of_Z 2] i)%Qc)
  ∧ (∀ (gens : nat) (rtype : string),
       genetic_algorithm (-7) (1 + 1)%Qc 1%Qc notebook_biscuits (no_defects 4)
         0 (Z.of_nat (S gens)) None fitness_1_score (Some []) rtype
         example_run_draws = Err ValueError).
Proof.
  apply (genetic_algorithm_no_validation (-7) 0 (-1) (1 + 1)%Qc 1%Qc
           notebook_biscuits (no_defects 4) None fitness_1_score
           example_population example_run_draws).
  - lia.
  - discriminate.
  - exact example_fitness_values.
Defined.

(** C3, as written: a population size of -7, a mutation rate of 2, an elite
    ratio that leaves no room for children and a roll size of 0 for
    chromosomes of 4 positions are all accepted, a generation is evolved and
    a result is returned; so is a generation count of -1; and with the
    mutation rate 2 the children of a generation have all their genes
    replaced. *)
Lemma invalid_configurations_accepted :
  genetic_algorithm (-7) (1 + 1)%Qc 1%Qc notebook_biscuits (no_defects 4) 0 1
    None fitness_1_score (Some example_population) "elite" example_run_draws
  = Ok [[0; 0; 0; 0]]
  ∧ genetic_algorithm 4 0%Qc (1 / Qc_of_Z 2)%Qc notebook_biscuits (no_defects 4)
      4 (-1) None fitness_1_score (Some example_population) "elite"
      example_run_draws
    = Ok [[0; 0; 0; 0]]
  ∧ genetic_algorithm 4 (1 + 1)%Qc (1 / Qc_of_Z 2)%Qc notebook_biscuits
      (no_defects 4) 4 1 None fitness_1_score (Some example_population)
      "population" example_run_draws
    = Ok [[3; 3; 3; 3]; [3; 3; 3; 3]; [2; 2; 2; 2]; [0; 0; 0; 0]].
Proof. repeat split; by vm_compute. Qed.

(** ** The fuel of the slice scorer is enough *)

Lemma list_remove_error x l e : list_remove x l = Err e → e = ValueError.
Proof.
  induction l as [|y l IH]; cbn [list_remove]; [by intros [= <-]|].
  case_bool_decide; [done|].
  destruct (list_remove x l) as [l'|e']; [done|]. intros [= <-]. by apply IH.
Qed.

Lemma remove_assigned_error assigned : ∀ unassigned e,
  remove_assigned assigned unassigned = Err e → e = ValueError.
Proof.
  induction assigned as [|a assigned IH]; intros unassigned e;
    cbn [remove_assigned]; [done|].
  destruct (list_remove a unassigned) as [u'|e'] eqn:Hrem.
  - rewrite bind_Ok. apply IH.
  - intros [= <-]. by apply (list_remove_error a unassigned).
Qed.

Lemma slice_pass_fuel_enough (fuel : nat) :
  ∀ unassigned last_size lb_size lb_value th rd j score assigned,
    (1 ≤ last_size)%nat → (length unassigned ≤ fuel + j)%nat →
    slice_pass fuel unassigned last_size lb_size lb_value th rd j score assigned
    ≠ Err OutOfFuel.
Proof.
  induction fuel as [|fuel IH];
    intros u last_size lb_size lb_value th rd j score assigned Hl Hfuel;
    cbn [slice_pass]; case_bool_decide as Hj; try done; [lia|].
  unfold index. destruct (u !! j) as [pos|]; [|done]. rewrite bind_Ok.
  destruct (forallb _ _); [|apply IH; lia].
  destruct (respect_defects th pos (pos + Z.of_nat last_size) rd)
    as [[]|e] eqn:Hok.
  - rewrite bind_Ok. apply IH; lia.
  - rewrite bind_Ok. apply IH; lia.
  - apply respect_defects_error in Hok as ->. done.
Qed.

Lemma slice_loop_fuel_enough (last_size : nat) :
  ∀ lb_size lb_value th rd unassigned score,
    slice_loop last_size lb_size lb_value th rd unassigned score
    ≠ Err OutOfFuel.
Proof.
  induction last_size as [|n IH]; intros lb_size lb_value th rd u score;
    [by destruct u|].
  destruct u as [|x u]; [done|]. cbn [slice_loop].
  destruct (slice_pass _ _ _ _ _ _ _ _ _ _) as [sa|e] eqn:Hpass.
  - rewrite bind_Ok.
    destruct (remove_assigned sa.2 (x :: u)) as [u'|e] eqn:Hrem.
    + rewrite bind_Ok. apply IH.
    + apply remove_assigned_error in Hrem as ->. done.
  - intros [= ->]. revert Hpass. apply slice_pass_fuel_enough; lia.
Qed.

(** [get_slice_score] never stops for lack of fuel: the model follows the
    loops of the code to their end. *)
Lemma get_slice_score_fuel_enough position sz lb_size lb_value th rd :
  get_slice_score position sz lb_size lb_value th rd ≠ Err OutOfFuel.
Proof.
  unfold get_slice_score.
  destruct (slice_loop _ _ _ _ _ _ _) as [su|e] eqn:Hloop; [done|].
  intros [= ->]. revert Hloop. apply slice_loop_fuel_enough.
Qed.

(** ** The size of the population along a run *)

Lemma evolve_pop_length `{Hnp : !ArgsortSorts np}
    population mutation_rate elite_ratio bl rd fitness rnd r :
  evolve_pop population mutation_rate elite_ratio bl rd fitness rnd = Ok r →
  length r = length population.
Proof.
  intros Hr.
  destruct (fitness_list fitness population bl rd) as [fv|e] eqn:Hfv.
  - destruct (evolve_pop_inv _ _ _ _ _ _ _ _ _ Hfv Hr) as (new & -> & Hnew).
    rewrite length_app, length_fmap, Hnew.
    pose proof (slice_from_length_le (elite_start population elite_ratio)
                  (argsort fv)) as Hle.
    rewrite argsort_length, (fitness_list_length _ _ _ _ _ Hfv) in Hle.
    unfold elite_idx. lia.
  - unfold evolve_pop in Hr. by rewrite Hfv in Hr.
Qed.

Lemma generations_length `{Hnp : !ArgsortSorts np} (gens : nat) :
  ∀ i population mutation_rate elite_ratio bl rd display fitness rnd printed pl,
    generations gens i population mutation_rate elite_ratio bl rd display
      fitness rnd printed = Ok pl →
    length pl.1 = length population.
Proof.
  induction gens as [|gens IH];
    intros i population mutation_rate elite_ratio bl rd display fitness rnd
      printed pl; cbn [generations].
  - by intros [= <-].
  - intros (population' & Hevolve & (line & _ & Hrest)%bind_Ok_inv)%bind_Ok_inv.
    rewrite (IH _ _ _ _ _ _ _ _ _ _ _ Hrest).
    by apply evolve_pop_length in Hevolve.
Qed.

(** * Further properties of the code *)

(** ** What [respect_defects] computes *)

Lemma add_defect_foldr_lookup (l : list (string * Z)) (pd : gmap string Z) :
  NoDup l.*1 → (∀ k n, (k, n) ∈ l → k ∈ dom pd) →
  ∃ pd', foldr (uncurry add_defect) (Ok pd) l = Ok pd'
         ∧ ∀ k, pd' !! k
                = (λ v, v + default 0 ((list_to_map l : gmap string Z) !! k))
                  <$> pd !! k.
Proof.
  induction l as [|[k0 n0] l IH]; intros Hnd Hdom.
  - exists pd. split; [done|]. intros k. cbn. rewrite lookup_empty. cbn.
    destruct (pd !! k); cbn; [f_equal; lia|done].
  - cbn in Hnd. apply NoDup_cons in Hnd as [Hk0 Hnd].
    destruct IH as (pd1 & Hfold & Hpd1); [done|..].
    { intros k n Hk. apply (Hdom k n). by right. }
    cbn [foldr uncurry]. rewrite Hfold. unfold add_defect. rewrite bind_Ok.
    assert (Hin : k0 ∈ dom pd) by (apply (Hdom k0 n0); by left).
    apply elem_of_dom in Hin as [v0 Hv0].
    assert (Hnone : (list_to_map l : gmap string Z) !! k0 = None)
      by (by apply not_elem_of_list_to_map_1).
    assert (Hv1 : pd1 !! k0 = Some (v0 + 0)).
    { rewrite Hpd1, Hnone, Hv0. done. }
    rewrite (getitem_Some _ _ _ Hv1), bind_Ok. eexists. split; [done|].
    intros k. cbn [list_to_map foldr uncurry].
    destruct (decide (k = k0)) as [->|Hne].
    + rewrite !lookup_insert_eq, Hv0. cbn. f_equal. lia.
    + rewrite !lookup_insert_ne by done. apply Hpd1.
Qed.

Lemma add_pos_defects_lookup (here pd : gmap string Z) :
  dom here ⊆ dom pd →
  ∃ pd', add_pos_defects here pd = Ok pd'
         ∧ ∀ k, pd' !! k = (λ v, v + default 0 (here !! k)) <$> pd !! k.
Proof.
  intros Hsub. unfold add_pos_defects. rewrite map_fold_foldr.
  destruct (add_defect_foldr_lookup (map_to_list here) pd) as (pd' & -> & Hpd').
  - apply NoDup_fst_map_to_list.
  - intros k n Hk%elem_of_map_to_list. apply Hsub, elem_of_dom. eauto.
  - exists pd'. split; [done|]. intros k.
    by rewrite Hpd', list_to_map_to_list.
Qed.

Lemma sum_defects_lookup (rd : gmap Z (gmap string Z)) (l : list Z) : ∀ pd,
  (∀ pos, pos ∈ l → ∃ here, rd !! pos = Some here ∧ dom here ⊆ dom pd) →
  ∃ pd', sum_defects l rd pd = Ok pd'
         ∧ ∀ k, pd' !! k
                = (λ v, v + foldr (λ pos acc, class_count rd k pos + acc) 0 l)
                  <$> pd !! k.
Proof.
  induction l as [|pos l IH]; intros pd Hl.
  - exists pd. split; [done|]. intros k. cbn.
    destruct (pd !! k); cbn; [f_equal; lia|done].
  - destruct (Hl pos) as (here & Hhere & Hsub); [by left|].
    cbn [sum_defects]. rewrite (getitem_Some _ _ _ Hhere), bind_Ok.
    destruct (add_pos_defects_lookup here pd Hsub) as (pd1 & Hadd & Hpd1).
    rewrite Hadd, bind_Ok.
    assert (Hdom : dom pd1 = dom pd).
    { pose proof (add_pos_defects_spec here pd) as H. rewrite Hadd in H.
      by destruct H. }
    destruct (IH pd1) as (pd' & -> & Hpd').
    { intros pos' Hpos'. destruct (Hl pos') as (here' & ? & ?); [by right|].
      exists here'. by rewrite Hdom. }
    exists pd'. split; [done|]. intros k. rewrite Hpd', Hpd1. cbn [foldr].
    unfold class_count at 2. rewrite Hhere. cbn.
    destruct (pd !! k); cbn; [f_equal; lia|done].
Qed.

Lemma all_within_decide th pd ta tb tc da db dc :
  th !! "a"%string = Some ta → th !! "b"%string = Some tb →
  th !! "c"%string = Some tc →
  pd !! "a"%string = Some da → pd !! "b"%string = Some db →
  pd !! "c"%string = Some dc →
  all_within th pd ["a"; "b"; "c"]%string
  = Ok (bool_decide (da ≤ ta ∧ db ≤ tb ∧ dc ≤ tc)).
Proof.
  intros Ha Hb Hc Hda Hdb Hdc. cbn [all_within].
  rewrite (getitem_Some _ _ _ Ha), (getitem_Some _ _ _ Hb), (getitem_Some _ _ _ Hc).
  rewrite (getitem_Some _ _ _ Hda), (getitem_Some _ _ _ Hdb), (getitem_Some _ _ _ Hdc).
  rewrite !bind_Ok.
  destruct (decide (da ≤ ta)); [rewrite (bool_decide_true (da ≤ ta)) by done
                               |rewrite (bool_decide_false (da ≤ ta)) by done].
  2: { by rewrite bool_decide_false by tauto. }
  destruct (decide (db ≤ tb)); [rewrite (bool_decide_true (db ≤ tb)) by done
                               |rewrite (bool_decide_false (db ≤ tb)) by done].
  2: { by rewrite bool_decide_false by tauto. }
  destruct (decide (dc ≤ tc)); [rewrite (bool_decide_true (dc ≤ tc)) by done
                               |rewrite (bool_decide_false (dc ≤ tc)) by done].
  - by rewrite bool_decide_true by tauto.
  - by rewrite bool_decide_false by tauto.
Qed.

Lemma respect_defects_totals th start end_ rd ta tb tc :
  covered rd start end_ →
  th !! "a"%string = Some ta → th !! "b"%string = Some tb →
  th !! "c"%string = Some tc →
  respect_defects th start end_ rd
  = Ok (bool_decide (class_total rd "a" start end_ ≤ ta
                     ∧ class_total rd "b" start end_ ≤ tb
                     ∧ class_total rd "c" start end_ ≤ tc)).
Proof.
  intros Hcov Ha Hb Hc. unfold respect_defects.
  destruct (sum_defects_lookup rd (range start end_) pos_defects0)
    as (pd & -> & Hpd).
  { intros pos Hpos%elem_of_seqZ. apply Hcov. lia. }
  rewrite bind_Ok.
  apply (all_within_decide th pd ta tb tc); try done;
    rewrite Hpd; unfold class_total; reflexivity.
Qed.

Lemma dom_thr (a b c : Z) : dom (thr a b c) = dom pos_defects0.
Proof. unfold thr, pos_defects0. by rewrite !dom_insert_L. Qed.

Lemma thr_lookup (a b c : Z) (k : string) (n : Z) :
  thr a b c !! k = Some n → n = a ∨ n = b ∨ n = c.
Proof.
  unfold thr. intros H.
  apply lookup_insert_Some in H as [[_ <-]|[_ H]]; [by left|].
  apply lookup_insert_Some in H as [[_ <-]|[_ H]]; [by right; left|].
  apply lookup_insert_Some in H as [[_ <-]|[_ H]]; [by right; right|].
  by rewrite lookup_empty in H.
Qed.

Lemma no_defects_elem (roll_size pos : Z) (here : gmap string Z) :
  no_defects roll_size !! pos = Some here ↔
  0 ≤ pos < roll_size ∧ here = thr 0 0 0.
Proof.
  unfold no_defects. rewrite <- elem_of_list_to_map.
  - rewrite list_elem_of_fmap. split.
    + intros (i & [= -> ->] & Hi%elem_of_seqZ). split; [lia|done].
    + intros [Hpos ->]. exists pos. split; [done|]. apply elem_of_seqZ. lia.
  - rewrite <- list_fmap_compose.
    rewrite (list_fmap_ext _ id (range 0 roll_size)) by done.
    rewrite list_fmap_id. apply NoDup_seqZ.
Qed.

Lemma covered_no_defects (roll_size start end_ : Z) :
  0 ≤ start → end_ ≤ roll_size → covered (no_defects roll_size) start end_.
Proof.
  intros Hs He pos Hpos. exists (thr 0 0 0). split.
  - apply no_defects_elem. split; [lia|done].
  - by rewrite dom_thr.
Qed.

Lemma counts_nonneg_no_defects (roll_size : Z) :
  counts_nonneg (no_defects roll_size).
Proof.
  intros pos here k n [_ ->]%no_defects_elem Hn.
  apply thr_lookup in Hn. lia.
Qed.

(** ** The sums of [respect_defects] grow with the range *)

Lemma class_count_nonneg rd k pos : counts_nonneg rd → 0 ≤ class_count rd k pos.
Proof.
  intros Hrd. unfold class_count.
  destruct (rd !! pos) as [here|] eqn:Hpos; cbn; [|done].
  destruct (here !! k) as [n|] eqn:Hk; cbn; [|done]. by apply (Hrd pos here k).
Qed.

Lemma class_sum_app rd k (l1 l2 : list Z) :
  foldr (λ pos acc, class_count rd k pos + acc) 0 (l1 ++ l2)
  = foldr (λ pos acc, class_count rd k pos + acc) 0 l1
    + foldr (λ pos acc, class_count rd k pos + acc) 0 l2.
Proof. induction l1 as [|pos l1 IH]; cbn; [done|]. rewrite IH. lia. Qed.

Lemma class_sum_nonneg rd k (l : list Z) :
  counts_nonneg rd → 0 ≤ foldr (λ pos acc, class_count rd k pos + acc) 0 l.
Proof.
  intros Hrd. induction l as [|pos l IH]; cbn; [done|].
  pose proof (class_count_nonneg rd k pos Hrd). lia.
Qed.

Lemma range_split (start mid end_ : Z) :
  start ≤ mid ≤ end_ → range start end_ = range start mid ++ range mid end_.
Proof.
  intros H. unfold range.
  replace (end_ - start) with ((mid - start) + (end_ - mid)) by lia.
  rewrite seqZ_app by lia. do 2 f_equal. lia.
Qed.

Lemma class_total_mono rd k (start s e end_ : Z) :
  counts_nonneg rd → start ≤ s → s ≤ e → e ≤ end_ →
  class_total rd k s e ≤ class_total rd k start end_.
Proof.
  intros Hrd H1 H2 H3. unfold class_total.
  rewrite (range_split start s end_), (range_split s e end_) by lia.
  rewrite !class_sum_app.
  pose proof (class_sum_nonneg rd k (range start s) Hrd).
  pose proof (class_sum_nonneg rd k (range e end_) Hrd). lia.
Qed.

(** X1: on a range whose positions are all in the table with classes among
    a, b and c, and for a threshold mapping with the three classes,
    [respect_defects] returns a boolean, and it is [True] exactly when the
    summed count of each class over [start], ..., [end_ - 1] is at most its
    threshold. *)
Theorem respect_defects_compares_totals (th : gmap string Z) (start end_ : Z)
    (rd : gmap Z (gmap string Z)) (ta tb tc : Z) :
  covered rd start end_ →
  th !! "a"%string = Some ta → th !! "b"%string = Some tb →
  th !! "c"%string = Some tc →
  ∃ ok, respect_defects th start end_ rd = Ok ok
        ∧ (ok = true ↔ class_total rd "a" start end_ ≤ ta
                       ∧ class_total rd "b" start end_ ≤ tb
                       ∧ class_total rd "c" start end_ ≤ tc).
Proof.
  intros Hcov Ha Hb Hc. eexists. split.
  - by apply (respect_defects_totals th start end_ rd ta tb tc).
  - apply bool_decide_eq_true.
Qed.

Lemma respect_defects_compares_totals_witness :
  ∃ ok, respect_defects (thr 4 2 3) 2 6 (no_defects 10) = Ok ok
        ∧ (ok = true ↔ class_total (no_defects 10) "a" 2 6 ≤ 4
                       ∧ class_total (no_defects 10) "b" 2 6 ≤ 2
                       ∧ class_total (no_defects 10) "c" 2 6 ≤ 3).
Proof.
  apply (respect_defects_compares_totals (thr 4 2 3) 2 6 (no_defects 10) 4 2 3).
  - apply covered_no_defects; lia.
  - reflexivity.
  - reflexivity.
  - reflexivity.
Defined.

(** X2: a position of the range that is not a key of the defect table makes
    [respect_defects] fail with a key lookup. *)
Theorem respect_defects_missing_position (th : gmap string Z) (start end_ : Z)
    (rd : gmap Z (gmap string Z)) (pos : Z) :
  start ≤ pos < end_ → rd !! pos = None →
  respect_defects th start end_ rd = Err KeyError.
Proof.
  intros Hpos Hnone. unfold respect_defects.
  pose proof (sum_defects_spec rd (range start end_) pos_defects0) as H.
  destruct (sum_defects _ rd pos_defects0) as [pd|e]; [|by subst].
  destruct H as [_ Hl]. destruct (Hl pos) as (here & Hhere & _).
  { apply elem_of_seqZ. lia. }
  congruence.
Qed.

Lemma respect_defects_missing_position_witness :
  respect_defects (thr 4 2 3) 7 11 (no_defects 10) = Err KeyError.
Proof.
  apply (respect_defects_missing_position (thr 4 2 3) 7 11 (no_defects 10) 10).
  - lia.
  - reflexivity.
Defined.

(** X3: when no count of the table is negative, a biscuit that fits a range
    fits every range inside it. *)
Theorem respect_defects_sub_range (th : gmap string Z) (start end_ s e : Z)
    (rd : gmap Z (gmap string Z)) :
  counts_nonneg rd → covered rd start end_ →
  start ≤ s → s ≤ e → e ≤ end_ →
  respect_defects th start end_ rd = Ok true →
  respect_defects th s e rd = Ok true.
Proof.
  intros Hrd Hcov H1 H2 H3 Hok.
  destruct (th !! "a"%string) as [ta|] eqn:Ha.
  2: { by rewrite respect_defects_missing_a in Hok. }
  destruct (th !! "b"%string) as [tb|] eqn:Hb.
  2: { destruct (respect_defects_missing th start end_ rd "b") as [H|H];
         [set_solver|done|congruence..]. }
  destruct (th !! "c"%string) as [tc|] eqn:Hc.
  2: { destruct (respect_defects_missing th start end_ rd "c") as [H|H];
         [set_solver|done|congruence..]. }
  rewrite (respect_defects_totals th start end_ rd ta tb tc) in Hok by done.
  injection Hok as Hok. apply bool_decide_eq_true in Hok as (Hta & Htb & Htc).
  rewrite (respect_defects_totals th s e rd ta tb tc); try done.
  - f_equal. apply bool_decide_eq_true.
    pose proof (class_total_mono rd "a" start s e end_ Hrd H1 H2 H3).
    pose proof (class_total_mono rd "b" start s e end_ Hrd H1 H2 H3).
    pose proof (class_total_mono rd "c" start s e end_ Hrd H1 H2 H3). lia.
  - intros pos Hpos. apply Hcov. lia.
Qed.

Lemma respect_defects_sub_range_witness :
  respect_defects (thr 4 2 3) 3 5 (no_defects 10) = Ok true.
Proof.
  apply (respect_defects_sub_range (thr 4 2 3) 2 6 3 5 (no_defects 10)).
  - apply counts_nonneg_no_defects.
  - apply covered_no_defects; lia.
  - lia.
  - lia.
  - lia.
  - vm_compute. reflexivity.
Defined.

(** ** The strict evaluator, run by run *)

Lemma fitness_1_step_error bl rd i elem st e :
  fitness_1_step bl rd i elem st = Err e → e = KeyError.
Proof.
  unfold fitness_1_step. case_bool_decide; [done|].
  unfold getitem. destruct (bl !! elem) as [b|]; [|by intros [= <-]].
  rewrite bind_Ok. case_bool_decide; [|done].
  destruct (respect_defects _ _ _ _) as [[]|e'] eqn:Hok; [done..|].
  intros [= <-]. by apply respect_defects_error in Hok.
Qed.

Lemma fitness_1_loop_error bl rd ind : ∀ i st e,
  fitness_1_loop bl rd i ind st = Err e → e = KeyError.
Proof.
  induction ind as [|elem ind IH]; intros i st e; cbn [fitness_1_loop]; [done|].
  destruct (fitness_1_step bl rd i elem st) as [st'|e'] eqn:Hstep.
  - rewrite bind_Ok. apply IH.
  - intros [= <-]. by apply fitness_1_step_error in Hstep.
Qed.

Lemma fitness_1_loop_empty_state bl rd (n : nat) : ∀ i st,
  size1 st = 0%nat →
  ∃ st', fitness_1_loop bl rd i (replicate n (-1)) st = Ok st'
         ∧ score1 st' = score1 st - Z.of_nat n ∧ size1 st' = 0%nat.
Proof.
  induction n as [|n IH]; intros i st Hst.
  - exists st. repeat split; [lia|done].
  - cbn [replicate fitness_1_loop]. rewrite fitness_1_step_empty, bind_Ok.
    destruct (IH (i + 1) (Scan1 (score1 st - (1 + Z.of_nat (size1 st))) 0 (-1)))
      as (st' & -> & Hscore & Hsize); [done|].
    exists st'. repeat split; [|done]. cbn [score1] in Hscore. lia.
Qed.

Section strict_run.
(** A run of the non-empty type [e], whose biscuit [b] needs at least one
    position. *)
Context (bl : gmap Z biscuit) (rd : gmap Z (gmap string Z)).
Context (e : Z) (b : biscuit).
Hypothesis He : e ≠ -1.
Hypothesis Hb : bl !! e = Some b.
Hypothesis Hsize : (1 ≤ size b)%nat.

(** A run that has reached the size of the biscuit and fails the test loses
    one point and its first position; the next position of the same type is
    tested with the window moved by one. *)
Lemma fitness_1_loop_retries (n : nat) : ∀ i st,
  size1 st = (size b - 1)%nat → last_elem1 st = e ∨ size1 st = 0%nat →
  (∀ j, i ≤ j < i + Z.of_nat n →
        respect_defects (threshold b) (j - Z.of_nat (size b) + 1) (j + 1) rd
        = Ok false) →
  ∃ st', fitness_1_loop bl rd i (replicate n e) st = Ok st'
         ∧ score1 st' = score1 st - Z.of_nat n
         ∧ size1 st' = (size b - 1)%nat
         ∧ (last_elem1 st' = e ∨ size1 st' = 0%nat).
Proof.
  induction n as [|n IH]; intros i st Hst Hlast Hfail.
  - exists st. repeat split; [lia|done..].
  - cbn [replicate fitness_1_loop].
    rewrite (fitness_1_step_run bl rd e b He Hb i st Hlast).
    rewrite bool_decide_true by lia.
    replace (i - Z.of_nat (S (size1 st)) + 1) with (i - Z.of_nat (size b) + 1)
      by lia.
    rewrite (Hfail i) by lia. rewrite !bind_Ok.
    destruct (IH (i + 1) (Scan1 (score1 st - 1) (size1 st) e))
      as (st' & -> & Hscore & Hsz & Hl); cbn [size1 last_elem1 score1] in *;
      [done|by left|intros j Hj; apply Hfail; lia|].
    exists st'. repeat split; [lia|done..].
Qed.

(** From a state with no pending piece: the run without a biscuit. *)
Lemma fitness_1_loop_no_biscuit (L : nat) (i : Z) st :
  size1 st = 0%nat →
  (∀ j, i + Z.of_nat (size b) - 1 ≤ j < i + Z.of_nat L →
        respect_defects (threshold b) (j - Z.of_nat (size b) + 1) (j + 1) rd
        = Ok false) →
  ∃ st', fitness_1_loop bl rd i (replicate L e) st = Ok st'
         ∧ score1 st' - Z.of_nat (size1 st') = score1 st - Z.of_nat L.
Proof.
  intros Hst Hfail.
  destruct (decide (L < size b)%nat) as [Hshort|Hlong].
  - destruct (fitness_1_loop_run bl rd e b He Hb L i st)
      as (st' & -> & Hscore & Hsz & _); [by right|lia|].
    exists st'. split; [done|]. lia.
  - replace L with ((size b - 1) + (L - (size b - 1)))%nat by lia.
    rewrite replicate_add, fitness_1_loop_app, length_replicate.
    destruct (fitness_1_loop_run bl rd e b He Hb (size b - 1) i st)
      as (st1 & -> & Hscore1 & Hsz1 & Hl1); [by right|lia|].
    rewrite bind_Ok.
    destruct (fitness_1_loop_retries (L - (size b - 1))
                (i + Z.of_nat (size b - 1)) st1)
      as (st2 & -> & Hscore2 & Hsz2 & _); [lia|done| |].
    { intros j Hj. apply Hfail. lia. }
    exists st2. split; [done|]. lia.
Qed.

(** From a state with no pending piece: [d] windows that fail, then one
    that passes. *)
Lemma fitness_1_loop_biscuit (d : nat) (i : Z) st :
  size1 st = 0%nat →
  (∀ t, 0 ≤ t < Z.of_nat d →
        respect_defects (threshold b) (i + t) (i + t + Z.of_nat (size b)) rd
        = Ok false) →
  respect_defects (threshold b) (i + Z.of_nat d)
    (i + Z.of_nat d + Z.of_nat (size b)) rd = Ok true →
  ∃ st', fitness_1_loop bl rd i (replicate (d + size b) e) st = Ok st'
         ∧ score1 st' = score1 st - Z.of_nat d + value b
         ∧ size1 st' = 0%nat.
Proof.
  intros Hst Hfail Hpass.
  replace (d + size b)%nat with ((size b - 1) + (d + 1))%nat by lia.
  rewrite replicate_add, fitness_1_loop_app, length_replicate.
  destruct (fitness_1_loop_run bl rd e b He Hb (size b - 1) i st)
    as (st1 & -> & Hscore1 & Hsz1 & Hl1); [by right|lia|].
  rewrite bind_Ok, replicate_add, fitness_1_loop_app, length_replicate.
  destruct (fitness_1_loop_retries d (i + Z.of_nat (size b - 1)) st1)
    as (st2 & -> & Hscore2 & Hsz2 & Hl2); [lia|done| |].
  { intros j Hj.
    replace (j - Z.of_nat (size b) + 1) with (i + (j - i - Z.of_nat (size b) + 1))
      by lia.
    replace (j + 1) with (i + (j - i - Z.of_nat (size b) + 1) + Z.of_nat (size b))
      by lia.
    apply Hfail. lia. }
  rewrite bind_Ok. cbn [replicate fitness_1_loop].
  rewrite (fitness_1_step_run bl rd e b He Hb _ st2 Hl2).
  rewrite bool_decide_true by lia.
  replace (i + Z.of_nat (size b - 1) + Z.of_nat d - Z.of_nat (S (size1 st2)) + 1)
    with (i + Z.of_nat d) by lia.
  replace (i + Z.of_nat (size b - 1) + Z.of_nat d + 1)
    with (i + Z.of_nat d + Z.of_nat (size b)) by lia.
  rewrite Hpass, !bind_Ok. eexists. split; [done|]. cbn [score1 size1].
  split; [lia|done].
Qed.

End strict_run.

(** X4: a chromosome that holds an identifier other than -1 that is not a key
    of the catalogue makes the strict evaluator fail with a key lookup. *)
Theorem fitness_1_unknown_type (ind : list Z) (e : Z)
    (biscuits_list : gmap Z biscuit) (roll_defects : gmap Z (gmap string Z)) :
  e ∈ ind → e ≠ -1 → biscuits_list !! e = None →
  fitness_1 ind biscuits_list roll_defects = Err KeyError.
Proof.
  intros (l1 & l2 & ->)%list_elem_of_split He Hnone. unfold fitness_1.
  rewrite fitness_1_loop_app.
  destruct (fitness_1_loop biscuits_list roll_defects 0 l1 _) as [st1|e1] eqn:H1.
  - rewrite bind_Ok. cbn [fitness_1_loop]. unfold fitness_1_step at 1.
    rewrite bool_decide_false by done.
    by rewrite (getitem_None _ _ Hnone).
  - by apply fitness_1_loop_error in H1 as ->.
Qed.

Lemma fitness_1_unknown_type_witness :
  fitness_1 [0; 7; -1] notebook_biscuits (no_defects 3) = Err KeyError.
Proof.
  apply (fitness_1_unknown_type [0; 7; -1] 7 notebook_biscuits (no_defects 3)).
  - apply elem_of_cons. right. apply elem_of_cons. by left.
  - lia.
  - reflexivity.
Defined.

(** X5: a run of [L] positions of one non-empty type between empty positions
    in which no window of the size of the biscuit passes the defect test (in
    particular every run shorter than the biscuit, whatever the defects)
    costs one point per position, like the empty positions around it. *)
Theorem fitness_1_no_biscuit (a L c : nat) (e : Z) (b : biscuit)
    (biscuits_list : gmap Z biscuit) (roll_defects : gmap Z (gmap string Z)) :
  e ≠ -1 → biscuits_list !! e = Some b → (1 ≤ size b)%nat →
  (∀ j, Z.of_nat a + Z.of_nat (size b) - 1 ≤ j < Z.of_nat a + Z.of_nat L →
        respect_defects (threshold b) (j - Z.of_nat (size b) + 1) (j + 1)
          roll_defects = Ok false) →
  fitness_1 (replicate a (-1) ++ replicate L e ++ replicate c (-1))
    biscuits_list roll_defects
  = Ok (- (Z.of_nat a + Z.of_nat L + Z.of_nat c)).
Proof.
  intros He Hb Hsize Hfail. unfold fitness_1.
  rewrite fitness_1_loop_app, length_replicate.
  destruct (fitness_1_loop_empty_state biscuits_list roll_defects a 0
              (Scan1 0 0 (-2))) as (st1 & -> & Hs1 & Hz1); [done|].
  rewrite bind_Ok, fitness_1_loop_app, length_replicate.
  destruct (fitness_1_loop_no_biscuit biscuits_list roll_defects e b He Hb Hsize
              L (0 + Z.of_nat a) st1) as (st2 & -> & Hs2); [done| |].
  { intros j Hj. apply Hfail. lia. }
  rewrite bind_Ok.
  destruct (fitness_1_loop_empty biscuits_list roll_defects c
              (0 + Z.of_nat a + Z.of_nat L) st2) as (st3 & -> & Hs3).
  rewrite !bind_Ok. f_equal. cbn [score1] in Hs1. lia.
Qed.

(** Three positions of type 2 (size 2, at most one defect of class a) around
    the five defects of position 2: the windows 1..2 and 2..3 both fail. *)
Lemma fitness_1_no_biscuit_witness :
  fitness_1 (replicate 1 (-1) ++ replicate 3 2 ++ replicate 2 (-1))
    notebook_biscuits defects_at_2
  = Ok (- (Z.of_nat 1 + Z.of_nat 3 + Z.of_nat 2)).
Proof.
  apply (fitness_1_no_biscuit 1 3 2 2 (Biscuit 1 2 (thr 1 2 1))
           notebook_biscuits defects_at_2).
  - lia.
  - reflexivity.
  - simpl. lia.
  - simpl. intros j Hj.
    assert (j = 2 ∨ j = 3) as [-> | ->] by lia; vm_compute; reflexivity.
Defined.

(** X6: in a run between empty positions, when the first [d] windows of the
    size of the biscuit fail the defect test and the next one passes, the
    run of [d + size] positions scores the value of the biscuit minus [d]:
    each failed window costs one point and moves the window by one. *)
Theorem fitness_1_biscuit_after_retries (a d c : nat) (e : Z) (b : biscuit)
    (biscuits_list : gmap Z biscuit) (roll_defects : gmap Z (gmap string Z)) :
  e ≠ -1 → biscuits_list !! e = Some b → (1 ≤ size b)%nat →
  (∀ t, 0 ≤ t < Z.of_nat d →
        respect_defects (threshold b) (Z.of_nat a + t)
          (Z.of_nat a + t + Z.of_nat (size b)) roll_defects = Ok false) →
  respect_defects (threshold b) (Z.of_nat a + Z.of_nat d)
    (Z.of_nat a + Z.of_nat d + Z.of_nat (size b)) roll_defects = Ok true →
  fitness_1 (replicate a (-1) ++ replicate (d + size b) e ++ replicate c (-1))
    biscuits_list roll_defects
  = Ok (value b - Z.of_nat a - Z.of_nat d - Z.of_nat c).
Proof.
  intros He Hb Hsize Hfail Hpass. unfold fitness_1.
  rewrite fitness_1_loop_app, length_replicate.
  destruct (fitness_1_loop_empty_state biscuits_list roll_defects a 0
              (Scan1 0 0 (-2))) as (st1 & -> & Hs1 & Hz1); [done|].
  rewrite bind_Ok, fitness_1_loop_app, length_replicate.
  destruct (fitness_1_loop_biscuit biscuits_list roll_defects e b He Hb Hsize
              d (0 + Z.of_nat a) st1) as (st2 & -> & Hs2 & Hz2); [done|..].
  { intros t Ht. rewrite Z.add_0_l. by apply Hfail. }
  { by rewrite Z.add_0_l. }
  rewrite bind_Ok.
  destruct (fitness_1_loop_empty_state biscuits_list roll_defects c
              (0 + Z.of_nat a + Z.of_nat (d + size b)) st2)
    as (st3 & -> & Hs3 & Hz3); [done|].
  rewrite !bind_Ok. f_equal. cbn [score1] in Hs1. lia.
Qed.

Lemma fitness_1_biscuit_after_retries_witness :
  fitness_1 (replicate 0 (-1) ++ replicate (1 + 4) 0 ++ replicate 1 (-1))
    notebook_biscuits sample_defects
  = Ok (3 - Z.of_nat 0 - Z.of_nat 1 - Z.of_nat 1).
Proof.
  apply (fitness_1_biscuit_after_retries 0 1 1 0 (Biscuit 3 4 (thr 4 2 3))
           notebook_biscuits sample_defects).
  - lia.
  - reflexivity.
  - simpl. lia.
  - intros t Ht. assert (t = 0) as -> by lia. vm_compute. reflexivity.
  - vm_compute. reflexivity.
Defined.

(** ** A lower bound of the strict score *)

Lemma fitness_1_step_bound bl rd i elem st st' :
  values_bounded bl →
  fitness_1_step bl rd i elem st = Ok st' →
  score1 st - Z.of_nat (size1 st) - 1 ≤ score1 st' - Z.of_nat (size1 st').
Proof.
  intros Hbl. unfold fitness_1_step. case_bool_decide as Hempty.
  { intros [= <-]. cbn. lia. }
  unfold getitem. destruct (bl !! elem) as [b|] eqn:Hb; [|done].
  rewrite bind_Ok. specialize (Hbl elem b Hb).
  destruct (decide (elem ≠ last_elem1 st)) as [Hnew|Hsame].
  - rewrite !(bool_decide_true (elem ≠ last_elem1 st)) by done.
    case_bool_decide as Hfull.
    + destruct (respect_defects _ _ _ _) as [[]|]; intros [= <-]; cbn; lia.
    + intros [= <-]. cbn. lia.
  - rewrite !(bool_decide_false (elem ≠ last_elem1 st)) by done.
    case_bool_decide as Hfull.
    + destruct (respect_defects _ _ _ _) as [[]|]; intros [= <-]; cbn; lia.
    + intros [= <-]. cbn. lia.
Qed.

Lemma fitness_1_loop_bound bl rd ind : ∀ i st st',
  values_bounded bl →
  fitness_1_loop bl rd i ind st = Ok st' →
  score1 st - Z.of_nat (size1 st) - Z.of_nat (length ind)
  ≤ score1 st' - Z.of_nat (size1 st').
Proof.
  induction ind as [|elem ind IH]; intros i st st' Hbl; cbn [fitness_1_loop].
  - intros [= <-]. cbn. lia.
  - intros (st1 & Hstep & Hloop)%bind_Ok_inv.
    apply (fitness_1_step_bound _ _ _ _ _ _ Hbl) in Hstep.
    apply (IH _ _ _ Hbl) in Hloop. cbn [length]. lia.
Qed.

(** X7: when no biscuit of the catalogue has a value below minus its size,
    the strict score of a chromosome is never below minus its number of
    positions. *)
Theorem fitness_1_lower_bound (ind : list Z) (biscuits_list : gmap Z biscuit)
    (roll_defects : gmap Z (gmap string Z)) (score : Z) :
  values_bounded biscuits_list →
  fitness_1 ind biscuits_list roll_defects = Ok score →
  - Z.of_nat (length ind) ≤ score.
Proof.
  intros Hbl. unfold fitness_1.
  intros (st & Hloop & [= <-])%bind_Ok_inv.
  apply (fitness_1_loop_bound _ _ _ _ _ _ Hbl) in Hloop.
  cbn [score1 size1] in Hloop. lia.
Qed.

Lemma values_bounded_notebook : values_bounded notebook_biscuits.
Proof.
  intros e b. unfold notebook_biscuits. intros H.
  repeat (apply lookup_insert_Some in H as [[_ <-]|[_ H]]; [simpl; lia|]).
  by rewrite lookup_empty in H.
Qed.

Lemma fitness_1_lower_bound_witness :
  - Z.of_nat (length [0; 0; 0; 0; -1; 2; 2; 3]) ≤ 2.
Proof.
  apply (fitness_1_lower_bound [0; 0; 0; 0; -1; 2; 2; 3] notebook_biscuits
           (no_defects 8) 2).
  - exact values_bounded_notebook.
  - vm_compute. reflexivity.
Defined.

(** ** The partial-credit evaluator, run by run *)

Lemma fitness_2_from_start ind bl rd :
  fitness_2 ind bl rd
  = (first ← index ind 0; fitness_2_from bl rd 0 ind (Scan2 0%Qc 0 first)).
Proof. reflexivity. Qed.

Lemma fitness_2_from_run bl rd pos (n : nat) e l score sz :
  fitness_2_from bl rd pos (replicate n e ++ l) (Scan2 score sz e)
  = fitness_2_from bl rd (pos + Z.of_nat n) l (Scan2 score (sz + n) e).
Proof.
  unfold fitness_2_from.
  replace (pos + Z.of_nat (length (replicate n e ++ l)))
    with (pos + Z.of_nat n + Z.of_nat (length l))
    by (rewrite length_app, length_replicate; lia).
  rewrite fitness_2_loop_app, fitness_2_loop_run, bind_Ok, length_replicate.
  reflexivity.
Qed.

Lemma runs_score_cons bl rd start e n r rest :
  runs_score bl rd start ((e, n) :: r :: rest)
  = (s ← (if bool_decide (e = -1) then Ok (- Qc_of_Z (Z.of_nat n))%Qc
          else run_score bl rd (start + Z.of_nat n) n e);
     t ← runs_score bl rd (start + Z.of_nat n) (r :: rest);
     Ok (s + t)%Qc).
Proof. reflexivity. Qed.

Lemma fitness_2_from_pending bl rd (rest : list (Z * nat)) :
  ∀ pos score e sz,
    maximal (Some e) rest →
    fitness_2_from bl rd pos (expand rest) (Scan2 score sz e)
    = (t ← runs_score bl rd (pos - Z.of_nat sz) ((e, sz) :: rest);
       Ok (score + t)%Qc).
Proof.
  induction rest as [|[e1 n1] rest IH]; intros pos score e sz Hmax.
  - unfold fitness_2_from. cbn [expand fitness_2_loop length runs_score fst snd].
    rewrite bind_Ok. cbn [size2 last_elem2 score2].
    replace (pos + Z.of_nat 0) with (pos - Z.of_nat sz + Z.of_nat sz) by lia.
    reflexivity.
  - cbn [maximal fst snd] in Hmax. destruct Hmax as (Hn1 & Hne & Hmax).
    assert (He : e1 ≠ e) by congruence.
    destruct n1 as [|m]; [lia|].
    rewrite runs_score_cons.
    replace (pos - Z.of_nat sz + Z.of_nat sz) with pos by lia.
    cbn [expand fst snd replicate app].
    assert (Hstep :
      fitness_2_from bl rd pos (e1 :: replicate m e1 ++ expand rest)
        (Scan2 score sz e)
      = (st1 ← fitness_2_step bl rd pos e1 (Scan2 score sz e);
         fitness_2_from bl rd (pos + 1) (replicate m e1 ++ expand rest) st1)).
    { unfold fitness_2_from. cbn [fitness_2_loop length].
      replace (pos + Z.of_nat (S (length (replicate m e1 ++ expand rest))))
        with (pos + 1 + Z.of_nat (length (replicate m e1 ++ expand rest)))
        by lia.
      by destruct (fitness_2_step bl rd pos e1 (Scan2 score sz e)). }
    rewrite Hstep. clear Hstep.
    unfold fitness_2_step. cbn [last_elem2 score2 size2].
    rewrite (bool_decide_false (e1 = e)) by done.
    assert (Hcont : ∀ score',
      fitness_2_from bl rd (pos + 1) (replicate m e1 ++ expand rest)
        (Scan2 score' 1 e1)
      = (t ← runs_score bl rd pos ((e1, S m) :: rest); Ok (score' + t)%Qc)).
    { intros score'. rewrite fitness_2_from_run, (IH _ _ _ _ Hmax).
      replace (pos + 1 + Z.of_nat m - Z.of_nat (1 + m)) with pos by lia.
      reflexivity. }
    destruct (decide (e = -1)) as [Hempty|Hfull].
    + rewrite !(bool_decide_true (e = -1)) by done. rewrite !bind_Ok, Hcont.
      destruct (runs_score bl rd pos ((e1, S m) :: rest)) as [t|err];
        [|reflexivity].
      rewrite !bind_Ok. f_equal. ring.
    + rewrite !(bool_decide_false (e = -1)) by done.
      destruct (run_score bl rd pos sz e) as [s|err]; [|reflexivity].
      rewrite !bind_Ok, Hcont.
      destruct (runs_score bl rd pos ((e1, S m) :: rest)) as [t|err];
        [|reflexivity].
      rewrite !bind_Ok. f_equal. ring.
Qed.

(** X8: the partial-credit score of a chromosome is the sum of the scores of
    its maximal runs, taken from left to right: a run of the empty type that
    is not the last one costs its length, and every other run, the last one
    included whatever its type, has the score that [get_slice_score] gives
    it; the first failure on the way is the result. *)
Theorem fitness_2_by_runs (runs : list (Z * nat))
    (biscuits_list : gmap Z biscuit) (roll_defects : gmap Z (gmap string Z)) :
  runs ≠ [] → maximal None runs →
  fitness_2 (expand runs) biscuits_list roll_defects
  = runs_score biscuits_list roll_defects 0 runs.
Proof.
  intros Hne Hmax. destruct runs as [|[e n] rest]; [done|].
  cbn [maximal fst snd] in Hmax. destruct Hmax as (Hn & _ & Hmax).
  rewrite fitness_2_from_start. cbn [expand fst snd].
  assert (Hfirst : index (replicate n e ++ expand rest) 0 = Ok e).
  { destruct n as [|m]; [lia|]. reflexivity. }
  rewrite Hfirst, bind_Ok, fitness_2_from_run.
  rewrite (fitness_2_from_pending _ _ _ _ _ _ _ Hmax). cbn [Nat.add].
  replace (0 + Z.of_nat n - Z.of_nat n) with 0 by lia.
  destruct (runs_score biscuits_list roll_defects 0 ((e, n) :: rest)) as [t|err];
    [|reflexivity].
  rewrite bind_Ok. f_equal. ring.
Qed.

Lemma fitness_2_by_runs_witness :
  fitness_2 (expand [(0, 3%nat); (-1, 1%nat); (2, 2%nat); (3, 1%nat)])
    notebook_biscuits (no_defects 8)
  = runs_score notebook_biscuits (no_defects 8) 0
      [(0, 3%nat); (-1, 1%nat); (2, 2%nat); (3, 1%nat)].
Proof.
  apply (fitness_2_by_runs [(0, 3%nat); (-1, 1%nat); (2, 2%nat); (3, 1%nat)]
           notebook_biscuits (no_defects 8)).
  - discriminate.
  - simpl. repeat split; first [lia | discriminate | congruence].
Defined.

(** ** The slice scorer: what can fail *)

Lemma StronglySorted_sublist {A} (R : relation A) (l1 l2 : list A) :
  l1 `sublist_of` l2 → StronglySorted R l2 → StronglySorted R l1.
Proof.
  induction 1 as [|x l1 l2 Hsub IH|x l1 l2 Hsub IH]; intros Hs.
  - constructor.
  - apply StronglySorted_inv in Hs as [Hs Hx]. constructor; [auto|].
    apply Forall_forall. intros y Hy. rewrite Forall_forall in Hx.
    apply Hx. by apply (elem_of_sublist l1 l2).
  - apply StronglySorted_inv in Hs as [Hs _]. auto.
Qed.

Lemma StronglySorted_lt_NoDup (l : list Z) : StronglySorted Z.lt l → NoDup l.
Proof.
  induction 1 as [|x l _ IH Hx]; constructor; [|done].
  intros Hin. rewrite Forall_forall in Hx. specialize (Hx x Hin). lia.
Qed.

Lemma seqZ_sorted (n : nat) : ∀ m, StronglySorted Z.lt (seqZ m (Z.of_nat n)).
Proof.
  induction n as [|n IH]; intros m.
  - rewrite seqZ_nil by lia. constructor.
  - rewrite seqZ_cons by lia.
    replace (Z.pred (Z.of_nat (S n))) with (Z.of_nat n) by lia.
    constructor; [apply IH|]. apply Forall_forall.
    intros y Hy%elem_of_seqZ. lia.
Qed.

Lemma range_sorted (start end_ : Z) : StronglySorted Z.lt (range start end_).
Proof.
  unfold range. destruct (decide (end_ - start ≤ 0)) as [Hle|Hgt].
  - rewrite seqZ_nil by done. constructor.
  - rewrite <- (Z2Nat.id (end_ - start)) by lia. apply seqZ_sorted.
Qed.

Lemma elem_of_range (x start end_ : Z) : x ∈ range start end_ ↔ start ≤ x < end_.
Proof. unfold range. rewrite elem_of_seqZ. lia. Qed.

(** In a strictly increasing list that starts at [x] and holds [x], ...,
    [x + n - 1], these are its first [n] elements. *)
Lemma take_sorted_range (n : nat) : ∀ (l : list Z) (x : Z),
  StronglySorted Z.lt l → (∀ y, y ∈ l → x ≤ y) →
  (∀ y, x ≤ y < x + Z.of_nat n → y ∈ l) →
  take n l = range x (x + Z.of_nat n).
Proof.
  induction n as [|n IH]; intros l x Hs Hlow Hin.
  - rewrite take_0. unfold range. by rewrite seqZ_nil by lia.
  - assert (Hx : x ∈ l) by (apply Hin; lia).
    destruct l as [|h l]; [by apply elem_of_nil in Hx|].
    apply StronglySorted_inv in Hs as [Hs Hh]. rewrite Forall_forall in Hh.
    assert (h = x) as ->.
    { apply elem_of_cons in Hx as [->|Hx]; [done|].
      specialize (Hh x Hx). specialize (Hlow h). 
      assert (x ≤ h) by (apply Hlow; by left). lia. }
    cbn [take]. rewrite range_cons by lia. f_equal.
    replace (x + Z.of_nat (S n)) with (x + 1 + Z.of_nat n) by lia.
    apply IH; [done|..].
    + intros y Hy. specialize (Hh y Hy). lia.
    + intros y Hy. assert (Hyl : y ∈ x :: l) by (apply Hin; lia).
      apply elem_of_cons in Hyl as [->|Hyl]; [lia|done].
Qed.

Lemma block_of_sorted (u : list Z) (j n : nat) (pos : Z) :
  StronglySorted Z.lt u → u !! j = Some pos →
  (∀ y, pos ≤ y < pos + Z.of_nat n → y ∈ u) →
  take n (drop j u) = range pos (pos + Z.of_nat n).
Proof.
  intros Hs Hj Hin.
  rewrite <- (take_drop j u) in Hs.
  apply StronglySorted_app in Hs as (Hlt & _ & Hdrop).
  assert (Hhead : pos ∈ drop j u).
  { apply list_elem_of_lookup. exists 0%nat. by rewrite lookup_drop, Nat.add_0_r. }
  apply take_sorted_range; [done|..].
  - intros y Hy. destruct (drop j u) as [|h l] eqn:Hd; [by apply elem_of_nil in Hy|].
    assert (h = pos) as ->.
    { assert (Hh : drop j u !! 0%nat = Some h) by (by rewrite Hd).
      rewrite lookup_drop, Nat.add_0_r in Hh. congruence. }
    apply StronglySorted_inv in Hdrop as [_ Hh]. rewrite Forall_forall in Hh.
    apply elem_of_cons in Hy as [->|Hy]; [lia|]. specialize (Hh y Hy). lia.
  - intros y Hy. specialize (Hin y Hy).
    rewrite <- (take_drop j u) in Hin.
    apply elem_of_app in Hin as [Hin|Hin]; [|done].
    specialize (Hlt y pos Hin Hhead). lia.
Qed.

Lemma list_remove_middle (a : Z) (k1 k2 : list Z) :
  a ∉ k1 → list_remove a (k1 ++ a :: k2) = Ok (k1 ++ k2).
Proof.
  induction k1 as [|y k1 IH]; intros Hnot; cbn [app list_remove].
  - by rewrite bool_decide_true.
  - rewrite bool_decide_false by (intros ->; apply Hnot; by left).
    rewrite IH, bind_Ok; [done|]. intros Hin. apply Hnot. by right.
Qed.

(** Removing, in order, elements that sit in [unassigned] in that order
    leaves the others. *)
Lemma remove_assigned_sublist (assigned : list Z) : ∀ unassigned,
  NoDup unassigned → assigned `sublist_of` unassigned →
  ∃ u', remove_assigned assigned unassigned = Ok u'
        ∧ u' `sublist_of` unassigned
        ∧ (length u' + length assigned = length unassigned)%nat.
Proof.
  induction assigned as [|a rest IH]; intros u Hnd Hsub.
  - exists u. repeat split; [done|]. cbn. lia.
  - apply sublist_cons_l in Hsub as (k1 & k2 & -> & Hrest).
    apply NoDup_app in Hnd as (Hnd1 & Hdisj & Hnd2).
    cbn [remove_assigned]. rewrite list_remove_middle, bind_Ok.
    2: { intros Hin. apply (Hdisj a Hin). by left. }
    destruct (IH (k1 ++ k2)) as (u' & -> & Hu' & Hlen).
    + apply NoDup_app. repeat split; [done| |by apply NoDup_cons in Hnd2 as [_ ?]].
      intros x Hx1 Hx2. apply (Hdisj x Hx1). by right.
    + by apply sublist_inserts_l.
    + exists u'. repeat split.
      * etrans; [exact Hu'|]. apply sublist_app; [done|]. by apply sublist_cons.
      * rewrite length_app in Hlen. rewrite length_app. cbn [length]. lia.
Qed.

Section slice_cases.
Context (lb_size : nat) (lb_value : Z) (th : gmap string Z)
        (rd : gmap Z (gmap string Z)).

Lemma slice_pass_cases (u : list Z) (last_size : nat) (fuel : nat) :
  ∀ j score assigned,
    StronglySorted Z.lt u → (1 ≤ last_size)%nat →
    (length u ≤ fuel + j)%nat → assigned `sublist_of` take j u →
    match slice_pass fuel u last_size lb_size lb_value th rd j score assigned
    with
    | Ok sa => sa.2 `sublist_of` u
    | Err e => piece_failure th rd u e
    end.
Proof.
  induction fuel as [|fuel IH]; intros j score assigned Hs Hls Hfuel Hsub;
    cbn [slice_pass]; case_bool_decide as Hj; [lia| | |].
  - cbn. etrans; [exact Hsub|apply sublist_take].
  - destruct (lookup_lt_is_Some_2 u j) as [pos Hpos]; [lia|].
    unfold index. rewrite Hpos, bind_Ok.
    assert (Hnext : assigned `sublist_of` take (j + 1) u).
    { etrans; [exact Hsub|].
      assert (Htake : take j u = take j (take (j + 1) u))
        by (rewrite take_take; f_equal; lia).
      rewrite Htake. apply sublist_take. }
    destruct (forallb _ _) eqn:Hall; [|apply IH; [done|done|lia|done]].
    assert (Hblock : ∀ y, pos ≤ y < pos + Z.of_nat last_size → y ∈ u).
    { intros y Hy. rewrite forallb_forall in Hall.
      eapply bool_decide_eq_true_1, (Hall y), list_elem_of_In, elem_of_range, Hy. }
    destruct (respect_defects th pos (pos + Z.of_nat last_size) rd)
      as [[]|e] eqn:Hok; rewrite ?bind_Ok.
    + apply IH; [done|done|lia|].
      replace (j + (last_size - 1) + 1)%nat with (j + last_size)%nat by lia.
      rewrite <- take_take_drop. apply sublist_app; [done|].
      by rewrite (block_of_sorted u j last_size pos).
    + apply IH; [done|done|lia|done].
    + exists pos, (pos + Z.of_nat last_size). repeat split; [lia|done..].
  - cbn. etrans; [exact Hsub|apply sublist_take].
Qed.

Lemma piece_failure_sublist (u' u : list Z) (e : error) :
  u' `sublist_of` u → piece_failure th rd u' e → piece_failure th rd u e.
Proof.
  intros Hsub (s & t & Hst & Hin & Herr). exists s, t.
  repeat split; [done| |done]. intros x Hx.
  apply (elem_of_sublist u' u); [by apply Hin|done].
Qed.

Lemma slice_loop_cases (last_size : nat) : ∀ u score,
  StronglySorted Z.lt u →
  match slice_loop last_size lb_size lb_value th rd u score with
  | Ok su => su.2 `sublist_of` u
  | Err e => piece_failure th rd u e
  end.
Proof.
  induction last_size as [|n IH]; intros u score Hs;
    [destruct u; cbn; reflexivity|].
  destruct u as [|x u]; [cbn; reflexivity|]. cbn [slice_loop].
  pose proof (slice_pass_cases (x :: u) (S n) (length (x :: u)) 0 score [])
    as Hpass.
  destruct (slice_pass _ _ _ _ _ _ _ _ _ _) as [sa|e].
  2: { apply Hpass; [done|lia|lia|apply sublist_nil_l]. }
  rewrite bind_Ok.
  destruct (remove_assigned_sublist sa.2 (x :: u)) as (u' & -> & Hu' & _).
  { by apply StronglySorted_lt_NoDup. }
  { apply Hpass; [done|lia|lia|apply sublist_nil_l]. }
  rewrite bind_Ok.
  specialize (IH u' sa.1 (StronglySorted_sublist _ _ _ Hu' Hs)).
  destruct (slice_loop n lb_size lb_value th rd u' sa.1) as [su|e].
  - by etrans.
  - by apply (piece_failure_sublist u').
Qed.

(** [get_slice_score] returns a score unless the defect test of a piece of
    the run fails. *)
Lemma get_slice_score_cases position (sz : nat) :
  match get_slice_score position sz lb_size lb_value th rd with
  | Ok _ => True
  | Err e => ∃ s t, position - Z.of_nat sz ≤ s ∧ s < t ∧ t ≤ position
                    ∧ respect_defects th s t rd = Err e
  end.
Proof.
  unfold get_slice_score.
  pose proof (slice_loop_cases (Nat.min lb_size sz)
                (range (position - Z.of_nat sz) position) 0%Qc
                (range_sorted _ _)) as H.
  destruct (slice_loop _ _ _ _ _ _ _) as [su|e]; [done|].
  destruct H as (s & t & Hst & Hin & Herr). exists s, t.
  pose proof (Hin s) as Hs. pose proof (Hin (t - 1)) as Ht.
  rewrite elem_of_range in Hs, Ht. repeat split; [lia|done|lia|done].
Qed.

End slice_cases.

(** X9: [get_slice_score] fails only when the defect test of a piece inside
    the run fails, and then with a key lookup: it never runs out of
    positions, and it never removes a position twice. *)
Theorem get_slice_score_failure (position : Z) (sz lb_size : nat) (lb_value : Z)
    (lb_threshold : gmap string Z) (roll_defects : gmap Z (gmap string Z))
    (e : error) :
  get_slice_score position sz lb_size lb_value lb_threshold roll_defects
    = Err e →
  e = KeyError
  ∧ ∃ s t, position - Z.of_nat sz ≤ s ∧ s < t ∧ t ≤ position
           ∧ respect_defects lb_threshold s t roll_defects = Err KeyError.
Proof.
  intros Herr.
  pose proof (get_slice_score_cases lb_size lb_value lb_threshold roll_defects
                position sz) as H.
  rewrite Herr in H. destruct H as (s & t & Hs & Hst & Ht & Hresp).
  pose proof (respect_defects_error _ _ _ _ _ Hresp) as ->.
  split; [done|]. by exists s, t.
Qed.

Lemma get_slice_score_failure_witness :
  KeyError = KeyError
  ∧ ∃ s t, 2 - Z.of_nat 2 ≤ s ∧ s < t ∧ t ≤ 2
           ∧ respect_defects (thr 1 2 1) s t stray_defects = Err KeyError.
Proof.
  apply (get_slice_score_failure 2 2 2 1 (thr 1 2 1) stray_defects KeyError).
  vm_compute. reflexivity.
Defined.

(** ** When the evaluators return a score *)

Lemma covered_sub rd (lo hi s t : Z) :
  covered rd lo hi → lo ≤ s → t ≤ hi → covered rd s t.
Proof. intros Hcov Hs Ht pos Hpos. apply Hcov. lia. Qed.

Lemma respect_defects_is_Ok th s t rd :
  covered rd s t →
  (∀ k, k ∈ ["a"; "b"; "c"]%string → is_Some (th !! k)) →
  is_Ok (respect_defects th s t rd).
Proof.
  intros Hcov Hth.
  destruct (Hth "a"%string) as [ta Ha]; [set_solver|].
  destruct (Hth "b"%string) as [tb Hb]; [set_solver|].
  destruct (Hth "c"%string) as [tc Hc]; [set_solver|].
  eexists. by apply (respect_defects_totals th s t rd ta tb tc).
Qed.

Lemma get_slice_score_is_Ok position (sz lb_size : nat) lb_value th rd :
  covered rd (position - Z.of_nat sz) position →
  (∀ k, k ∈ ["a"; "b"; "c"]%string → is_Some (th !! k)) →
  is_Ok (get_slice_score position sz lb_size lb_value th rd).
Proof.
  intros Hcov Hth.
  pose proof (get_slice_score_cases lb_size lb_value th rd position sz) as H.
  destruct (get_slice_score _ _ _ _ _ _) as [s|e]; [by exists s|].
  destruct H as (s & t & Hs & Hst & Ht & Herr).
  destruct (respect_defects_is_Ok th s t rd) as [ok Hok]; [|done|congruence].
  by apply (covered_sub rd (position - Z.of_nat sz) position).
Qed.

Section well_formed.
(** A complete catalogue and a table that covers the roll up to [N]. *)
Context (bl : gmap Z biscuit) (rd : gmap Z (gmap string Z)) (N : Z).
Hypothesis Hbl : catalogue_complete bl.
Hypothesis Hrd : covered rd 0 N.

Lemma fitness_1_step_is_Ok i elem st :
  0 ≤ i < N → Z.of_nat (size1 st) ≤ i →
  (elem ≠ -1 → is_Some (bl !! elem)) →
  ∃ st', fitness_1_step bl rd i elem st = Ok st'
         ∧ Z.of_nat (size1 st') ≤ i + 1.
Proof.
  intros Hi Hsz Helem. unfold fitness_1_step. case_bool_decide as Hempty.
  { eexists. split; [done|]. cbn. lia. }
  destruct (Helem Hempty) as [b Hb]. rewrite (getitem_Some _ _ _ Hb), bind_Ok.
  set (sz := if bool_decide (elem ≠ last_elem1 st) then 1%nat
             else S (size1 st)).
  assert (Hsz' : (1 ≤ sz)%nat ∧ Z.of_nat sz ≤ i + 1).
  { unfold sz. case_bool_decide; lia. }
  case_bool_decide as Hfull.
  - destruct (respect_defects_is_Ok (threshold b) (i - Z.of_nat sz + 1) (i + 1) rd)
      as [ok ->].
    + apply (covered_sub rd 0 N); [done|lia..].
    + intros k Hk. by apply (Hbl elem b k).
    + rewrite bind_Ok. destruct ok; eexists; (split; [done|]); cbn; lia.
  - eexists. split; [done|]. cbn. lia.
Qed.

Lemma fitness_1_loop_is_Ok ind : ∀ i st,
  0 ≤ i → i + Z.of_nat (length ind) ≤ N → Z.of_nat (size1 st) ≤ i →
  Forall (λ e, e ≠ -1 → is_Some (bl !! e)) ind →
  is_Ok (fitness_1_loop bl rd i ind st).
Proof.
  induction ind as [|elem ind IH]; intros i st Hi HN Hsz Hind;
    cbn [fitness_1_loop]; [by eexists|].
  apply Forall_cons in Hind as [Helem Hind]. cbn [length] in HN.
  destruct (fitness_1_step_is_Ok i elem st) as (st' & -> & Hsz');
    [lia|done|done|].
  rewrite bind_Ok. apply IH; [lia|lia|done|done].
Qed.

Lemma run_score_is_Ok position (sz : nat) e :
  0 ≤ position - Z.of_nat sz → position ≤ N → is_Some (bl !! e) →
  is_Ok (run_score bl rd position sz e).
Proof.
  intros Hlo Hhi [b Hb]. unfold run_score.
  rewrite (getitem_Some _ _ _ Hb), bind_Ok.
  apply get_slice_score_is_Ok.
  - apply (covered_sub rd 0 N); [done|lia..].
  - intros k Hk. by apply (Hbl e b k).
Qed.

Lemma fitness_2_step_is_Ok i elem st :
  0 ≤ i < N → Z.of_nat (size2 st) ≤ i → is_Some (bl !! last_elem2 st) →
  ∃ st', fitness_2_step bl rd i elem st = Ok st'
         ∧ Z.of_nat (size2 st') ≤ i + 1 ∧ last_elem2 st' = elem.
Proof.
  intros Hi Hsz Hlast. unfold fitness_2_step.
  case_bool_decide; [eexists; split; [done|]; cbn; split; [lia|done]|].
  case_bool_decide; [eexists; split; [done|]; cbn; split; [lia|done]|].
  destruct (run_score_is_Ok i (size2 st) (last_elem2 st)) as [s ->];
    [lia|lia|done|].
  rewrite bind_Ok. eexists. split; [done|]. cbn. split; [lia|done].
Qed.

Lemma fitness_2_loop_is_Ok ind : ∀ i st,
  0 ≤ i → i + Z.of_nat (length ind) ≤ N → Z.of_nat (size2 st) ≤ i →
  is_Some (bl !! last_elem2 st) → Forall (λ e, is_Some (bl !! e)) ind →
  ∃ st', fitness_2_loop bl rd i ind st = Ok st'
         ∧ Z.of_nat (size2 st') ≤ i + Z.of_nat (length ind)
         ∧ is_Some (bl !! last_elem2 st').
Proof.
  induction ind as [|elem ind IH]; intros i st Hi HN Hsz Hlast Hind;
    cbn [fitness_2_loop].
  - exists st. split; [done|]. cbn. split; [lia|done].
  - apply Forall_cons in Hind as [Helem Hind]. cbn [length] in HN.
    destruct (fitness_2_step_is_Ok i elem st) as (st1 & -> & Hsz1 & Hl1);
      [lia|done|done|].
    rewrite bind_Ok.
    destruct (IH (i + 1) st1) as (st' & -> & Hsz' & Hl');
      [lia|lia|done|by rewrite Hl1|done|].
    exists st'. split; [done|]. cbn [length]. split; [lia|done].
Qed.

End well_formed.

(** X10: both evaluators return a score for every chromosome that is not
    empty, whose identifiers are all keys of the catalogue, when every
    threshold mapping of the catalogue has the classes a, b and c and the
    defect table has every position of the chromosome, with no class other
    than a, b and c. *)
Theorem evaluators_return_score (ind : list Z) (biscuits_list : gmap Z biscuit)
    (roll_defects : gmap Z (gmap string Z)) :
  ind ≠ [] → Forall (λ e, is_Some (biscuits_list !! e)) ind →
  catalogue_complete biscuits_list →
  covered roll_defects 0 (Z.of_nat (length ind)) →
  is_Ok (fitness_1 ind biscuits_list roll_defects)
  ∧ is_Ok (fitness_2 ind biscuits_list roll_defects).
Proof.
  intros Hne Hind Hbl Hrd. split.
  - unfold fitness_1.
    destruct (fitness_1_loop_is_Ok biscuits_list roll_defects
                (Z.of_nat (length ind)) Hbl Hrd ind 0 (Scan1 0 0 (-2)))
      as [st ->]; [lia|lia|cbn; lia| |by eexists].
    eapply Forall_impl; [exact Hind|]. by intros e He _.
  - unfold fitness_2. destruct ind as [|first ind']; [done|].
    set (ind := first :: ind') in *. cbn [index]. 
    change (index ind 0) with (Ok (A:=Z) first). rewrite bind_Ok.
    assert (Hfirst : is_Some (biscuits_list !! first)).
    { by apply Forall_cons in Hind as [? _]. }
    destruct (fitness_2_loop_is_Ok biscuits_list roll_defects
                (Z.of_nat (length ind)) Hbl Hrd ind 0 (Scan2 0%Qc 0 first))
      as (st & -> & Hsz & Hlast); [lia|lia|cbn; lia|done|done|].
    rewrite bind_Ok.
    destruct (run_score_is_Ok biscuits_list roll_defects (Z.of_nat (length ind))
                Hbl Hrd (Z.of_nat (length ind)) (size2 st) (last_elem2 st))
      as [s ->]; [lia|lia|done|].
    rewrite bind_Ok. by eexists.
Qed.

Lemma thr_complete (a b c : Z) (k : string) :
  k ∈ ["a"; "b"; "c"]%string → is_Some (thr a b c !! k).
Proof.
  intros Hk. apply elem_of_dom. rewrite dom_thr. unfold pos_defects0.
  rewrite !dom_insert_L. set_solver.
Qed.

Lemma catalogue_complete_notebook : catalogue_complete notebook_biscuits.
Proof.
  intros e b k H Hk. unfold notebook_biscuits in H.
  repeat (apply lookup_insert_Some in H as [[_ <-]|[_ H]];
          [by apply thr_complete|]).
  by rewrite lookup_empty in H.
Qed.

Lemma evaluators_return_score_witness :
  is_Ok (fitness_1 [0; 0; 0; -1; 2; 2; 3] notebook_biscuits (no_defects 7))
  ∧ is_Ok (fitness_2 [0; 0; 0; -1; 2; 2; 3] notebook_biscuits (no_defects 7)).
Proof.
  apply (evaluators_return_score [0; 0; 0; -1; 2; 2; 3] notebook_biscuits
           (no_defects 7)).
  - discriminate.
  - repeat constructor; by eexists.
  - exact catalogue_complete_notebook.
  - apply covered_no_defects; simpl; lia.
Defined.

(** ** How the evaluators fail *)

Lemma run_score_error bl rd position sz e err :
  run_score bl rd position sz e = Err err → err = KeyError.
Proof.
  unfold run_score, getitem. destruct (bl !! e) as [b|]; [|by intros [= <-]].
  rewrite bind_Ok. intros Herr.
  pose proof (get_slice_score_cases (size b) (value b) (threshold b) rd
                position sz) as H.
  rewrite Herr in H. destruct H as (s & t & _ & _ & _ & Hresp).
  by apply respect_defects_error in Hresp.
Qed.

Lemma fitness_2_step_error bl rd i elem st err :
  fitness_2_step bl rd i elem st = Err err → err = KeyError.
Proof.
  unfold fitness_2_step. do 2 (case_bool_decide; [done|]).
  destruct (run_score bl rd i (size2 st) (last_elem2 st)) as [s|e'] eqn:Hrun;
    [done|].
  intros [= <-]. by apply run_score_error in Hrun.
Qed.

Lemma fitness_2_loop_error bl rd ind : ∀ i st err,
  fitness_2_loop bl rd i ind st = Err err → err = KeyError.
Proof.
  induction ind as [|elem ind IH]; intros i st err; cbn [fitness_2_loop]; [done|].
  destruct (fitness_2_step bl rd i elem st) as [st'|e'] eqn:Hstep.
  - rewrite bind_Ok. apply IH.
  - intros [= <-]. by apply fitness_2_step_error in Hstep.
Qed.

Lemma fitness_2_error bl rd ind err :
  ind ≠ [] → fitness_2 ind bl rd = Err err → err = KeyError.
Proof.
  intros Hne. unfold fitness_2. destruct ind as [|first ind]; [done|].
  cbn [index]. change (index (first :: ind) 0) with (Ok (A:=Z) first).
  rewrite bind_Ok.
  destruct (fitness_2_loop bl rd 0 (first :: ind) _) as [st|e'] eqn:Hloop.
  - rewrite bind_Ok.
    destruct (run_score bl rd _ (size2 st) (last_elem2 st)) as [s|e'] eqn:Hrun;
      [done|].
    intros [= <-]. by apply run_score_error in Hrun.
  - intros [= <-]. by apply fitness_2_loop_error in Hloop.
Qed.

(** X11: the strict evaluator fails with a key lookup only; the
    partial-credit evaluator fails with an index error on the empty
    chromosome, which has no first position, and with a key lookup only on
    every other chromosome. *)
Theorem evaluators_failures (ind : list Z) (biscuits_list : gmap Z biscuit)
    (roll_defects : gmap Z (gmap string Z)) :
  (∀ err, fitness_1 ind biscuits_list roll_defects = Err err → err = KeyError)
  ∧ fitness_2 [] biscuits_list roll_defects = Err IndexError
  ∧ (∀ err, ind ≠ [] →
            fitness_2 ind biscuits_list roll_defects = Err err →
            err = KeyError).
Proof.
  split; [|split].
  - intros err. unfold fitness_1.
    destruct (fitness_1_loop biscuits_list roll_defects 0 ind _) as [st|e']
      eqn:Hloop; [done|].
    intros [= <-]. by apply fitness_1_loop_error in Hloop.
  - reflexivity.
  - intros err. apply fitness_2_error.
Qed.

Lemma fitness_2_loop_last bl rd ind : ∀ i st st',
  fitness_2_loop bl rd i ind st = Ok st' →
  last_elem2 st' = default (last_elem2 st) (last ind).
Proof.
  induction ind as [|elem ind IH]; intros i st st'; cbn [fitness_2_loop].
  - by intros [= <-].
  - intros (st1 & Hstep & Hloop)%bind_Ok_inv.
    rewrite (IH _ _ _ Hloop).
    assert (Hl1 : last_elem2 st1 = elem).
    { unfold fitness_2_step in Hstep.
      repeat case_bool_decide; try (by injection Hstep as <-).
      apply bind_Ok_inv in Hstep as (s & _ & [= <-]). done. }
    rewrite Hl1. destruct ind as [|e' ind]; [done|].
    rewrite last_cons_cons.
    destruct (last (e' :: ind)) as [x|] eqn:Hl; [done|].
    by apply last_None in Hl.
Qed.

(** X12: the partial-credit evaluator reads the catalogue entry of the type
    of the last position, whatever this type, the empty type included: when
    the catalogue has no such entry it fails with a key lookup. *)
Theorem fitness_2_last_type (ind : list Z) (e : Z)
    (biscuits_list : gmap Z biscuit) (roll_defects : gmap Z (gmap string Z)) :
  last ind = Some e → biscuits_list !! e = None →
  fitness_2 ind biscuits_list roll_defects = Err KeyError.
Proof.
  intros Hlast Hnone.
  assert (Hne : ind ≠ []) by (intros ->; done).
  destruct (fitness_2 ind biscuits_list roll_defects) as [s|err] eqn:Hfit.
  - exfalso. unfold fitness_2 in Hfit.
    apply bind_Ok_inv in Hfit as (first & _ & Hfit).
    apply bind_Ok_inv in Hfit as (st & Hloop & Hfit).
    apply bind_Ok_inv in Hfit as (s' & Hrun & _).
    apply fitness_2_loop_last in Hloop. rewrite Hlast in Hloop. cbn in Hloop.
    unfold run_score in Hrun. rewrite Hloop, (getitem_None _ _ Hnone) in Hrun.
    done.
  - f_equal. by apply (fitness_2_error biscuits_list roll_defects ind).
Qed.

Lemma fitness_2_last_type_witness :
  fitness_2 [0; -1] tight_biscuits one_a_defect = Err KeyError.
Proof.
  apply (fitness_2_last_type [0; -1] (-1) tight_biscuits one_a_defect).
  - reflexivity.
  - reflexivity.
Defined.

(** ** A run made of whole biscuits *)

Lemma slice_value_full (R : nat) (v : Z) :
  (1 ≤ R)%nat → slice_value R R v = Qc_of_Z v.
Proof.
  intros HR. unfold slice_value.
  assert (Hne : Qc_of_Z (Z.of_nat R) ≠ 0%Qc).
  { rewrite <- Z2Qc_inj_0. intros H%Z2Qc_inj. lia. }
  unfold Qcdiv. rewrite Qcmult_inv_r by done. cbn [Qcpower]. ring.
Qed.

Lemma slice_loop_step (last_size lb_size : nat) lb_value th rd u score :
  (1 ≤ last_size)%nat → u ≠ [] →
  slice_loop last_size lb_size lb_value th rd u score
  = (sa ← slice_pass (length u) u last_size lb_size lb_value th rd 0 score [];
     unassigned' ← remove_assigned sa.2 u;
     slice_loop (last_size - 1) lb_size lb_value th rd unassigned' sa.1).
Proof.
  intros Hls Hu. destruct last_size as [|n]; [lia|]. destruct u; [done|].
  cbn [slice_loop]. by rewrite Nat.sub_succ, Nat.sub_0_r.
Qed.

Section whole_biscuits.
Context (R : nat) (v : Z) (th : gmap string Z) (rd : gmap Z (gmap string Z)).
Context (lo : Z) (k : nat).
Hypothesis HR : (1 ≤ R)%nat.
Hypothesis Hvalid : ∀ i, (i < k)%nat →
  respect_defects th (lo + Z.of_nat (i * R)) (lo + Z.of_nat (i * R) + Z.of_nat R) rd
  = Ok true.

(** The first pass takes the [t] biscuits that are left, one after the
    other. *)
Lemma slice_pass_packs (t : nat) : ∀ i fuel score assigned,
  (i + t = k)%nat → (t ≤ fuel)%nat →
  slice_pass fuel (range lo (lo + Z.of_nat (k * R))) R R v th rd (i * R) score
    assigned
  = Ok ((score + Qc_of_Z (Z.of_nat t * v))%Qc,
        assigned ++ range (lo + Z.of_nat (i * R)) (lo + Z.of_nat (k * R))).
Proof.
  induction t as [|t IH]; intros i fuel score assigned Hi Hfuel.
  - assert (i = k) as -> by lia.
    destruct fuel; cbn [slice_pass];
      rewrite bool_decide_false by (rewrite range_length; lia);
      (f_equal; f_equal;
       [rewrite Z.mul_0_l, Z2Qc_inj_0; ring
       |unfold range; rewrite seqZ_nil by lia; by rewrite app_nil_r]).
  - destruct fuel as [|fuel]; [lia|]. cbn [slice_pass].
    assert (Hle : (S i * R ≤ k * R)%nat) by (apply Nat.mul_le_mono_r; lia).
    change (S i * R)%nat with (R + i * R)%nat in Hle.
    rewrite bool_decide_true by (rewrite range_length; lia).
    assert (Hidx : index (range lo (lo + Z.of_nat (k * R))) (i * R)
                   = Ok (lo + Z.of_nat (i * R))).
    { unfold index, range. rewrite lookup_seqZ_lt by lia. done. }
    rewrite Hidx, bind_Ok.
    assert (Hall : forallb
              (λ elem, bool_decide (elem ∈ range lo (lo + Z.of_nat (k * R))))
              (range (lo + Z.of_nat (i * R)) (lo + Z.of_nat (i * R) + Z.of_nat R))
            = true).
    { apply forallb_forall. intros x Hx%list_elem_of_In%elem_of_range.
      apply bool_decide_eq_true, elem_of_range. lia. }
    rewrite Hall, Hvalid, bind_Ok by lia.
    replace (i * R + (R - 1) + 1)%nat with (S i * R)%nat
      by (change (S i * R)%nat with (R + i * R)%nat; lia).
    rewrite IH by lia. f_equal. f_equal.
    + rewrite slice_value_full by done.
      replace (Z.of_nat (S t) * v) with (v + Z.of_nat t * v) by lia.
      rewrite Z2Qc_inj_add. ring.
    + rewrite <- app_assoc. f_equal.
      change (S i * R)%nat with (R + i * R)%nat.
      replace (lo + Z.of_nat (R + i * R))
        with (lo + Z.of_nat (i * R) + Z.of_nat R) by lia.
      symmetry. apply range_split. lia.
Qed.

Lemma get_slice_score_packs :
  (1 ≤ k)%nat →
  get_slice_score (lo + Z.of_nat (k * R)) (k * R) R v th rd
  = Ok (Qc_of_Z (Z.of_nat k * v)).
Proof.
  intros Hk. unfold get_slice_score.
  assert (HkR : (R ≤ k * R)%nat) by nia.
  rewrite Nat.min_l by done.
  replace (lo + Z.of_nat (k * R) - Z.of_nat (k * R)) with lo by lia.
  assert (Hlen : length (range lo (lo + Z.of_nat (k * R))) = (k * R)%nat)
    by (rewrite range_length; lia).
  rewrite slice_loop_step; [|done|].
  2: { intros Hnil. rewrite Hnil in Hlen. cbn in Hlen. lia. }
  pose proof (slice_pass_packs k 0 (length (range lo (lo + Z.of_nat (k * R))))
                0%Qc []) as Hpass.
  cbn [Nat.mul] in Hpass. rewrite Hpass.
  2: lia.
  2: { rewrite Hlen. nia. }
  rewrite bind_Ok. cbn [fst snd app]. rewrite Z.add_0_r.
  rewrite remove_assigned_self, bind_Ok, slice_loop_nil, bind_Ok.
  cbn [fst snd length]. f_equal. change (Z.of_nat 0) with 0.
  rewrite Z2Qc_inj_0. ring.
Qed.

End whole_biscuits.

Lemma fitness_1_loop_biscuits bl rd e b (k : nat) : ∀ i st,
  e ≠ -1 → bl !! e = Some b → (1 ≤ size b)%nat → size1 st = 0%nat →
  (∀ t, (t < k)%nat →
        respect_defects (threshold b) (i + Z.of_nat (t * size b))
          (i + Z.of_nat (t * size b) + Z.of_nat (size b)) rd = Ok true) →
  ∃ st', fitness_1_loop bl rd i (replicate (k * size b) e) st = Ok st'
         ∧ score1 st' = score1 st + Z.of_nat k * value b
         ∧ size1 st' = 0%nat.
Proof.
  induction k as [|k IH]; intros i st He Hb Hsize Hst Hvalid.
  - exists st. repeat split; [lia|done].
  - change (S k * size b)%nat with (size b + k * size b)%nat.
    rewrite replicate_add, fitness_1_loop_app, length_replicate.
    destruct (fitness_1_loop_biscuit bl rd e b He Hb Hsize 0 i st)
      as (st1 & Hloop & Hscore1 & Hsz1); [done|intros t Ht; lia| |].
    { specialize (Hvalid 0%nat). cbn [Nat.mul] in Hvalid.
      rewrite !Z.add_0_r in *. apply Hvalid. lia. }
    cbn [Nat.add] in Hloop. rewrite Hloop, bind_Ok.
    destruct (IH (i + Z.of_nat (size b)) st1) as (st' & -> & Hscore' & Hsz');
      [done..| |].
    { intros t Ht. specialize (Hvalid (S t)).
      change (S t * size b)%nat with (size b + t * size b)%nat in Hvalid.
      replace (i + Z.of_nat (size b) + Z.of_nat (t * size b))
        with (i + Z.of_nat (size b + t * size b)) by lia.
      apply Hvalid. lia. }
    exists st'. repeat split; [lia|done].
Qed.

Lemma fitness_2_single_run bl rd (L : nat) e :
  (1 ≤ L)%nat →
  fitness_2 (replicate L e) bl rd
  = (s ← run_score bl rd (Z.of_nat L) L e; Ok (0 + s)%Qc).
Proof.
  intros HL. rewrite fitness_2_from_start.
  assert (Hfirst : index (replicate L e) 0 = Ok e).
  { destruct L as [|l]; [lia|]. reflexivity. }
  rewrite Hfirst, bind_Ok.
  rewrite <- (app_nil_r (replicate L e)), fitness_2_from_run.
  unfold fitness_2_from. cbn [fitness_2_loop length Nat.add].
  rewrite bind_Ok. cbn [size2 last_elem2 score2].
  by rewrite Z.add_0_l, Z.add_0_r.
Qed.

(** X13: a chromosome that is one run of [k] times the size of its biscuit,
    where each of the [k] consecutive windows of that size passes the defect
    test, scores [k] times the value of the biscuit under both evaluators. *)
Theorem whole_biscuits_agree (k : nat) (e : Z) (b : biscuit)
    (biscuits_list : gmap Z biscuit) (roll_defects : gmap Z (gmap string Z)) :
  e ≠ -1 → biscuits_list !! e = Some b → (1 ≤ size b)%nat → (1 ≤ k)%nat →
  (∀ t, (t < k)%nat →
        respect_defects (threshold b) (0 + Z.of_nat (t * size b))
          (0 + Z.of_nat (t * size b) + Z.of_nat (size b)) roll_defects
        = Ok true) →
  fitness_1 (replicate (k * size b) e) biscuits_list roll_defects
    = Ok (Z.of_nat k * value b)
  ∧ fitness_2 (replicate (k * size b) e) biscuits_list roll_defects
    = Ok (Qc_of_Z (Z.of_nat k * value b)).
Proof.
  intros He Hb Hsize Hk Hvalid. split.
  - unfold fitness_1.
    destruct (fitness_1_loop_biscuits biscuits_list roll_defects e b k 0
                (Scan1 0 0 (-2)) He Hb Hsize) as (st & -> & Hscore & Hsz);
      [done|done|].
    rewrite bind_Ok. f_equal. cbn [score1] in Hscore. lia.
  - rewrite fitness_2_single_run by nia. unfold run_score.
    rewrite (getitem_Some _ _ _ Hb), bind_Ok.
    pose proof (get_slice_score_packs (size b) (value b) (threshold b)
                  roll_defects 0 k Hsize Hvalid Hk) as Hpacks.
    rewrite Z.add_0_l in Hpacks. rewrite Hpacks, bind_Ok. f_equal. ring.
Qed.

Lemma whole_biscuits_agree_witness :
  fitness_1 (replicate (3 * 2) 2) notebook_biscuits (no_defects 6)
    = Ok (Z.of_nat 3 * 1)
  ∧ fitness_2 (replicate (3 * 2) 2) notebook_biscuits (no_defects 6)
    = Ok (Qc_of_Z (Z.of_nat 3 * 1)).
Proof.
  apply (whole_biscuits_agree 3 2 (Biscuit 1 2 (thr 1 2 1)) notebook_biscuits
           (no_defects 6)).
  - lia.
  - reflexivity.
  - simpl. lia.
  - lia.
  - intros t Ht.
    assert (t = 0 ∨ t = 1 ∨ t = 2)%nat as [->|[->| ->]] by lia;
      vm_compute; reflexivity.
Defined.

(** ** Where the genes of a child come from *)

Lemma splice_lookup (child q : list Z) (start end_ g : nat) :
  length child = length q →
  splice child q start end_ !! g
  = if bool_decide (start ≤ g < end_)%nat then q !! g else child !! g.
Proof.
  intros Hlen. unfold splice. rewrite slice_length. unfold slice.
  destruct (decide (length child ≤ start)%nat) as [Hout|Hin].
  - rewrite take_ge, (drop_ge q), take_nil, drop_ge, !app_nil_r by lia.
    case_bool_decide; [|done].
    by rewrite !lookup_ge_None_2 by lia.
  - destruct (decide (g < start)%nat) as [Hlt|Hge].
    + rewrite bool_decide_false by lia.
      rewrite lookup_app_l by (rewrite length_take; lia).
      by apply lookup_take_lt.
    + rewrite lookup_app_r by (rewrite length_take; lia).
      rewrite length_take, Nat.min_l by lia.
      destruct (decide (g < end_ ∧ g < length q)%nat) as [Hseg|Hrest].
      * rewrite bool_decide_true by lia.
        rewrite lookup_app_l by (rewrite length_take, length_drop; lia).
        rewrite lookup_take_lt, lookup_drop by lia. f_equal. lia.
      * rewrite lookup_app_r by (rewrite length_take, length_drop; lia).
        rewrite length_take, length_drop, lookup_drop.
        replace (start + Nat.min (end_ - start) (length q - start)
                 + (g - start - Nat.min (end_ - start) (length q - start)))%nat
          with g by lia.
        case_bool_decide; [|done]. by rewrite !lookup_ge_None_2 by lia.
Qed.

Lemma insert_sorted_sorted (x : nat) (l : list nat) :
  StronglySorted le l → StronglySorted le (insert_sorted x l).
Proof.
  induction 1 as [|y l Hs IH Hy]; cbn [insert_sorted].
  - by repeat constructor.
  - case_bool_decide as Hxy.
    + constructor; [by constructor|]. constructor; [done|].
      eapply Forall_impl; [exact Hy|]. intros z Hz. cbn in Hz. lia.
    + constructor; [done|]. apply Forall_forall.
      intros z [->|Hz]%elem_of_insert_sorted; [lia|].
      by apply (proj1 (Forall_forall _ _) Hy).
Qed.

Lemma sort_sorted (l : list nat) : StronglySorted le (sort l).
Proof.
  induction l as [|x l IH]; [constructor|].
  cbn [sort foldr]. fold (sort l). by apply insert_sorted_sorted.
Qed.

Lemma last_sort_ge (l : list nat) (x : nat) :
  x ∈ l → ∃ m, last (sort l) = Some m ∧ (x ≤ m)%nat.
Proof.
  intros Hx%elem_of_sort.
  destruct (last (sort l)) as [m|] eqn:Hlast.
  - exists m. split; [done|]. pose proof (sort_sorted l) as Hs.
    apply last_Some in Hlast as [l' Hl']. rewrite Hl' in Hx, Hs.
    apply elem_of_app in Hx as [Hx|Hx].
    + apply (StronglySorted_app_1_elem_of _ _ _ x m Hs Hx).
      by apply list_elem_of_singleton.
    + apply list_elem_of_singleton in Hx. lia.
  - apply last_None in Hlast. rewrite Hlast in Hx. by apply elem_of_nil in Hx.
Qed.

(** The genes before the current break point come from the parents, and
    each turn of the loop extends this to the next break point. *)
Lemma crossover_loop_origin p1 p2 coin (bps : list nat) :
  length p1 = length p2 → ∀ i child start,
  head bps = Some start → length child = length p1 →
  (∀ g, (g < start)%nat → from_parents p1 p2 child g) →
  ∃ child' last_,
    crossover_loop p1 p2 coin i bps child = Ok child'
    ∧ length child' = length p1
    ∧ last bps = Some last_
    ∧ ∀ g, (g < last_)%nat → from_parents p1 p2 child' g.
Proof.
  intros Hp. induction bps as [|b bps IH]; intros i child start Hhd Hlen Hinv;
    [done|].
  injection Hhd as ->. destruct bps as [|end_ rest].
  - exists child, start. by repeat split.
  - rewrite crossover_loop_cons.
    set (chosen_p := if bool_decide (coin i < 1 / 2)%Qc then p1 else p2).
    assert (Hchosen : length child = length chosen_p).
    { unfold chosen_p. destruct (bool_decide _); congruence. }
    rewrite set_slice_splice, bind_Ok by done.
    destruct (IH (S i) (splice child chosen_p start end_) end_)
      as (child' & last_ & Hloop & Hlen' & Hlast & Hinv');
      [done|by rewrite splice_length| |].
    + intros g Hg. unfold from_parents. rewrite splice_lookup by done.
      case_bool_decide; [|apply Hinv; lia].
      unfold chosen_p. destruct (bool_decide _); [by left|by right].
    + exists child', last_. repeat split; [done|done| |done].
      by rewrite last_cons_cons.
Qed.

Lemma crossover_from_parents (parent1 parent2 : list Z) (bp : nat * nat * nat)
    (coin : nat → Qc) :
  length parent1 = length parent2 →
  ∃ child, crossover parent1 parent2 bp coin = Ok child
           ∧ length child = length parent1
           ∧ ∀ g, (g < length parent1)%nat → from_parents parent1 parent2 child g.
Proof.
  intros Hp. unfold crossover.
  set (bps := [0%nat; length parent1; bp.1.1; bp.1.2; bp.2]).
  destruct (crossover_loop_origin parent1 parent2 coin (sort bps) Hp 0%nat
              (replicate (length parent1) 0) 0%nat)
    as (child & last_ & Hloop & Hlen & Hlast & Hinv).
  - apply head_sort_0. apply elem_of_cons. by left.
  - apply length_replicate.
  - intros g Hg. lia.
  - destruct (last_sort_ge bps (length parent1)) as (m & Hm & Hle).
    { apply elem_of_cons. right. apply elem_of_cons. by left. }
    exists child. split; [done|]. split; [done|].
    intros g Hg. apply Hinv. rewrite Hm in Hlast. injection Hlast as <-. lia.
Qed.

Lemma from_parents_Forall (P : Z → Prop) (parent1 parent2 child : list Z) :
  length child = length parent1 →
  (∀ g, (g < length parent1)%nat → from_parents parent1 parent2 child g) →
  Forall P parent1 → Forall P parent2 → Forall P child.
Proof.
  intros Hlen Hfrom H1 H2. apply Forall_lookup. intros g x Hx.
  assert (Hg : (g < length parent1)%nat).
  { rewrite <- Hlen. by apply lookup_lt_is_Some_1. }
  destruct (Hfrom g Hg) as [Heq|Heq]; rewrite Hx in Heq.
  - by apply (Forall_lookup_1 _ _ _ _ H1 (eq_sym Heq)).
  - by apply (Forall_lookup_1 _ _ _ _ H2 (eq_sym Heq)).
Qed.

(** X14: for parents of one length, the cross over returns a child of that
    length, and every gene of the child is the gene of one of the parents at
    the same position, whatever the break points and the draws; so what
    holds of every gene of both parents holds of every gene of the child. *)
Theorem crossover_gene_origin (parent1 parent2 : list Z) (bp : nat * nat * nat)
    (coin : nat → Qc) :
  length parent1 = length parent2 →
  ∃ child, crossover parent1 parent2 bp coin = Ok child
           ∧ length child = length parent1
           ∧ (∀ g, (g < length parent1)%nat →
                   from_parents parent1 parent2 child g)
           ∧ ∀ P : Z → Prop,
               Forall P parent1 → Forall P parent2 → Forall P child.
Proof.
  intros Hp.
  destruct (crossover_from_parents parent1 parent2 bp coin Hp)
    as (child & Hchild & Hlen & Hfrom).
  exists child. repeat split; [done..|].
  intros P. by apply from_parents_Forall.
Qed.

Lemma crossover_gene_origin_witness :
  ∃ child, crossover [0; 0; 1; 1; 2] [3; 3; 3; -1; -1] (4, 1, 2)%nat
             (λ i, if bool_decide (i = 1)%nat then 0%Qc else 1%Qc) = Ok child
           ∧ length child = length [0; 0; 1; 1; 2]
           ∧ (∀ g, (g < length [0; 0; 1; 1; 2])%nat →
                   from_parents [0; 0; 1; 1; 2] [3; 3; 3; -1; -1] child g)
           ∧ ∀ P : Z → Prop,
               Forall P [0; 0; 1; 1; 2] → Forall P [3; 3; 3; -1; -1] →
               Forall P child.
Proof.
  apply (crossover_gene_origin [0; 0; 1; 1; 2] [3; 3; 3; -1; -1] (4, 1, 2)%nat).
  reflexivity.
Defined.

(** ** The extremes of the mutation rate *)

Lemma mutation_all (rate : Qc) draw new_gene child :
  (∀ g, (draw g ≤ rate)%Qc) →
  mutation rate draw new_gene child = new_gene <$> seq 0 (length child).
Proof.
  intros Hdraw. apply list_eq. intros g. unfold mutation.
  rewrite list_lookup_imap, list_lookup_fmap.
  destruct (child !! g) as [gene|] eqn:Hg.
  - rewrite lookup_seq_lt by (by apply lookup_lt_is_Some_1). cbn.
    rewrite bool_decide_false; [done|]. by apply Qcle_not_lt.
  - by rewrite lookup_seq_ge by (by apply lookup_ge_None_1).
Qed.

Lemma mutation_none (rate : Qc) draw new_gene child :
  (∀ g, (rate < draw g)%Qc) → mutation rate draw new_gene child = child.
Proof.
  intros Hdraw. apply list_eq. intros g. unfold mutation.
  rewrite list_lookup_imap. destruct (child !! g) as [gene|]; [|done].
  cbn. by rewrite bool_decide_true.
Qed.

(** X15: the draws of [random.random()] lie in [0, 1).  With a rate of 1 or
    more every gene is replaced by its random gene; with a negative rate the
    child is left as it is. *)
Theorem mutation_extremes (high low : Qc) (draw : nat → Qc) (new_gene : nat → Z)
    (child : list Z) :
  (∀ g, (0 ≤ draw g)%Qc ∧ (draw g < 1)%Qc) →
  (1 ≤ high)%Qc → (low < 0)%Qc →
  mutation high draw new_gene child = new_gene <$> seq 0 (length child)
  ∧ mutation low draw new_gene child = child.
Proof.
  intros Hdraw Hhigh Hlow. split.
  - apply mutation_all. intros g. destruct (Hdraw g) as [_ Hlt].
    apply Qclt_le_weak. by eapply Qclt_le_trans.
  - apply mutation_none. intros g. destruct (Hdraw g) as [Hge _].
    by eapply Qclt_le_trans.
Qed.

Lemma mutation_extremes_witness :
  mutation 1%Qc (λ _, 0%Qc) (λ g, Z.of_nat g - 1) [0; 0; 2]
    = (λ g, Z.of_nat g - 1) <$> seq 0 (length [0; 0; 2])
  ∧ mutation (-1)%Qc (λ _, 0%Qc) (λ g, Z.of_nat g - 1) [0; 0; 2] = [0; 0; 2].
Proof.
  apply (mutation_extremes 1%Qc (-1)%Qc (λ _, 0%Qc)).
  - intros _. split; [apply Qcle_refl|reflexivity].
  - apply Qcle_refl.
  - reflexivity.
Defined.

(** ** The shape of the population *)

Lemma mutation_in_range rate draw new_gene child :
  Forall gene_in_range child → (∀ g, gene_in_range (new_gene g)) →
  Forall gene_in_range (mutation rate draw new_gene child).
Proof.
  intros Hchild Hnew. apply Forall_lookup. intros g x. unfold mutation.
  rewrite list_lookup_imap. destruct (child !! g) as [gene|] eqn:Hg; [|done].
  cbn. intros [= <-]. case_bool_decide; [|done].
  by apply (Forall_lookup_1 _ _ _ _ Hchild Hg).
Qed.

Lemma make_child_shape population probs rate d (L : nat) :
  (2 ≤ length population)%nat → (3 ≤ L)%nat →
  Forall (well_shaped L) population →
  ((parents_indices d).1 < length population)%nat →
  ((parents_indices d).2 < length population)%nat →
  (∀ g, gene_in_range (random_gene d g)) →
  ∃ child, make_child population probs rate d = Ok child ∧ well_shaped L child.
Proof.
  intros HN HL Hshape H1 H2 Hgene. unfold make_child, np_random_choice.
  rewrite bool_decide_false, bind_Ok by lia. unfold index.
  destruct (lookup_lt_is_Some_2 population _ H1) as [parent1 Hp1].
  destruct (lookup_lt_is_Some_2 population _ H2) as [parent2 Hp2].
  rewrite Hp1, bind_Ok, Hp2, bind_Ok.
  destruct (Forall_lookup_1 _ _ _ _ Hshape Hp1) as [Hl1 Hr1].
  destruct (Forall_lookup_1 _ _ _ _ Hshape Hp2) as [Hl2 Hr2].
  rewrite bool_decide_false, bind_Ok by lia.
  destruct (crossover_from_parents parent1 parent2 (break_points d)
              (segment_draw d)) as (child & -> & Hlen & Hfrom); [congruence|].
  rewrite bind_Ok. eexists. split; [done|]. split.
  - rewrite mutation_length. congruence.
  - apply mutation_in_range; [|done].
    by apply (from_parents_Forall _ parent1 parent2).
Qed.

Lemma breed_shape population probs rate rnd (L : nat) (need : nat) :
  (2 ≤ length population)%nat → (3 ≤ L)%nat →
  Forall (well_shaped L) population → fair_draws (length population) rnd →
  ∀ c new_population,
  ∃ children,
    breed need c population probs rate rnd new_population
      = Ok (new_population ++ children)
    ∧ length children = need ∧ Forall (well_shaped L) children.
Proof.
  intros HN HL Hshape Hrnd.
  induction need as [|need IH]; intros c new_population.
  - exists []. by rewrite app_nil_r.
  - cbn [breed]. destruct (Hrnd c) as (H1 & H2 & Hgene).
    destruct (make_child_shape population probs rate (rnd c) L)
      as (child & -> & Hchild); [done..|].
    rewrite bind_Ok.
    destruct (IH (S c) (new_population ++ [child]))
      as (children & -> & Hn & Hchildren).
    exists (child :: children). rewrite <- app_assoc. split; [done|].
    split; [cbn; lia|by constructor].
Qed.

Lemma individuals_Forall (P : list Z → Prop) population (idx : list nat) :
  Forall P population → Forall (λ i, i < length population)%nat idx →
  Forall P (individual population <$> idx).
Proof.
  intros HP Hidx. apply Forall_fmap. eapply Forall_impl; [exact Hidx|].
  intros i Hi. cbn. unfold individual.
  destruct (lookup_lt_is_Some_2 population i Hi) as [ind Hind].
  rewrite Hind. cbn. by apply (Forall_lookup_1 _ _ _ _ HP Hind).
Qed.

Lemma evolve_pop_well_shaped `{Hnp : !ArgsortSorts np}
    population mutation_rate elite_ratio bl rd
    fitness rnd (L : nat) :
  population ≠ [] →
  Forall (λ ind, is_Ok (fitness ind bl rd)) population →
  (3 ≤ L)%nat → Forall (well_shaped L) population →
  fair_draws (length population) rnd → (0 ≤ elite_ratio)%Qc →
  ∃ r, evolve_pop population mutation_rate elite_ratio bl rd fitness rnd = Ok r
       ∧ length r = length population ∧ Forall (well_shaped L) r.
Proof.
  intros Hne Hfit HL Hshape Hrnd Hr. unfold evolve_pop.
  destruct (fitness_list_Ok _ _ _ _ Hfit) as [fv Hfv].
  pose proof (fitness_list_length _ _ _ _ _ Hfv) as Hfvlen.
  rewrite Hfv, bind_Ok.
  pose proof (elite_idx_valid population elite_ratio fv Hfvlen) as Hidx.
  rewrite (pick_Ok _ _ Hidx), bind_Ok.
  set (elites := individual population <$> elite_idx population elite_ratio fv).
  assert (Hfvne : fv ≠ []) by (intros ->; by destruct population).
  destruct (py_min_Ok fv Hfvne) as [min_fitness ->]. rewrite bind_Ok.
  assert (Hel : (1 ≤ length elites ≤ length population)%nat).
  { unfold elites, elite_idx. rewrite length_fmap. split.
    - apply slice_from_nonpos_length; [by apply elite_start_nonpos|].
      intros Hnil. apply (f_equal length) in Hnil.
      rewrite argsort_length in Hnil. by destruct fv.
    - etrans; [apply slice_from_length_le|]. by rewrite argsort_length, Hfvlen. }
  assert (Helites : Forall (well_shaped L) elites).
  { by apply individuals_Forall. }
  destruct (decide (length population - length elites = 0)%nat) as [H0|Hpos].
  - rewrite H0. cbn [breed]. rewrite bind_Ok.
    exists elites. split; [done|]. split; [cbn; lia|done].
  - destruct (breed_shape population
                (probabilities (shifted_fitness fv min_fitness)) mutation_rate
                rnd L (length population - length elites))
      with (c := 0%nat) (new_population := @nil (list Z))
      as (children & -> & Hn & Hchildren); [lia|done..|].
    rewrite bind_Ok. exists (children ++ elites). split; [reflexivity|].
    split; [rewrite length_app; lia|by apply Forall_app].
Qed.

(** X16: a generation keeps the shape of the population.  For a non-empty
    population of chromosomes of one length of at least 3 with genes in
    [-1, 3] that the fitness method scores, an elite ratio that is not
    negative, and draws that pick parents among the individuals and genes
    in [-1, 3], [evolve_pop] returns as many chromosomes, each of that
    length and with genes in [-1, 3]. *)
Theorem evolve_pop_shape `{Hnp : !ArgsortSorts np} (population : list (list Z))
    (mutation_rate elite_ratio : Qc) (biscuits_list : gmap Z biscuit)
    (roll_defects : gmap Z (gmap string Z)) (fitness : fitness_fn)
    (rnd : nat → child_draws) (L : nat) :
  population ≠ [] →
  Forall (λ ind, is_Ok (fitness ind biscuits_list roll_defects)) population →
  (3 ≤ L)%nat → Forall (well_shaped L) population →
  fair_draws (length population) rnd → (0 ≤ elite_ratio)%Qc →
  ∃ new_population,
    evolve_pop population mutation_rate elite_ratio biscuits_list roll_defects
      fitness rnd = Ok new_population
    ∧ length new_population = length population
    ∧ Forall (well_shaped L) new_population.
Proof. apply evolve_pop_well_shaped. Qed.

Lemma example_population_shaped : Forall (well_shaped 4) example_population.
Proof.
  unfold example_population.
  repeat (apply Forall_cons_2;
          [split; [reflexivity|];
           repeat (apply Forall_cons_2; [unfold gene_in_range; lia|]);
           apply Forall_nil_2|]).
  apply Forall_nil_2.
Qed.

Lemma example_draws_fair : fair_draws 4 example_draws.
Proof.
  intros c. cbn. split; [lia|]. split; [lia|].
  intros _. unfold gene_in_range. lia.
Qed.

Lemma evolve_pop_shape_witness :
  ∃ new_population,
    evolve_pop example_population (1 / Qc_of_Z 2)%Qc (1 / Qc_of_Z 2)%Qc
      notebook_biscuits (no_defects 4) fitness_1_score example_draws
    = Ok new_population
    ∧ length new_population = length example_population
    ∧ Forall (well_shaped 4) new_population.
Proof.
  apply (evolve_pop_shape example_population (1 / Qc_of_Z 2)%Qc
           (1 / Qc_of_Z 2)%Qc notebook_biscuits (no_defects 4) fitness_1_score
           example_draws 4).
  - discriminate.
  - exact example_population_scored.
  - lia.
  - exact example_population_shaped.
  - exact example_draws_fair.
  - by vm_compute.
Defined.

(** ** The shape of the population along a run *)

Section run_shape.
Context `{Hnp : !ArgsortSorts np}.
Context (mutation_rate elite_ratio : Qc) (bl : gmap Z biscuit)
  (rd : gmap Z (gmap string Z)) (display : option Z) (fitness : fitness_fn)
  (rnd : nat → nat → child_draws) (N L : nat).
Hypothesis HL : (3 ≤ L)%nat.
Hypothesis Hratio : (0 ≤ elite_ratio)%Qc.
Hypothesis Hfit : ∀ ind, well_shaped L ind → is_Ok (fitness ind bl rd).
Hypothesis Hrnd : ∀ i, fair_draws N (rnd i).

Lemma shaped_scored population :
  Forall (well_shaped L) population →
  Forall (λ ind, is_Ok (fitness ind bl rd)) population.
Proof. intros H. eapply Forall_impl; [exact H|]. exact Hfit. Qed.

(** The best individual of a population of the run. *)
Lemma best_of_population population :
  population ≠ [] → Forall (well_shaped L) population →
  ∃ fv i best,
    fitness_list fitness population bl rd = Ok fv
    ∧ best_index fv = Ok i ∧ population !! i = Some best
    ∧ well_shaped L best
    ∧ ∀ j, (j < length population)%nat → (key fv j ≤ key fv i)%Qc.
Proof.
  intros Hne Hshape.
  destruct (fitness_list_Ok _ _ _ _ (shaped_scored _ Hshape)) as [fv Hfv].
  pose proof (fitness_list_length _ _ _ _ _ Hfv) as Hlen.
  destruct (best_index_max fv) as (i & Hi & Hlt & Hmax).
  { intros ->. by destruct population. }
  destruct (lookup_lt_is_Some_2 population i) as [best Hbest]; [lia|].
  exists fv, i, best. repeat split; [done..| | |].
  - by destruct (Forall_lookup_1 _ _ _ _ Hshape Hbest).
  - by destruct (Forall_lookup_1 _ _ _ _ Hshape Hbest).
  - intros j Hj. apply Hmax. lia.
Qed.

Lemma display_generation_is_Ok (i : Z) population :
  population ≠ [] → Forall (well_shaped L) population →
  is_Ok (display_generation display i population bl rd fitness).
Proof.
  intros Hne Hshape. unfold display_generation.
  destruct display as [d|]; [|by eexists].
  case_bool_decide; [|by eexists].
  destruct (best_of_population population Hne Hshape)
    as (fv & j & best & Hfv & Hj & _).
  rewrite Hfv, bind_Ok, Hj, bind_Ok. by eexists.
Qed.

Lemma generations_shape (gens : nat) : ∀ i population printed,
  population ≠ [] → length population = N →
  Forall (well_shaped L) population →
  ∃ pl, generations gens i population mutation_rate elite_ratio bl rd display
          fitness rnd printed = Ok pl
        ∧ length pl.1 = N ∧ Forall (well_shaped L) pl.1.
Proof.
  induction gens as [|gens IH]; intros i population printed Hne Hlen Hshape;
    cbn [generations].
  - by exists (population, printed).
  - destruct (evolve_pop_well_shaped population mutation_rate elite_ratio bl rd
                fitness (rnd i) L) as (population' & -> & Hlen' & Hshape');
      [done|by apply shaped_scored|done|done|by rewrite Hlen|done|].
    rewrite bind_Ok.
    assert (Hne' : population' ≠ []).
    { intros ->. by destruct population. }
    destruct (display_generation_is_Ok (Z.of_nat i) population' Hne' Hshape')
      as [line ->].
    rewrite bind_Ok. apply IH; [done|congruence|done].
Qed.

Lemma run_shape (pop_size roll_size max_iter : Z) (init : nat → nat → Z)
    (population0 : option (list (list Z))) (p0 : list (list Z)) :
  match population0 with
  | None => init_population pop_size roll_size init
  | Some p => Ok p
  end = Ok p0 →
  p0 ≠ [] → length p0 = N → Forall (well_shaped L) p0 →
  ∃ population fv i best,
    genetic_algorithm pop_size mutation_rate elite_ratio bl rd roll_size
      max_iter display fitness population0 "population" (RunDraws init rnd)
    = Ok population
    ∧ length population = N ∧ Forall (well_shaped L) population
    ∧ fitness_list fitness population bl rd = Ok fv
    ∧ population !! i = Some best
    ∧ (∀ j, (j < N)%nat → (key fv j ≤ key fv i)%Qc)
    ∧ ∀ rtype, rtype ≠ "population"%string →
        genetic_algorithm pop_size mutation_rate elite_ratio bl rd roll_size
          max_iter display fitness population0 rtype (RunDraws init rnd)
        = Ok [best].
Proof.
  intros Hinit Hne Hlen Hshape.
  destruct (generations_shape (Z.to_nat max_iter) 0 p0 [] Hne Hlen Hshape)
    as ([population printed] & Hgen & Hlen' & Hshape').
  cbn [fst snd] in Hlen', Hshape'.
  assert (Hne' : population ≠ []).
  { intros ->. destruct p0; [done|]. cbn in *. lia. }
  destruct (best_of_population population Hne' Hshape')
    as (fv & i & best & Hfv & Hi & Hbest & _ & Hmax).
  exists population, fv, i, best.
  unfold genetic_algorithm, genetic_algorithm_run.
  cbn [init_gene generation_draws]. rewrite Hinit.
  repeat split; [|done..| |].
  - rewrite bind_Ok, Hgen, bind_Ok, bool_decide_false by (by intros []).
    by rewrite bind_Ok.
  - intros j Hj. apply Hmax. lia.
  - intros rtype Hrtype.
    rewrite bind_Ok, Hgen, bind_Ok, bool_decide_true by done. cbn [fst snd].
    rewrite Hfv, bind_Ok, Hi, bind_Ok. unfold index.
    by rewrite Hbest, !bind_Ok.
Qed.

End run_shape.

(** ** The first population *)

Lemma init_individuals_Ok (idx : list nat) (roll_size : Z) gene :
  0 ≤ roll_size →
  init_individuals idx roll_size gene
  = Ok ((λ i, gene i <$> seq 0 (Z.to_nat roll_size)) <$> idx).
Proof.
  intros Hroll. induction idx as [|i idx IH]; [done|].
  cbn [init_individuals]. unfold random_individual.
  by rewrite bool_decide_false, bind_Ok, IH, bind_Ok by lia.
Qed.

Lemma init_population_Ok (pop_size roll_size : Z) gene :
  0 ≤ roll_size →
  ∃ population,
    init_population pop_size roll_size gene = Ok population
    ∧ length population = Z.to_nat pop_size
    ∧ ∀ i ind, population !! i = Some ind →
        length ind = Z.to_nat roll_size
        ∧ ∀ g x, ind !! g = Some x → x = gene i g.
Proof.
  intros Hroll. unfold init_population. rewrite init_individuals_Ok by done.
  eexists. split; [done|]. split; [by rewrite length_fmap, length_seq|].
  intros i ind. rewrite list_lookup_fmap.
  destruct (seq 0 (Z.to_nat pop_size) !! i) as [i'|] eqn:Hi; [|done].
  apply lookup_seq in Hi as [-> _]. cbn. intros [= <-].
  split; [by rewrite length_fmap, length_seq|].
  intros g x. rewrite list_lookup_fmap.
  destruct (seq 0 (Z.to_nat roll_size) !! g) as [g'|] eqn:Hg; [|done].
  apply lookup_seq in Hg as [-> _]. cbn. by intros [= <-].
Qed.

Lemma init_population_well_shaped (pop_size roll_size : Z) gene :
  0 ≤ roll_size → (∀ i g, gene_in_range (gene i g)) →
  ∃ population,
    init_population pop_size roll_size gene = Ok population
    ∧ length population = Z.to_nat pop_size
    ∧ Forall (well_shaped (Z.to_nat roll_size)) population.
Proof.
  intros Hroll Hgene.
  destruct (init_population_Ok pop_size roll_size gene Hroll)
    as (population & Hinit & Hlen & Hind).
  exists population. split; [done|]. split; [done|].
  apply Forall_lookup. intros i ind Hi.
  destruct (Hind i ind Hi) as [Hl Hg]. split; [done|].
  apply Forall_lookup. intros g x Hx. rewrite (Hg g x Hx). apply Hgene.
Qed.

(** X17: [init_population] with a roll size that is not negative returns
    [pop_size] chromosomes (none when [pop_size] is negative) of
    [roll_size] genes each, gene [g] of chromosome [i] being the draw made
    for it. *)
Theorem init_population_shape (pop_size roll_size : Z) (gene : nat → nat → Z) :
  0 ≤ roll_size →
  ∃ population,
    init_population pop_size roll_size gene = Ok population
    ∧ length population = Z.to_nat pop_size
    ∧ ∀ i ind, population !! i = Some ind →
        length ind = Z.to_nat roll_size
        ∧ ∀ g x, ind !! g = Some x → x = gene i g.
Proof. apply init_population_Ok. Qed.

Lemma init_population_shape_witness :
  ∃ population,
    init_population 3 2 (λ i g, Z.of_nat (i + g) - 1) = Ok population
    ∧ length population = Z.to_nat 3
    ∧ ∀ i ind, population !! i = Some ind →
        length ind = Z.to_nat 2
        ∧ ∀ g x, ind !! g = Some x → x = (λ i g, Z.of_nat (i + g) - 1) i g.
Proof. apply (init_population_shape 3 2). lia. Defined.

(** X18: a negative roll size makes [init_population] fail with a
    [ValueError] as soon as one chromosome is asked for, and goes unnoticed
    when [pop_size] is zero or negative: the population is then empty. *)
Theorem init_population_negative_roll (pop_size pop_size' roll_size : Z)
    (gene : nat → nat → Z) :
  roll_size < 0 → 1 ≤ pop_size → pop_size' ≤ 0 →
  init_population pop_size roll_size gene = Err ValueError
  ∧ init_population pop_size' roll_size gene = Ok [].
Proof.
  intros Hroll Hpop Hpop'. unfold init_population. split.
  - destruct (Z.to_nat pop_size) as [|n] eqn:Hn; [lia|].
    cbn [seq init_individuals]. unfold random_individual.
    by rewrite bool_decide_true by lia.
  - by replace (Z.to_nat pop_size') with 0%nat by lia.
Qed.

Lemma init_population_negative_roll_witness :
  init_population 2 (-1) (λ _ _, 0) = Err ValueError
  ∧ init_population (-2) (-1) (λ _ _, 0) = Ok [].
Proof. apply (init_population_negative_roll 2 (-2) (-1)); lia. Defined.

(** ** Whole runs *)

(** X19: a run from a given population keeps its shape.  For a non-empty
    population of chromosomes of one length of at least 3 with genes in
    [-1, 3], a fitness method that scores every such chromosome, an elite
    ratio that is not negative and draws that pick parents among the
    individuals and genes in [-1, 3], the driver returns, for every number
    of generations and every display period, a population of the same size
    and shape when the whole population is asked for, and otherwise the one
    individual of that population with a maximal fitness. *)
Theorem genetic_algorithm_shape `{Hnp : !ArgsortSorts np}
    (pop_size roll_size max_iter : Z)
    (mutation_rate elite_ratio : Qc) (biscuits_list : gmap Z biscuit)
    (roll_defects : gmap Z (gmap string Z)) (display : option Z)
    (fitness : fitness_fn) (population : list (list Z)) (rnd : run_draws)
    (L : nat) :
  (3 ≤ L)%nat → (0 ≤ elite_ratio)%Qc →
  population ≠ [] → Forall (well_shaped L) population →
  (∀ ind, well_shaped L ind → is_Ok (fitness ind biscuits_list roll_defects)) →
  (∀ i, fair_draws (length population) (generation_draws rnd i)) →
  ∃ final fitness_values i best,
    genetic_algorithm pop_size mutation_rate elite_ratio biscuits_list
      roll_defects roll_size max_iter display fitness (Some population)
      "population" rnd = Ok final
    ∧ length final = length population ∧ Forall (well_shaped L) final
    ∧ fitness_list fitness final biscuits_list roll_defects = Ok fitness_values
    ∧ final !! i = Some best
    ∧ (∀ j, (j < length population)%nat →
            (key fitness_values j ≤ key fitness_values i)%Qc)
    ∧ ∀ rtype, rtype ≠ "population"%string →
        genetic_algorithm pop_size mutation_rate elite_ratio biscuits_list
          roll_defects roll_size max_iter display fitness (Some population)
          rtype rnd = Ok [best].
Proof.
  intros HL Hratio Hne Hshape Hfit Hrnd. destruct rnd as [init rnd].
  by apply (run_shape mutation_rate elite_ratio biscuits_list roll_defects
              display fitness rnd (length population) L HL Hratio Hfit Hrnd
              pop_size roll_size max_iter init (Some population) population).
Qed.

(** X20: a run that draws its first population keeps its shape.  With
    [pop_size >= 1], [roll_size >= 3], first genes in [-1, 3], a fitness
    method that scores every chromosome of [roll_size] genes in [-1, 3], an
    elite ratio that is not negative and draws that pick parents among the
    [pop_size] individuals and genes in [-1, 3], the driver returns
    [pop_size] chromosomes of [roll_size] genes in [-1, 3] when the whole
    population is asked for, and otherwise the one individual of that
    population with a maximal fitness. *)
Theorem genetic_algorithm_fresh_run `{Hnp : !ArgsortSorts np}
    (pop_size roll_size max_iter : Z)
    (mutation_rate elite_ratio : Qc) (biscuits_list : gmap Z biscuit)
    (roll_defects : gmap Z (gmap string Z)) (display : option Z)
    (fitness : fitness_fn) (rnd : run_draws) :
  1 ≤ pop_size → 3 ≤ roll_size → (0 ≤ elite_ratio)%Qc →
  (∀ i g, gene_in_range (init_gene rnd i g)) →
  (∀ ind, well_shaped (Z.to_nat roll_size) ind →
          is_Ok (fitness ind biscuits_list roll_defects)) →
  (∀ i, fair_draws (Z.to_nat pop_size) (generation_draws rnd i)) →
  ∃ final fitness_values i best,
    genetic_algorithm pop_size mutation_rate elite_ratio biscuits_list
      roll_defects roll_size max_iter display fitness None "population" rnd
    = Ok final
    ∧ length final = Z.to_nat pop_size
    ∧ Forall (well_shaped (Z.to_nat roll_size)) final
    ∧ fitness_list fitness final biscuits_list roll_defects = Ok fitness_values
    ∧ final !! i = Some best
    ∧ (∀ j, (j < Z.to_nat pop_size)%nat →
            (key fitness_values j ≤ key fitness_values i)%Qc)
    ∧ ∀ rtype, rtype ≠ "population"%string →
        genetic_algorithm pop_size mutation_rate elite_ratio biscuits_list
          roll_defects roll_size max_iter display fitness None rtype rnd
        = Ok [best].
Proof.
  intros Hpop Hroll Hratio Hgene Hfit Hrnd. destruct rnd as [init rnd].
  cbn [init_gene generation_draws] in *.
  destruct (init_population_well_shaped pop_size roll_size init)
    as (p0 & Hinit & Hlen & Hshape); [lia|done|].
  apply (run_shape mutation_rate elite_ratio biscuits_list roll_defects
           display fitness rnd (Z.to_nat pop_size) (Z.to_nat roll_size))
    with (p0 := p0); [lia|done..| |done|done].
  intros ->. cbn in Hlen. lia.
Qed.

Lemma notebook_gene (e : Z) : gene_in_range e → is_Some (notebook_biscuits !! e).
Proof.
  unfold gene_in_range. intros He.
  assert (e = -1 ∨ e = 0 ∨ e = 1 ∨ e = 2 ∨ e = 3)
    as [->|[->|[->|[->| ->]]]] by lia; by eexists.
Qed.

Lemma fitness_1_score_shaped (L : nat) (ind : list Z) :
  well_shaped L ind →
  is_Ok (fitness_1_score ind notebook_biscuits (no_defects (Z.of_nat L))).
Proof.
  intros [Hlen Hgenes]. unfold fitness_1_score, fitness_1.
  destruct (fitness_1_loop_is_Ok notebook_biscuits (no_defects (Z.of_nat L))
              (Z.of_nat L) catalogue_complete_notebook
              (covered_no_defects (Z.of_nat L) 0 (Z.of_nat L)
                 (Z.le_refl 0) (Z.le_refl _))
              ind 0 (Scan1 0 0 (-2))) as [st ->]; [lia|lia|cbn; lia| |].
  - eapply Forall_impl; [exact Hgenes|]. intros e He _. by apply notebook_gene.
  - rewrite !bind_Ok. by eexists.
Qed.

Lemma fitness_2_shaped (L : nat) (ind : list Z) :
  (1 ≤ L)%nat → well_shaped L ind →
  is_Ok (fitness_2 ind notebook_biscuits (no_defects (Z.of_nat L))).
Proof.
  intros HL [Hlen Hgenes].
  assert (Hkeys : Forall (λ e, is_Some (notebook_biscuits !! e)) ind).
  { eapply Forall_impl; [exact Hgenes|]. intros e He. by apply notebook_gene. }
  pose proof (covered_no_defects (Z.of_nat L) 0 (Z.of_nat L)
                (Z.le_refl 0) (Z.le_refl _)) as Hrd.
  unfold fitness_2. destruct ind as [|first ind']; [cbn in Hlen; lia|].
  set (ind := first :: ind') in *.
  change (index ind 0) with (Ok (A:=Z) first). rewrite bind_Ok.
  assert (Hfirst : is_Some (notebook_biscuits !! first)).
  { by apply Forall_cons in Hkeys as [? _]. }
  destruct (fitness_2_loop_is_Ok notebook_biscuits (no_defects (Z.of_nat L))
              (Z.of_nat L) catalogue_complete_notebook Hrd ind 0
              (Scan2 0%Qc 0 first))
    as (st & -> & Hsz & Hlast); [lia|lia|cbn; lia|done|done|].
  rewrite bind_Ok.
  destruct (run_score_is_Ok notebook_biscuits (no_defects (Z.of_nat L))
              (Z.of_nat L) catalogue_complete_notebook Hrd
              (Z.of_nat (length ind)) (size2 st) (last_elem2 st))
    as [s ->]; [lia|lia|done|].
  rewrite bind_Ok. by eexists.
Qed.

Lemma genetic_algorithm_shape_witness :
  ∃ final fitness_values i best,
    genetic_algorithm 4 (1 / Qc_of_Z 2)%Qc (1 / Qc_of_Z 2)%Qc notebook_biscuits
      (no_defects 4) 4 3 (Some 2) fitness_1_score (Some example_population)
      "population" example_run_draws = Ok final
    ∧ length final = length example_population
    ∧ Forall (well_shaped 4) final
    ∧ fitness_list fitness_1_score final notebook_biscuits (no_defects 4)
      = Ok fitness_values
    ∧ final !! i = Some best
    ∧ (∀ j, (j < length example_population)%nat →
            (key fitness_values j ≤ key fitness_values i)%Qc)
    ∧ ∀ rtype, rtype ≠ "population"%string →
        genetic_algorithm 4 (1 / Qc_of_Z 2)%Qc (1 / Qc_of_Z 2)%Qc
          notebook_biscuits (no_defects 4) 4 3 (Some 2) fitness_1_score
          (Some example_population) rtype example_run_draws = Ok [best].
Proof.
  apply (genetic_algorithm_shape 4 4 3 (1 / Qc_of_Z 2)%Qc (1 / Qc_of_Z 2)%Qc
           notebook_biscuits (no_defects 4) (Some 2) fitness_1_score
           example_population example_run_draws 4).
  - lia.
  - by vm_compute.
  - discriminate.
  - exact example_population_shaped.
  - exact (fitness_1_score_shaped 4).
  - intros i. exact example_draws_fair.
Defined.

Lemma genetic_algorithm_fresh_run_witness :
  ∃ final fitness_values i best,
    genetic_algorithm 4 (1 / Qc_of_Z 2)%Qc (1 / Qc_of_Z 2)%Qc notebook_biscuits
      (no_defects 5) 5 3 (Some 2) fitness_2 None "population" example_run_draws
    = Ok final
    ∧ length final = Z.to_nat 4
    ∧ Forall (well_shaped (Z.to_nat 5)) final
    ∧ fitness_list fitness_2 final notebook_biscuits (no_defects 5)
      = Ok fitness_values
    ∧ final !! i = Some best
    ∧ (∀ j, (j < Z.to_nat 4)%nat →
            (key fitness_values j ≤ key fitness_values i)%Qc)
    ∧ ∀ rtype, rtype ≠ "population"%string →
        genetic_algorithm 4 (1 / Qc_of_Z 2)%Qc (1 / Qc_of_Z 2)%Qc
          notebook_biscuits (no_defects 5) 5 3 (Some 2) fitness_2 None rtype
          example_run_draws = Ok [best].
Proof.
  apply (genetic_algorithm_fresh_run 4 5 3 (1 / Qc_of_Z 2)%Qc
           (1 / Qc_of_Z 2)%Qc notebook_biscuits (no_defects 5) (Some 2)
           fitness_2 example_run_draws).
  - lia.
  - lia.
  - by vm_compute.
  - intros i g. unfold gene_in_range. simpl. lia.
  - intros ind. apply (fitness_2_shaped 5 ind). lia.
  - intros i. exact example_draws_fair.
Defined.

(** ** A run where no piece fits *)

Section nothing_fits.
Context (lb_size : nat) (lb_value : Z) (th : gmap string Z)
        (rd : gmap Z (gmap string Z)) (lo hi : Z).
Hypothesis Hfail : ∀ s t, lo ≤ s → s < t → t ≤ hi →
  respect_defects th s t rd = Ok false.

Lemma slice_pass_nothing (last_size : nat) (fuel : nat) : ∀ j score,
  (1 ≤ last_size)%nat → (length (range lo hi) ≤ fuel + j)%nat →
  slice_pass fuel (range lo hi) last_size lb_size lb_value th rd j score []
  = Ok (score, []).
Proof.
  induction fuel as [|fuel IH]; intros j score Hls Hfuel;
    cbn [slice_pass]; case_bool_decide as Hj; [lia|done| |done].
  destruct (lookup_lt_is_Some_2 (range lo hi) j) as [pos Hpos]; [lia|].
  unfold index. rewrite Hpos, bind_Ok.
  destruct (forallb _ _) eqn:Hall; [|apply IH; [done|lia]].
  assert (Hblock : ∀ y, pos ≤ y < pos + Z.of_nat last_size → lo ≤ y < hi).
  { intros y Hy. rewrite forallb_forall in Hall. apply elem_of_range.
    eapply bool_decide_eq_true_1, (Hall y), list_elem_of_In, elem_of_range, Hy. }
  rewrite Hfail, bind_Ok.
  - apply IH; [done|lia].
  - apply (Hblock pos). lia.
  - lia.
  - pose proof (Hblock (pos + Z.of_nat last_size - 1)). lia.
Qed.

Lemma slice_loop_nothing (last_size : nat) score :
  slice_loop last_size lb_size lb_value th rd (range lo hi) score
  = Ok (score, range lo hi).
Proof.
  induction last_size as [|last_size IH]; [done|].
  cbn [slice_loop]. destruct (range lo hi) as [|x u] eqn:Hu; [done|].
  rewrite <- Hu. rewrite slice_pass_nothing, bind_Ok by lia.
  cbn [snd fst remove_assigned]. by rewrite bind_Ok, Hu.
Qed.

End nothing_fits.

(** X21: when no window of the run passes the defect test, whatever its
    size, no piece is placed and [get_slice_score] returns minus the length
    of the run. *)
Theorem get_slice_score_nothing_fits (position : Z) (size lb_size : nat)
    (lb_value : Z) (lb_threshold : gmap string Z)
    (roll_defects : gmap Z (gmap string Z)) :
  (∀ s t, position - Z.of_nat size ≤ s → s < t → t ≤ position →
          respect_defects lb_threshold s t roll_defects = Ok false) →
  get_slice_score position size lb_size lb_value lb_threshold roll_defects
  = Ok (- Qc_of_Z (Z.of_nat size))%Qc.
Proof.
  intros Hfail. unfold get_slice_score.
  rewrite (slice_loop_nothing lb_size lb_value lb_threshold roll_defects
             (position - Z.of_nat size) position Hfail), bind_Ok.
  cbn [fst snd]. rewrite range_length. f_equal.
  replace (Z.of_nat (Z.to_nat (position - (position - Z.of_nat size))))
    with (Z.of_nat size) by lia.
  ring.
Qed.

Lemma get_slice_score_nothing_fits_witness :
  get_slice_score 2 2 4 3 (thr 0 0 0) two_a_defects
  = Ok (- Qc_of_Z (Z.of_nat 2))%Qc.
Proof.
  apply (get_slice_score_nothing_fits 2 2 4 3 (thr 0 0 0) two_a_defects).
  intros s t Hs Hst Ht.
  assert ((s = 0 ∧ t = 1) ∨ (s = 0 ∧ t = 2) ∨ (s = 1 ∧ t = 2))
    as [[-> ->]|[[-> ->]|[-> ->]]] by lia; vm_compute; reflexivity.
Defined.

(** ** Generations that cannot breed *)

Lemma evolve_pop_breeds `{Hnp : !ArgsortSorts np}
    population mutation_rate elite_ratio bl rd fitness rnd
    fv :
  fitness_list fitness population bl rd = Ok fv →
  (length (elite_idx population elite_ratio fv) < length population)%nat →
  ∃ min_fitness need,
    evolve_pop population mutation_rate elite_ratio bl rd fitness rnd
    = (new_population ←
         (muted_child ←
            make_child population
              (probabilities (shifted_fitness fv min_fitness)) mutation_rate
              (rnd 0%nat);
          breed need 1 population
            (probabilities (shifted_fitness fv min_fitness)) mutation_rate rnd
            [muted_child]);
       Ok (new_population
           ++ (individual population <$> elite_idx population elite_ratio fv))).
Proof.
  intros Hfv Hlt. unfold evolve_pop. rewrite Hfv, bind_Ok.
  pose proof (fitness_list_length _ _ _ _ _ Hfv) as Hfvlen.
  rewrite (pick_Ok _ _ (elite_idx_valid _ _ _ Hfvlen)), bind_Ok.
  destruct (py_min_Ok fv) as [min_fitness ->].
  { intros ->. cbn in Hfvlen. lia. }
  rewrite bind_Ok, length_fmap.
  destruct (length population - length (elite_idx population elite_ratio fv))%nat
    as [|need] eqn:Hneed; [lia|].
  by exists min_fitness, need.
Qed.

(** X22: a generation that needs a child fails with a [ValueError] when the
    population has fewer than two individuals to draw the parents from, and
    when the first parent has fewer than three positions to draw the break
    points from. *)
Theorem evolve_pop_cannot_breed `{Hnp : !ArgsortSorts np}
    (population : list (list Z))
    (mutation_rate elite_ratio : Qc) (biscuits_list : gmap Z biscuit)
    (roll_defects : gmap Z (gmap string Z)) (fitness : fitness_fn)
    (rnd : nat → child_draws) (fitness_values : list Qc) :
  fitness_list fitness population biscuits_list roll_defects = Ok fitness_values →
  (length (elite_idx population elite_ratio fitness_values)
   < length population)%nat →
  (length population < 2)%nat
  ∨ (((parents_indices (rnd 0%nat)).1 < length population)%nat
     ∧ ((parents_indices (rnd 0%nat)).2 < length population)%nat
     ∧ (length (individual population (parents_indices (rnd 0%nat)).1) < 3)%nat) →
  evolve_pop population mutation_rate elite_ratio biscuits_list roll_defects
    fitness rnd = Err ValueError.
Proof.
  intros Hfv Hlt Hcase.
  destruct (evolve_pop_breeds population mutation_rate elite_ratio
              biscuits_list roll_defects fitness rnd fitness_values Hfv Hlt)
    as (min_fitness & need & ->).
  unfold make_child, np_random_choice.
  destruct Hcase as [Hfew|(H1 & H2 & Hshort)].
  - by rewrite bool_decide_true by lia.
  - case_bool_decide; [done|]. rewrite bind_Ok. unfold index.
    unfold individual in Hshort.
    destruct (lookup_lt_is_Some_2 population _ H1) as [parent1 Hp1].
    destruct (lookup_lt_is_Some_2 population _ H2) as [parent2 Hp2].
    rewrite Hp1 in Hshort. cbn in Hshort.
    rewrite Hp1, bind_Ok, Hp2, bind_Ok.
    by rewrite bool_decide_true by lia.
Qed.

Lemma evolve_pop_cannot_breed_witness :
  evolve_pop [[0; 0]; [2; 2]] 0%Qc (1 / Qc_of_Z 2)%Qc notebook_biscuits
    (no_defects 2) fitness_1_score
    (λ _, ChildDraws (0, 1)%nat (0, 1, 1)%nat (λ _, 0%Qc) (λ _, 1%Qc) (λ _, 0))
  = Err ValueError.
Proof.
  apply (evolve_pop_cannot_breed [[0; 0]; [2; 2]] 0%Qc (1 / Qc_of_Z 2)%Qc
           notebook_biscuits (no_defects 2) fitness_1_score
           (λ _, ChildDraws (0, 1)%nat (0, 1, 1)%nat (λ _, 0%Qc) (λ _, 1%Qc)
                   (λ _, 0))
           [Qc_of_Z (-2); Qc_of_Z 1]).
  - apply fitness_list_Forall2. repeat constructor; by_computation.
  - vm_compute. lia.
  - right. vm_compute. lia.
Defined.

(** ** A negative elite ratio *)

Lemma elite_start_negative_ratio (population : list (list Z)) (elite_ratio : Qc) :
  (elite_ratio ≤ 0)%Qc →
  elite_start population elite_ratio
  = Qfloor (round_float
              (Qc_of_Z (Z.of_nat (length population)) * - elite_ratio)%Qc)
  ∧ 0 ≤ Qfloor (round_float
                  (Qc_of_Z (Z.of_nat (length population)) * - elite_ratio)%Qc).
Proof.
  intros Hr. unfold elite_start.
  assert (Heq : (Qc_of_Z (- Z.of_nat (length population)) * elite_ratio
                 = Qc_of_Z (Z.of_nat (length population)) * - elite_ratio)%Qc).
  { rewrite Z2Qc_inj_opp. ring. }
  assert (Hpos : (0 ≤ round_float
                        (Qc_of_Z (Z.of_nat (length population))
                         * - elite_ratio))%Qc).
  { apply round_float_nonneg.
    apply Qcmult_nonneg_nonneg; [apply Qc_of_nat_nonneg|].
    replace 0%Qc with (- 0)%Qc by ring. by apply Qcopp_le_compat. }
  rewrite Heq, int_nonneg by done. split; [done|].
  apply Qcle_0_num in Hpos.
  destruct (round_float _) as [[n d] Hc]. cbn in *. apply Z.div_pos; lia.
Qed.

(** X23: an elite ratio that is negative or zero is not refused: with [k]
    the whole part of the float product [len(population) * -elite_ratio],
    the first [k] individuals of the ascending order of fitness that
    [np.argsort] gives are left out and the others are the elites, so a
    generation that succeeds makes [min(k, N)] children. *)
Theorem negative_elite_ratio `{Hnp : !ArgsortSorts np}
    (population : list (list Z))
    (mutation_rate elite_ratio : Qc) (biscuits_list : gmap Z biscuit)
    (roll_defects : gmap Z (gmap string Z)) (fitness : fitness_fn)
    (rnd : nat → child_draws) (fitness_values : list Qc) :
  fitness_list fitness population biscuits_list roll_defects = Ok fitness_values →
  (elite_ratio ≤ 0)%Qc →
  let N := length population in
  let k := Z.to_nat (Qfloor (round_float
                               (Qc_of_Z (Z.of_nat N) * - elite_ratio)%Qc)) in
  elite_idx population elite_ratio fitness_values
  = drop k (argsort fitness_values)
  ∧ ∀ result,
      evolve_pop population mutation_rate elite_ratio biscuits_list
        roll_defects fitness rnd = Ok result →
      ∃ children,
        result = children
                 ++ (individual population <$> drop k (argsort fitness_values))
        ∧ length children = Nat.min k N.
Proof.
  intros Hfv Hr N k.
  destruct (elite_start_negative_ratio population elite_ratio Hr) as [Hstart Hk].
  assert (Hidx : elite_idx population elite_ratio fitness_values
                 = drop k (argsort fitness_values)).
  { unfold elite_idx, slice_from. rewrite Hstart.
    by rewrite bool_decide_true by done. }
  split; [done|]. intros result Hres.
  destruct (evolve_pop_inv _ _ _ _ _ _ _ _ _ Hfv Hres) as (children & -> & Hn).
  exists children. rewrite Hidx in *. split; [done|].
  rewrite Hn, length_drop, argsort_length.
  rewrite (fitness_list_length _ _ _ _ _ Hfv). fold N. lia.
Qed.

(** With 5 individuals and the ratio [-0.6] the float product is [3.0]:
    the three individuals of lowest fitness are left out. *)
Lemma negative_elite_ratio_witness :
  let fv := [Qc_of_Z 4; Qc_of_Z 3; Qc_of_Z 1; Qc_of_Z 0; Qc_of_Z (-6)] in
  let N := length five_population in
  let k := Z.to_nat (Qfloor (round_float
                               (Qc_of_Z (Z.of_nat N) * - (- float_0_6))%Qc)) in
  elite_idx five_population (- float_0_6)%Qc fv = drop k (argsort fv)
  ∧ ∀ result,
      evolve_pop five_population 0%Qc (- float_0_6)%Qc notebook_biscuits
        (no_defects 6) fitness_1_score example_draws = Ok result →
      ∃ children,
        result = children ++ (individual five_population <$> drop k (argsort fv))
        ∧ length children = Nat.min k N.
Proof.
  apply (negative_elite_ratio five_population 0%Qc (- float_0_6)%Qc
           notebook_biscuits (no_defects 6) fitness_1_score example_draws).
  - exact five_fitness_values.
  - by vm_compute.
Defined.

(** The slice of the example starts at 3, and at 28 for 50 individuals
    and the ratio [-0.58]. *)
Lemma negative_ratio_example :
  elite_start five_population (- float_0_6)%Qc = 3
  ∧ Qfloor (Qc_of_Z 5 * float_0_6)%Qc = 2
  ∧ elite_start (replicate 50 []) (- round_float (Qc_of_Z 58 / Qc_of_Z 100))%Qc
    = 28.
Proof. repeat split; by vm_compute. Qed.

(** ** The display *)

Lemma generations_display `{np : Argsort} (gens : nat) :
  ∀ i population mutation_rate elite_ratio bl rd display fitness rnd printed pl,
    generations gens i population mutation_rate elite_ratio bl rd display
      fitness rnd printed = Ok pl →
    ∀ printed',
      generations gens i population mutation_rate elite_ratio bl rd None
        fitness rnd printed' = Ok (pl.1, printed').
Proof.
  induction gens as [|gens IH];
    intros i population mutation_rate elite_ratio bl rd display fitness rnd
      printed pl; cbn [generations].
  - by intros [= <-].
  - intros (population' & Hevolve & (line & _ & Hrest)%bind_Ok_inv)%bind_Ok_inv
      printed'.
    rewrite Hevolve, bind_Ok. cbn [display_generation].
    rewrite bind_Ok, app_nil_r. by apply (IH _ _ _ _ _ _ _ _ _ _ _ Hrest).
Qed.

Lemma genetic_algorithm_run_display `{np : Argsort}
    pop_size mutation_rate elite_ratio bl rd
    roll_size max_iter display fitness population rtype rnd pl :
  genetic_algorithm_run pop_size mutation_rate elite_ratio bl rd roll_size
    max_iter display fitness population rtype rnd = Ok pl →
  genetic_algorithm_run pop_size mutation_rate elite_ratio bl rd roll_size
    max_iter None fitness population rtype rnd = Ok (pl.1, []).
Proof.
  unfold genetic_algorithm_run.
  intros (p0 & Hinit & (pl' & Hgen & Hend)%bind_Ok_inv)%bind_Ok_inv.
  rewrite Hinit, bind_Ok.
  rewrite (generations_display _ _ _ _ _ _ _ _ _ _ _ _ Hgen []), bind_Ok.
  cbn [fst snd]. case_bool_decide; [|by injection Hend as <-].
  apply bind_Ok_inv in Hend as (fv & Hfv & Hend).
  apply bind_Ok_inv in Hend as (i & Hi & Hend).
  apply bind_Ok_inv in Hend as (best & Hbest & Hend).
  injection Hend as <-.
  by rewrite Hfv, bind_Ok, Hi, bind_Ok, Hbest, bind_Ok.
Qed.

(** X24: the display only observes the run.  When a run with a display
    period returns a result, the same run without display returns the same
    result and prints nothing. *)
Theorem display_only_observes `{np : Argsort} (pop_size roll_size max_iter : Z)
    (mutation_rate elite_ratio : Qc) (biscuits_list : gmap Z biscuit)
    (roll_defects : gmap Z (gmap string Z)) (display : option Z)
    (fitness : fitness_fn) (population : option (list (list Z)))
    (rtype : string) (rnd : run_draws) (result : list (list Z)) :
  genetic_algorithm pop_size mutation_rate elite_ratio biscuits_list
    roll_defects roll_size max_iter display fitness population rtype rnd
  = Ok result →
  genetic_algorithm pop_size mutation_rate elite_ratio biscuits_list
    roll_defects roll_size max_iter None fitness population rtype rnd
  = Ok result
  ∧ genetic_algorithm_run pop_size mutation_rate elite_ratio biscuits_list
      roll_defects roll_size max_iter None fitness population rtype rnd
    = Ok (result, []).
Proof.
  unfold genetic_algorithm. intros (pl & Hrun & [= <-])%bind_Ok_inv.
  by rewrite (genetic_algorithm_run_display _ _ _ _ _ _ _ _ _ _ _ _ _ Hrun),
    bind_Ok.
Qed.

Lemma display_only_observes_witness :
  genetic_algorithm 4 (1 / Qc_of_Z 2)%Qc (1 / Qc_of_Z 2)%Qc notebook_biscuits
    (no_defects 4) 4 3 None fitness_1_score (Some example_population)
    "population" example_run_draws
  = Ok [[3; 3; 3; 3]; [3; 3; 3; 3]; [2; 2; 2; 2]; [0; 0; 0; 0]]
  ∧ genetic_algorithm_run 4 (1 / Qc_of_Z 2)%Qc (1 / Qc_of_Z 2)%Qc
      notebook_biscuits (no_defects 4) 4 3 None fitness_1_score
      (Some example_population) "population" example_run_draws
    = Ok ([[3; 3; 3; 3]; [3; 3; 3; 3]; [2; 2; 2; 2]; [0; 0; 0; 0]], []).
Proof.
  apply (display_only_observes 4 4 3 (1 / Qc_of_Z 2)%Qc (1 / Qc_of_Z 2)%Qc
           notebook_biscuits (no_defects 4) (Some 2)).
  vm_compute. reflexivity.
Defined.

Lemma generations_reports `{np : Argsort} (d : Z) (gens : nat) :
  ∀ i population mutation_rate elite_ratio bl rd fitness rnd printed pl,
    generations gens i population mutation_rate elite_ratio bl rd (Some d)
      fitness rnd printed = Ok pl →
    pl.2.*1
    = printed.*1
      ++ filter (λ n, d ≠ 0 ∧ n `mod` d = 0) (seqZ (Z.of_nat i + 1) (Z.of_nat gens)).
Proof.
  induction gens as [|gens IH];
    intros i population mutation_rate elite_ratio bl rd fitness rnd printed pl;
    cbn [generations].
  - intros [= <-]. cbn. by rewrite app_nil_r.
  - intros (population' & _ & (line & Hline & Hrest)%bind_Ok_inv)%bind_Ok_inv.
    rewrite (IH _ _ _ _ _ _ _ _ _ _ Hrest), fmap_app, <- app_assoc. f_equal.
    rewrite (seqZ_cons (Z.of_nat i + 1)) by lia.
    replace (Z.succ (Z.of_nat i + 1)) with (Z.of_nat (S i) + 1) by lia.
    replace (Z.pred (Z.of_nat (S gens))) with (Z.of_nat gens) by lia.
    unfold display_generation in Hline. case_bool_decide as Hd.
    + rewrite filter_cons_True by done.
      apply bind_Ok_inv in Hline as (fv & _ & Hline).
      apply bind_Ok_inv in Hline as (j & _ & Hline).
      by injection Hline as <-.
    + rewrite filter_cons_False by done. by injection Hline as <-.
Qed.

(** X25: a run with display period [d] that returns has printed one line
    for each generation, counted from 1, whose number is a multiple of [d],
    in order, and no other line; with [d = 0] it has printed nothing. *)
Theorem display_period `{np : Argsort} (pop_size roll_size max_iter d : Z)
    (mutation_rate elite_ratio : Qc) (biscuits_list : gmap Z biscuit)
    (roll_defects : gmap Z (gmap string Z)) (fitness : fitness_fn)
    (population : option (list (list Z))) (rtype : string) (rnd : run_draws)
    (pl : list (list Z) * list report) :
  genetic_algorithm_run pop_size mutation_rate elite_ratio biscuits_list
    roll_defects roll_size max_iter (Some d) fitness population rtype rnd
  = Ok pl →
  pl.2.*1 = filter (λ n, d ≠ 0 ∧ n `mod` d = 0) (seqZ 1 max_iter).
Proof.
  unfold genetic_algorithm_run.
  intros (p0 & _ & (pl' & Hgen & Hend)%bind_Ok_inv)%bind_Ok_inv.
  apply generations_reports in Hgen.
  change (Z.of_nat 0 + 1) with 1 in Hgen. rewrite fmap_nil, app_nil_l in Hgen.
  assert (Hseq : seqZ 1 (Z.of_nat (Z.to_nat max_iter)) = seqZ 1 max_iter).
  { unfold seqZ. by rewrite Nat2Z.id. }
  rewrite Hseq in Hgen. rewrite <- Hgen.
  case_bool_decide; [|by injection Hend as <-].
  apply bind_Ok_inv in Hend as (fv & _ & Hend).
  apply bind_Ok_inv in Hend as (i & _ & Hend).
  apply bind_Ok_inv in Hend as (best & _ & Hend).
  by injection Hend as <-.
Qed.

Lemma display_period_witness :
  ∃ pl,
    genetic_algorithm_run 4 (1 / Qc_of_Z 2)%Qc (1 / Qc_of_Z 2)%Qc
      notebook_biscuits (no_defects 4) 4 5 (Some 2) fitness_1_score
      (Some example_population) "elite" example_run_draws = Ok pl
    ∧ pl.2.*1 = filter (λ n, 2 ≠ 0 ∧ n `mod` 2 = 0) (seqZ 1 5).
Proof.
  destruct (genetic_algorithm_run 4 (1 / Qc_of_Z 2)%Qc (1 / Qc_of_Z 2)%Qc
              notebook_biscuits (no_defects 4) 4 5 (Some 2) fitness_1_score
              (Some example_population) "elite" example_run_draws)
    as [pl|e] eqn:Hrun.
  - exists pl. split; [done|].
    by apply (display_period 4 4 5 2 (1 / Qc_of_Z 2)%Qc (1 / Qc_of_Z 2)%Qc
                notebook_biscuits (no_defects 4) fitness_1_score
                (Some example_population) "elite" example_run_draws).
  - exfalso. revert Hrun. vm_compute. discriminate.
Defined.

Lemma evaluators_failures_witness :
  (∀ err, fitness_1 [7] notebook_biscuits (no_defects 1) = Err err →
          err = KeyError)
  ∧ fitness_2 [] notebook_biscuits (no_defects 1) = Err IndexError
  ∧ (∀ err, [7] ≠ [] →
            fitness_2 [7] notebook_biscuits (no_defects 1) = Err err →
            err = KeyError).
Proof. apply (evaluators_failures [7] notebook_biscuits (no_defects 1)). Defined.

(** * Which key lookups fail *)

(** ** When [respect_defects] fails *)

Lemma all_within_fails th pd (da db dc : Z) :
  pd !! "a"%string = Some da → pd !! "b"%string = Some db →
  pd !! "c"%string = Some dc →
  all_within th pd ["a"; "b"; "c"]%string = Err KeyError
  ↔ (th !! "a"%string = None
     ∨ (∃ ta, th !! "a"%string = Some ta ∧ da ≤ ta ∧ th !! "b"%string = None)
     ∨ (∃ ta tb, th !! "a"%string = Some ta ∧ da ≤ ta
                 ∧ th !! "b"%string = Some tb ∧ db ≤ tb
                 ∧ th !! "c"%string = None)).
Proof.
  intros Hda Hdb Hdc. cbn [all_within]. unfold getitem.
  rewrite Hda, Hdb, Hdc.
  destruct (th !! "a"%string) as [ta|] eqn:Ha; [|split; [by left|done]].
  rewrite !bind_Ok. case_bool_decide as Hca.
  2: { split; [done|]. intros [?|[(? & ? & ? & ?)|(? & ? & ? & ? & ?)]];
       simplify_eq; lia. }
  destruct (th !! "b"%string) as [tb|] eqn:Hb.
  2: { split; [|done]. intros _. right. left. by exists ta. }
  rewrite !bind_Ok. case_bool_decide as Hcb.
  2: { split; [done|]. intros [?|[(? & ? & ? & ?)|(? & ? & ? & ? & ? & ? & ?)]];
       simplify_eq; lia. }
  destruct (th !! "c"%string) as [tc|] eqn:Hc.
  2: { split; [|done]. intros _. right. right. by exists ta, tb. }
  rewrite !bind_Ok. split.
  - by case_bool_decide.
  - intros [?|[(? & ? & ? & ?)|(? & ? & ? & ? & ? & ? & ?)]]; simplify_eq.
Qed.

Lemma sum_defects_covered rd (start end_ : Z) pd :
  sum_defects (range start end_) rd pos_defects0 = Ok pd → covered rd start end_.
Proof.
  intros Hsum pos Hpos.
  pose proof (sum_defects_spec rd (range start end_) pos_defects0) as H.
  rewrite Hsum in H. destruct H as [_ Hl]. apply Hl, elem_of_seqZ. lia.
Qed.

(** [respect_defects] fails with a key lookup exactly when a position of the
    range is not in the table or carries a class other than a, b, c, or else
    when [all] reaches a class that the threshold mapping has not. *)
Lemma respect_defects_fails_iff th (start end_ : Z) rd :
  respect_defects th start end_ rd = Err KeyError
  ↔ lookup_fails th rd start end_.
Proof.
  unfold respect_defects, lookup_fails.
  destruct (sum_defects (range start end_) rd pos_defects0) as [pd|e] eqn:Hsum.
  - pose proof (sum_defects_covered _ _ _ _ Hsum) as Hcov.
    destruct (sum_defects_lookup rd (range start end_) pos_defects0)
      as (pd' & Hsum' & Hpd).
    { intros pos Hpos%elem_of_seqZ. apply Hcov. lia. }
    assert (pd' = pd) as -> by congruence. rewrite bind_Ok.
    rewrite (all_within_fails th pd (class_total rd "a" start end_)
               (class_total rd "b" start end_) (class_total rd "c" start end_)).
    + unfold missing_class_reached. tauto.
    + rewrite Hpd. reflexivity.
    + rewrite Hpd. reflexivity.
    + rewrite Hpd. reflexivity.
  - pose proof (sum_defects_spec rd (range start end_) pos_defects0) as H.
    rewrite Hsum in H. subst e. split; [|done]. intros _. left. intros Hcov.
    destruct (sum_defects_lookup rd (range start end_) pos_defects0)
      as (pd' & Hsum' & _); [|congruence].
    intros pos Hpos%elem_of_seqZ. apply Hcov. lia.
Qed.

(** ** A run whose first window fails, anywhere in the chromosome *)

Lemma fitness_1_loop_last bl rd ind : ∀ i st st',
  fitness_1_loop bl rd i ind st = Ok st' →
  last_elem1 st' = default (last_elem1 st) (last ind).
Proof.
  induction ind as [|elem ind IH]; intros i st st'; cbn [fitness_1_loop].
  - by intros [= <-].
  - intros (st1 & Hstep & Hloop)%bind_Ok_inv.
    rewrite (IH _ _ _ Hloop).
    assert (Hl1 : last_elem1 st1 = elem).
    { unfold fitness_1_step in Hstep. case_bool_decide; [by injection Hstep as <-|].
      apply bind_Ok_inv in Hstep as (b & _ & Hstep).
      case_bool_decide; [|by injection Hstep as <-].
      apply bind_Ok_inv in Hstep as ([] & _ & Hstep); by injection Hstep as <-. }
    rewrite Hl1. destruct ind as [|x ind]; [done|].
    rewrite last_cons_cons.
    destruct (last (x :: ind)) as [y|] eqn:Hlast; [done|].
    by apply last_None in Hlast.
Qed.

(** A type that differs from the last one starts a run afresh. *)
Lemma fitness_1_step_reset bl rd i e st :
  e ≠ last_elem1 st →
  fitness_1_step bl rd i e st
  = fitness_1_step bl rd i e
      (Scan1 (score1 st - Z.of_nat (size1 st)) 0 (last_elem1 st)).
Proof.
  intros Hlast. unfold fitness_1_step. cbn [score1 size1 last_elem1].
  rewrite !(bool_decide_true (e ≠ last_elem1 st)) by done.
  case_bool_decide; [do 2 f_equal; lia|].
  change (Z.of_nat 0) with 0. by rewrite Z.sub_0_r.
Qed.

Section failing_window.
(** A run of at least [size b] positions of the non-empty type [e], whose
    biscuit is [b], that starts at position [i]; its first [size b]
    positions fail the defect test. *)
Context (bl : gmap Z biscuit) (rd : gmap Z (gmap string Z)).
Context (e : Z) (b : biscuit) (i : Z) (err : error).
Hypothesis He : e ≠ -1.
Hypothesis Hb : bl !! e = Some b.
Hypothesis Herr :
  respect_defects (threshold b) i (i + Z.of_nat (size b)) rd = Err err.

Lemma fitness_1_loop_window_error (L : nat) rest st :
  (1 ≤ size b ≤ L)%nat → size1 st = 0%nat →
  fitness_1_loop bl rd i (replicate L e ++ rest) st = Err err.
Proof.
  intros [HR HL] Hst.
  replace L with ((size b - 1) + S (L - size b))%nat by lia.
  rewrite replicate_add, <- app_assoc, fitness_1_loop_app.
  destruct (fitness_1_loop_run bl rd e b He Hb (size b - 1) i st)
    as (st' & -> & Hscore & Hsize & Hlast); [by right|lia|].
  rewrite bind_Ok. cbn [replicate app fitness_1_loop].
  rewrite (fitness_1_step_run bl rd e b He Hb _ st' Hlast).
  rewrite bool_decide_true by lia. rewrite length_replicate.
  replace (i + Z.of_nat (size b - 1) - Z.of_nat (S (size1 st')) + 1) with i
    by lia.
  replace (i + Z.of_nat (size b - 1) + 1) with (i + Z.of_nat (size b)) by lia.
  by rewrite Herr.
Qed.

Lemma fitness_1_loop_window_error_after (L : nat) rest st :
  (1 ≤ size b ≤ L)%nat → e ≠ last_elem1 st →
  fitness_1_loop bl rd i (replicate L e ++ rest) st = Err err.
Proof.
  intros HL Hlast.
  pose proof (fitness_1_loop_window_error L rest
                (Scan1 (score1 st - Z.of_nat (size1 st)) 0 (last_elem1 st))
                HL eq_refl) as Hloop.
  destruct L as [|l]; [lia|]. cbn [replicate app fitness_1_loop] in *.
  by rewrite fitness_1_step_reset.
Qed.

(** The slice scorer of the run, however far the run goes on. *)
Lemma run_score_window_error (L : nat) :
  (1 ≤ size b ≤ L)%nat →
  run_score bl rd (i + Z.of_nat L) L e = Err err.
Proof.
  intros HL. unfold run_score. rewrite (getitem_Some _ _ _ Hb), bind_Ok.
  apply get_slice_score_first_error; [done|].
  by replace (i + Z.of_nat L - Z.of_nat L) with i by lia.
Qed.

(** Once the run is scanned, the partial-credit evaluator scores it, at the
    next position of another type or at the end. *)
Lemma fitness_2_run_scored (L : nat) rest score :
  (1 ≤ size b ≤ L)%nat → head rest ≠ Some e →
  (st ← fitness_2_loop bl rd (i + Z.of_nat L) rest (Scan2 score L e);
   last_score ← run_score bl rd (i + Z.of_nat L + Z.of_nat (length rest))
                   (size2 st) (last_elem2 st);
   Ok (score2 st + last_score)%Qc) = Err err.
Proof.
  intros HL Hrest. destruct rest as [|x rest]; cbn [fitness_2_loop].
  - rewrite bind_Ok. cbn [length size2 last_elem2]. rewrite Z.add_0_r.
    by rewrite run_score_window_error.
  - unfold fitness_2_step at 1. cbn [last_elem2 size2 score2].
    rewrite bool_decide_false by (intros ->; by apply Hrest).
    rewrite bool_decide_false by done.
    by rewrite run_score_window_error.
Qed.

End failing_window.

Lemma split_run (e : Z) (rest : list Z) :
  ∃ (n : nat) rest', rest = replicate n e ++ rest' ∧ head rest' ≠ Some e.
Proof.
  induction rest as [|x rest (n & rest' & -> & Hhd)].
  - by exists 0%nat, [].
  - destruct (decide (x = e)) as [->|Hx].
    + by exists (S n), rest'.
    + exists 0%nat, (x :: replicate n e ++ rest'). split; [done|].
      cbn. congruence.
Qed.

Lemma fitness_1_window_fails bl rd (pre rest : list Z) e b (L : nat) :
  e ≠ -1 → bl !! e = Some b → (1 ≤ size b ≤ L)%nat → last pre ≠ Some e →
  respect_defects (threshold b) (Z.of_nat (length pre))
    (Z.of_nat (length pre) + Z.of_nat (size b)) rd = Err KeyError →
  fitness_1 (pre ++ replicate L e ++ rest) bl rd = Err KeyError.
Proof.
  intros He Hb HL Hlast Herr. unfold fitness_1.
  rewrite fitness_1_loop_app, Z.add_0_l.
  destruct (fitness_1_loop bl rd 0 pre (Scan1 0 0 (-2))) as [st|e'] eqn:Hpre.
  - rewrite bind_Ok.
    destruct (last pre) as [y|] eqn:Hy.
    + rewrite (fitness_1_loop_window_error_after bl rd e b _ KeyError He Hb Herr);
        [done|done|].
      rewrite (fitness_1_loop_last _ _ _ _ _ _ Hpre), Hy. cbn. congruence.
    + apply last_None in Hy as ->. injection Hpre as <-.
      by rewrite (fitness_1_loop_window_error bl rd e b _ KeyError He Hb Herr).
  - apply fitness_1_loop_error in Hpre as ->. reflexivity.
Qed.

Lemma fitness_2_window_fails bl rd (pre rest : list Z) e b (L : nat) :
  e ≠ -1 → bl !! e = Some b → (1 ≤ size b ≤ L)%nat → last pre ≠ Some e →
  respect_defects (threshold b) (Z.of_nat (length pre))
    (Z.of_nat (length pre) + Z.of_nat (size b)) rd = Err KeyError →
  fitness_2 (pre ++ replicate L e ++ rest) bl rd = Err KeyError.
Proof.
  intros He Hb HL Hlast Herr.
  destruct (split_run e rest) as (n & rest' & -> & Hrest).
  rewrite (app_assoc (replicate L e)), <- replicate_add.
  set (L' := (L + n)%nat). assert (HL' : (1 ≤ size b ≤ L')%nat) by (unfold L'; lia).
  clearbody L'. clear HL L n.
  set (ind := pre ++ replicate L' e ++ rest').
  assert (Hne : ind ≠ []).
  { unfold ind. destruct pre; [|done]. destruct L'; [lia|done]. }
  destruct (fitness_2 ind bl rd) as [s|err] eqn:Hfit;
    [|by apply fitness_2_error in Hfit as ->].
  exfalso. unfold fitness_2 in Hfit.
  apply bind_Ok_inv in Hfit as (first & Hfirst & Hfit).
  assert (Hlen : Z.of_nat (length ind)
                 = Z.of_nat (length pre) + Z.of_nat L' + Z.of_nat (length rest')).
  { unfold ind. rewrite !length_app, length_replicate. lia. }
  rewrite Hlen in Hfit. unfold ind in Hfit.
  rewrite fitness_2_loop_app, Z.add_0_l in Hfit.
  destruct (fitness_2_loop bl rd 0 pre (Scan2 0%Qc 0 first)) as [st|e']
    eqn:Hpre; [|done].
  rewrite bind_Ok, fitness_2_loop_app, length_replicate in Hfit.
  assert (Hrun : ∃ score,
             fitness_2_loop bl rd (Z.of_nat (length pre)) (replicate L' e) st
             = Ok (Scan2 score L' e)).
  { destruct (last pre) as [y|] eqn:Hy.
    - assert (Hst : last_elem2 st = y).
      { by rewrite (fitness_2_loop_last _ _ _ _ _ _ Hpre), Hy. }
      destruct L' as [|l]; [lia|]. cbn [replicate fitness_2_loop] in *.
      unfold fitness_2_step at 1. unfold fitness_2_step at 1 in Hfit.
      rewrite Hst in *.
      rewrite (bool_decide_false (e = y)) in * by congruence.
      case_bool_decide.
      + rewrite bind_Ok, (fitness_2_loop_run bl rd e). eexists. do 2 f_equal.
      + destruct (run_score bl rd _ _ y) as [sc|]; [|done].
        rewrite !bind_Ok, (fitness_2_loop_run bl rd e). eexists. do 2 f_equal.
    - apply last_None in Hy as ->. injection Hpre as <-.
      assert (first = e) as ->.
      { unfold ind in Hfirst. destruct L'; [lia|]. cbn in Hfirst. congruence. }
      rewrite (fitness_2_loop_run bl rd e). by eexists. }
  destruct Hrun as [score Hrun]. rewrite Hrun, bind_Ok in Hfit.
  by rewrite (fitness_2_run_scored bl rd e b _ KeyError He Hb Herr) in Hfit.
Qed.

(** ** The positions that the evaluators read *)

Lemma sum_defects_ext (l : list Z) (rd rd' : gmap Z (gmap string Z)) :
  (∀ pos, pos ∈ l → rd !! pos = rd' !! pos) →
  ∀ pd, sum_defects l rd pd = sum_defects l rd' pd.
Proof.
  induction l as [|pos l IH]; intros Hl pd; [done|].
  cbn [sum_defects]. unfold getitem.
  rewrite <- (Hl pos) by (by left).
  destruct (rd !! pos) as [here|]; [|done]. rewrite !bind_Ok.
  destruct (add_pos_defects here pd) as [pd1|]; [|done]. rewrite !bind_Ok.
  apply IH. intros pos' Hpos'. apply Hl. by right.
Qed.

(** [respect_defects] reads the table at the positions of its range only. *)
Lemma respect_defects_ext th (start end_ : Z) (rd rd' : gmap Z (gmap string Z)) :
  (∀ pos, start ≤ pos < end_ → rd !! pos = rd' !! pos) →
  respect_defects th start end_ rd = respect_defects th start end_ rd'.
Proof.
  intros Hsame. unfold respect_defects.
  rewrite (sum_defects_ext _ rd rd'); [done|].
  intros pos Hpos%elem_of_range. by apply Hsame.
Qed.

Lemma drop_cons_inv {A} (l : list A) (n : nat) x t :
  drop n l = x :: t → l !! n = Some x ∧ drop (S n) l = t.
Proof.
  intros Hdrop. split.
  - rewrite <- (Nat.add_0_r n), <- lookup_drop, Hdrop. done.
  - replace (S n) with (n + 1)%nat by lia.
    by rewrite <- drop_drop, Hdrop.
Qed.

Section strict_frame.
(** Two tables that hold the same under every position of a non-empty
    type of the chromosome [whole]. *)
Context (bl : gmap Z biscuit) (rd rd' : gmap Z (gmap string Z)).
Context (whole : list Z).
Hypothesis Hsame : same_on (holds_biscuit whole) rd rd'.

Lemma fitness_1_step_frame (k : nat) elem st :
  whole !! k = Some elem →
  trailing_run whole k (size1 st) (last_elem1 st) →
  fitness_1_step bl rd (Z.of_nat k) elem st
  = fitness_1_step bl rd' (Z.of_nat k) elem st
  ∧ ∀ st1, fitness_1_step bl rd (Z.of_nat k) elem st = Ok st1 →
           trailing_run whole (S k) (size1 st1) (last_elem1 st1).
Proof.
  intros Helem [Hsz Hrun]. unfold fitness_1_step.
  case_bool_decide as Hempty.
  { split; [done|]. intros st1 [= <-]. cbn. split; [lia|]. intros j Hj. lia. }
  unfold getitem. destruct (bl !! elem) as [b|]; [|by split].
  rewrite !bind_Ok.
  set (sz := if bool_decide (elem ≠ last_elem1 st) then 1%nat
             else S (size1 st)).
  assert (Hwin : (sz ≤ S k)%nat
                 ∧ ∀ j, (S k - sz ≤ j < S k)%nat → whole !! j = Some elem).
  { unfold sz. case_bool_decide as Hlast.
    - split; [lia|]. intros j Hj. by replace j with k by lia.
    - split; [lia|]. intros j Hj.
      destruct (decide (j = k)) as [->|Hjd]; [done|].
      rewrite Hrun by lia. f_equal. by destruct (decide (elem = last_elem1 st)). }
  clearbody sz. destruct Hwin as [Hsz' Hwin].
  case_bool_decide as Hfull.
  - rewrite (respect_defects_ext _ _ _ rd rd').
    2: { intros pos Hpos. replace pos with (Z.of_nat (Z.to_nat pos)) by lia.
         apply Hsame. exists elem. split; [apply Hwin; lia|done]. }
    split; [done|]. intros st1.
    destruct (respect_defects _ _ _ rd') as [[]|]; rewrite ?bind_Ok;
      intros [= <-]; cbn.
    + split; [lia|]. intros j Hj. lia.
    + split; [lia|]. intros j Hj. apply Hwin. lia.
  - split; [done|]. intros st1 [= <-]. cbn. split; [done|].
    intros j Hj. apply Hwin. lia.
Qed.

Lemma fitness_1_loop_frame (todo : list Z) : ∀ (k : nat) st,
  drop k whole = todo →
  trailing_run whole k (size1 st) (last_elem1 st) →
  fitness_1_loop bl rd (Z.of_nat k) todo st
  = fitness_1_loop bl rd' (Z.of_nat k) todo st.
Proof.
  induction todo as [|elem todo IH]; intros k st Hdrop Hrun; [done|].
  apply drop_cons_inv in Hdrop as [Helem Hdrop]. cbn [fitness_1_loop].
  destruct (fitness_1_step_frame k elem st Helem Hrun) as [<- Hnext].
  destruct (fitness_1_step bl rd (Z.of_nat k) elem st) as [st1|]; [|done].
  rewrite !bind_Ok. replace (Z.of_nat k + 1) with (Z.of_nat (S k)) by lia.
  apply IH; [done|]. by apply Hnext.
Qed.

Lemma fitness_1_frame : fitness_1 whole bl rd = fitness_1 whole bl rd'.
Proof.
  unfold fitness_1. rewrite (fitness_1_loop_frame whole 0%nat); [done|done|].
  split; [done|]. intros j Hj. lia.
Qed.

End strict_frame.

Lemma list_remove_subset (x : Z) (l : list Z) : ∀ l',
  list_remove x l = Ok l' → ∀ y, y ∈ l' → y ∈ l.
Proof.
  induction l as [|z l IH]; intros l'; cbn [list_remove]; [done|].
  case_bool_decide.
  - intros [= <-] y Hy. by right.
  - intros (l1 & Hl1 & [= <-])%bind_Ok_inv y [->|Hy]%elem_of_cons; [by left|].
    right. by apply (IH l1).
Qed.

Lemma remove_assigned_subset (assigned : list Z) : ∀ u u',
  remove_assigned assigned u = Ok u' → ∀ y, y ∈ u' → y ∈ u.
Proof.
  induction assigned as [|a assigned IH]; intros u u'; cbn [remove_assigned].
  - by intros [= <-].
  - intros (u1 & Hu1 & Hrest)%bind_Ok_inv y Hy.
    apply (list_remove_subset a u u1 Hu1). by apply (IH u1 u').
Qed.

Section slice_frame.
Context (lb_size : nat) (lb_value : Z) (th : gmap string Z)
        (rd rd' : gmap Z (gmap string Z)).

Lemma slice_pass_ext (fuel : nat) : ∀ u last_size j score assigned,
  (∀ pos, pos ∈ u → rd !! pos = rd' !! pos) →
  slice_pass fuel u last_size lb_size lb_value th rd j score assigned
  = slice_pass fuel u last_size lb_size lb_value th rd' j score assigned.
Proof.
  induction fuel as [|fuel IH]; intros u last_size j score assigned Hu;
    cbn [slice_pass]; [done|].
  case_bool_decide; [|done].
  destruct (index u j) as [pos|]; [|done]. rewrite !bind_Ok.
  destruct (forallb _ _) eqn:Hall; [|by apply IH].
  rewrite (respect_defects_ext th _ _ rd rd').
  2: { intros y Hy. apply Hu. rewrite forallb_forall in Hall.
       eapply bool_decide_eq_true_1, (Hall y), list_elem_of_In, elem_of_range, Hy. }
  destruct (respect_defects _ _ _ rd') as [[]|]; rewrite ?bind_Ok;
    [by apply IH..|done].
Qed.

Lemma slice_loop_ext (last_size : nat) : ∀ u score,
  (∀ pos, pos ∈ u → rd !! pos = rd' !! pos) →
  slice_loop last_size lb_size lb_value th rd u score
  = slice_loop last_size lb_size lb_value th rd' u score.
Proof.
  induction last_size as [|last_size IH]; intros u score Hu; [done|].
  destruct u as [|x u]; [done|]. cbn [slice_loop].
  rewrite (slice_pass_ext _ _ _ _ _ _ Hu).
  destruct (slice_pass _ _ _ _ _ _ rd' _ _ _) as [sa|]; [|done].
  rewrite !bind_Ok.
  destruct (remove_assigned sa.2 (x :: u)) as [u'|] eqn:Hrem; [|done].
  rewrite !bind_Ok. apply IH. intros pos Hpos. apply Hu.
  by apply (remove_assigned_subset _ _ _ Hrem).
Qed.

(** [get_slice_score] reads the table at the positions of its run only. *)
Lemma get_slice_score_ext (position : Z) (sz : nat) :
  (∀ pos, position - Z.of_nat sz ≤ pos < position → rd !! pos = rd' !! pos) →
  get_slice_score position sz lb_size lb_value th rd
  = get_slice_score position sz lb_size lb_value th rd'.
Proof.
  intros Hsame. unfold get_slice_score.
  rewrite (slice_loop_ext _ _ _); [done|].
  intros pos Hpos%elem_of_range. by apply Hsame.
Qed.

End slice_frame.

Section partial_frame.
(** Two tables that hold the same under every position of a non-empty
    type and under the last run of the chromosome [whole]. *)
Context (bl : gmap Z biscuit) (rd rd' : gmap Z (gmap string Z)).
Context (whole : list Z).
Hypothesis Hsame :
  same_on (λ j, holds_biscuit whole j ∨ in_last_run whole j) rd rd'.

Lemma run_score_frame (k sz : nat) (x : Z) :
  trailing_run whole k sz x → x ≠ -1 ∨ k = length whole →
  run_score bl rd (Z.of_nat k) sz x = run_score bl rd' (Z.of_nat k) sz x.
Proof.
  intros [Hsz Hrun] Hx. unfold run_score, getitem.
  destruct (bl !! x) as [b|]; [|done]. rewrite !bind_Ok.
  apply get_slice_score_ext. intros pos Hpos.
  replace pos with (Z.of_nat (Z.to_nat pos)) by lia. apply Hsame.
  assert (Hpos' : whole !! Z.to_nat pos = Some x) by (apply Hrun; lia).
  destruct Hx as [Hx| ->]; [left; by exists x|].
  right. exists x. split; [done|]. intros j Hj. apply Hrun. lia.
Qed.

Lemma fitness_2_step_frame (k : nat) elem st :
  whole !! k = Some elem →
  trailing_run whole k (size2 st) (last_elem2 st) →
  fitness_2_step bl rd (Z.of_nat k) elem st
  = fitness_2_step bl rd' (Z.of_nat k) elem st
  ∧ ∀ st1, fitness_2_step bl rd (Z.of_nat k) elem st = Ok st1 →
           trailing_run whole (S k) (size2 st1) (last_elem2 st1).
Proof.
  intros Helem Hrun. unfold fitness_2_step.
  assert (Hone : trailing_run whole (S k) 1 elem).
  { split; [lia|]. intros j Hj. by replace j with k by lia. }
  case_bool_decide as Hlast.
  { split; [done|]. intros st1 [= <-]. cbn. destruct Hrun as [Hsz Hrun].
    split; [lia|]. intros j Hj.
    destruct (decide (j = k)) as [->|Hjk]; [done|].
    rewrite Hrun by lia. by rewrite Hlast. }
  case_bool_decide as Hempty.
  { split; [done|]. by intros st1 [= <-]. }
  rewrite (run_score_frame k (size2 st) (last_elem2 st) Hrun) by (by left).
  split; [done|]. intros st1.
  destruct (run_score bl rd' _ _ _); rewrite ?bind_Ok; [|done].
  by intros [= <-].
Qed.

Lemma fitness_2_loop_frame (todo : list Z) : ∀ (k : nat) st,
  drop k whole = todo → (k ≤ length whole)%nat →
  trailing_run whole k (size2 st) (last_elem2 st) →
  fitness_2_loop bl rd (Z.of_nat k) todo st
  = fitness_2_loop bl rd' (Z.of_nat k) todo st
  ∧ ∀ st', fitness_2_loop bl rd (Z.of_nat k) todo st = Ok st' →
           trailing_run whole (length whole) (size2 st') (last_elem2 st').
Proof.
  induction todo as [|elem todo IH]; intros k st Hdrop Hk Hrun.
  - split; [done|]. intros st' [= <-].
    assert (k = length whole) as <-; [|done].
    apply (f_equal length) in Hdrop. rewrite length_drop in Hdrop.
    cbn in Hdrop. lia.
  - apply drop_cons_inv in Hdrop as [Helem Hdrop]. cbn [fitness_2_loop].
    destruct (fitness_2_step_frame k elem st Helem Hrun) as [<- Hnext].
    destruct (fitness_2_step bl rd (Z.of_nat k) elem st) as [st1|]; [|by split].
    rewrite !bind_Ok. replace (Z.of_nat k + 1) with (Z.of_nat (S k)) by lia.
    apply IH; [done| |by apply Hnext].
    by apply lookup_lt_Some in Helem.
Qed.

Lemma fitness_2_frame : fitness_2 whole bl rd = fitness_2 whole bl rd'.
Proof.
  unfold fitness_2. destruct (index whole 0) as [first|]; [|done].
  rewrite !bind_Ok.
  destruct (fitness_2_loop_frame whole 0%nat (Scan2 0%Qc 0 first))
    as [Heq Hlast]; [done|lia| |].
  { split; [done|]. intros j Hj. lia. }
  change 0 with (Z.of_nat 0) at 1 3. rewrite <- Heq.
  destruct (fitness_2_loop bl rd (Z.of_nat 0) whole _) as [st|]; [|done].
  rewrite !bind_Ok.
  by rewrite (run_score_frame (length whole) (size2 st) (last_elem2 st))
    by (by (apply Hlast || right)).
Qed.

End partial_frame.


